(** * Excel Operations App: reconciliation and anomaly detection engine

  A shallow embedding of the four services of the application whose
  behaviour the specification describes:

  - [ServiceOne]   forecast comparison pivot  (_service_one/service_logic.py)
  - [ServiceTwo]   file comparison            (_service_two/service_logic.py)
  - [ServiceThree] usage anomaly detection    (_service_three/service_logic.py)
  - [ServiceEight] multi-file merge           (_service_eight/service_logic.py)

  and of what they share:

  - [Utils]        sheet names, header rows   (_utils/functions.py)
  - [Settings]     the configuration file     (_config/settings.py)

  Numbers are exact: a pandas float column is a list of rationals [Q] (or of
  integers [Z] where only equality and order matter), so rounding is not
  part of the model.  A pandas DataFrame with its default RangeIndex is a
  list of rows, the label of a row being its position. *)

From Stdlib Require Import QArith Qabs Lqa ZArith Lia Permutation Sorted Ascii String.
From stdpp Require Import base list strings sorting gmap pretty.

(** ** Sorting

  pandas sorts a frame by the tuple of its [by] columns and, for several
  columns, keeps the input order of rows that tie on all of them.  The
  model is a stable insertion sort for a boolean "less or equal". *)

Section Sorting.
Context {A : Type} (leb : A -> A -> bool).

Fixpoint insert_sorted (x : A) (l : list A) : list A :=
  match l with
  | [] => [x]
  | y :: l' => if leb x y then x :: y :: l' else y :: insert_sorted x l'
  end.

Fixpoint stable_sort (l : list A) : list A :=
  match l with
  | [] => []
  | x :: l' => insert_sorted x (stable_sort l')
  end.

Lemma insert_sorted_perm x l : Permutation (x :: l) (insert_sorted x l).
Proof.
  induction l as [|y l IH]; simpl; [reflexivity|].
  destruct (leb x y); [reflexivity|].
  rewrite perm_swap. now apply perm_skip.
Qed.

Lemma stable_sort_perm l : Permutation l (stable_sort l).
Proof.
  induction l as [|x l IH]; simpl; [constructor|].
  rewrite <- insert_sorted_perm. now apply perm_skip.
Qed.

Lemma stable_sort_length l : length (stable_sort l) = length l.
Proof. symmetry. apply Permutation_length, stable_sort_perm. Qed.

Lemma stable_sort_elem x l : x ∈ stable_sort l <-> x ∈ l.
Proof. now rewrite <- (stable_sort_perm l). Qed.

(** A stable sort keeps the input order of the elements of any class whose
    members are all below one another. *)
Lemma insert_sorted_filter (P : A -> Prop) `{!forall x, Decision (P x)} x l :
  (forall a b, P a -> P b -> leb a b = true) ->
  filter P (insert_sorted x l) = filter P (x :: l).
Proof.
  intros Hle. induction l as [|y l IH]; simpl; [reflexivity|].
  destruct (leb x y) eqn:E; [reflexivity|].
  rewrite (filter_cons _ y), IH, !filter_cons.
  destruct (decide (P y)) as [Hy|Hy]; [|reflexivity].
  destruct (decide (P x)) as [Hx|Hx]; [|reflexivity].
  rewrite (Hle x y Hx Hy) in E. discriminate.
Qed.

Lemma stable_sort_filter (P : A -> Prop) `{!forall x, Decision (P x)} l :
  (forall a b, P a -> P b -> leb a b = true) ->
  filter P (stable_sort l) = filter P l.
Proof.
  intros Hle. induction l as [|x l IH]; simpl; [reflexivity|].
  rewrite insert_sorted_filter by exact Hle. now rewrite !filter_cons, IH.
Qed.

(** Sortedness needs [leb] to be total and transitive. *)
Hypothesis leb_total : forall x y, leb x y = true \/ leb y x = true.
Hypothesis leb_trans : forall x y z, leb x y = true -> leb y z = true -> leb x z = true.

Lemma insert_sorted_sorted x l :
  StronglySorted (fun a b => leb a b = true) l ->
  StronglySorted (fun a b => leb a b = true) (insert_sorted x l).
Proof.
  induction 1 as [|y l Hs IH Hall]; simpl.
  - repeat constructor.
  - destruct (leb x y) eqn:E.
    + constructor; [now constructor|].
      constructor; [exact E|].
      eapply Forall_impl; [exact Hall|]. intros z Hz. simpl in Hz. eauto.
    + constructor; [exact IH|].
      apply (Permutation_Forall (insert_sorted_perm x l)).
      constructor; [|exact Hall].
      destruct (leb_total x y) as [H|H]; congruence.
Qed.

Lemma stable_sort_sorted l :
  StronglySorted (fun a b => leb a b = true) (stable_sort l).
Proof.
  induction l as [|x l IH]; simpl; [constructor|].
  now apply insert_sorted_sorted.
Qed.
End Sorting.

(** * Order by a three-way comparison

    A comparison that is exact on [Eq], antisymmetric and transitive on [Lt]
    gives a total preorder; tuples are compared lexicographically. *)

Section Comparison.
Context {A : Type} (cmp : A -> A -> comparison).

Definition cmp_leb (x y : A) : bool :=
  match cmp x y with Gt => false | _ => true end.

Fixpoint lex_compare (l1 l2 : list A) : comparison :=
  match l1, l2 with
  | [], [] => Eq
  | [], _ :: _ => Lt
  | _ :: _, [] => Gt
  | x :: l1', y :: l2' =>
      match cmp x y with
      | Eq => lex_compare l1' l2'
      | c => c
      end
  end.

Definition lex_leb (l1 l2 : list A) : bool :=
  match lex_compare l1 l2 with Gt => false | _ => true end.

End Comparison.

(** The laws of a three-way comparison. *)
Class Comparison {A : Type} (cmp : A -> A -> comparison) : Prop := {
  cmp_eq : forall x y, cmp x y = Eq -> x = y;
  cmp_antisym : forall x y, cmp y x = CompOpp (cmp x y);
  cmp_lt_trans : forall x y z, cmp x y = Lt -> cmp y z = Lt -> cmp x z = Lt
}.

Section ComparisonLaws.
Context {A : Type} (cmp : A -> A -> comparison) `{!Comparison cmp}.

Lemma cmp_refl x : cmp x x = Eq.
Proof.
  pose proof (cmp_antisym x x) as H. destruct (cmp x x); simpl in H; congruence.
Qed.

Lemma cmp_leb_total x y : cmp_leb cmp x y = true \/ cmp_leb cmp y x = true.
Proof.
  unfold cmp_leb. rewrite (cmp_antisym x y). destruct (cmp x y); simpl; auto.
Qed.

Lemma cmp_leb_trans x y z :
  cmp_leb cmp x y = true -> cmp_leb cmp y z = true -> cmp_leb cmp x z = true.
Proof.
  unfold cmp_leb.
  destruct (cmp x y) eqn:Hxy; [| |discriminate]; intros _.
  - apply cmp_eq in Hxy. now subst.
  - destruct (cmp y z) eqn:Hyz; [| |discriminate]; intros _.
    + apply cmp_eq in Hyz. subst. now rewrite Hxy.
    + now rewrite (cmp_lt_trans x y z Hxy Hyz).
Qed.

Lemma cmp_leb_antisym x y :
  cmp_leb cmp x y = true -> cmp_leb cmp y x = true -> x = y.
Proof.
  unfold cmp_leb. rewrite (cmp_antisym x y).
  destruct (cmp x y) eqn:Hxy; simpl; try discriminate.
  intros _ _. now apply cmp_eq.
Qed.

End ComparisonLaws.

Section LexicographicLaws.
Context {A : Type} (cmp : A -> A -> comparison) `{!Comparison cmp}.

Global Instance lex_compare_comparison : Comparison (lex_compare cmp).
Proof.
  split.
  - intros l1. induction l1 as [|x l1 IH]; intros [|y l2]; simpl; try discriminate; [reflexivity|].
    destruct (cmp x y) eqn:Hxy; try discriminate.
    intros H. apply cmp_eq in Hxy. apply IH in H. congruence.
  - intros l1. induction l1 as [|x l1 IH]; intros [|y l2]; simpl; try reflexivity.
    rewrite (cmp_antisym x y). destruct (cmp x y); simpl; auto.
  - intros l1. induction l1 as [|x l1 IH]; intros [|y l2] [|z l3]; simpl; try discriminate; auto.
    destruct (cmp x y) eqn:Hxy; try discriminate.
    + apply cmp_eq in Hxy. subst y. destruct (cmp x z); auto. apply IH.
    + intros _. destruct (cmp y z) eqn:Hyz; try discriminate.
      * apply cmp_eq in Hyz. subst z. now rewrite Hxy.
      * now rewrite (cmp_lt_trans x y z Hxy Hyz).
Qed.

Lemma lex_leb_total l1 l2 : lex_leb cmp l1 l2 = true \/ lex_leb cmp l2 l1 = true.
Proof. apply (cmp_leb_total (lex_compare cmp)). Qed.

Lemma lex_leb_trans l1 l2 l3 :
  lex_leb cmp l1 l2 = true -> lex_leb cmp l2 l3 = true -> lex_leb cmp l1 l3 = true.
Proof. apply (cmp_leb_trans (lex_compare cmp)). Qed.

Lemma lex_leb_refl l : lex_leb cmp l l = true.
Proof. unfold lex_leb. now rewrite (cmp_refl (lex_compare cmp)). Qed.

Lemma lex_leb_head x l1 y l2 :
  lex_leb cmp (x :: l1) (y :: l2) = true -> cmp_leb cmp x y = true.
Proof. unfold lex_leb, cmp_leb. simpl. now destruct (cmp x y). Qed.

End LexicographicLaws.

Global Instance Z_compare_comparison : Comparison Z.compare.
Proof.
  split.
  - apply Z.compare_eq.
  - intros x y. apply Z.compare_antisym.
  - intros x y z. rewrite !Z.compare_lt_iff. lia.
Qed.

Global Instance ascii_compare_comparison : Comparison Ascii.compare.
Proof.
  split.
  - apply Ascii.compare_eq_iff.
  - intros x y. apply Ascii.compare_antisym.
  - intros x y z. unfold Ascii.compare. rewrite !N.compare_lt_iff. lia.
Qed.

Global Instance string_compare_comparison : Comparison String.compare.
Proof.
  split.
  - apply String.compare_eq_iff.
  - intros x y. apply String.compare_antisym.
  - intros s1. induction s1 as [|a s1 IH]; intros [|b s2] [|c s3]; simpl; try discriminate; auto.
    destruct (Ascii.compare a b) eqn:Hab; try discriminate.
    + apply cmp_eq in Hab. subst b. destruct (Ascii.compare a c); auto. apply IH.
    + intros _. destruct (Ascii.compare b c) eqn:Hbc; try discriminate.
      * apply cmp_eq in Hbc. subst c. now rewrite Hab.
      * now rewrite (cmp_lt_trans a b c Hab Hbc).
Qed.

(** * Cells and frames

    A cell of a sheet read by pandas: a number, a text, or the missing
    value NaN.  Numbers are integers here; the decimal rendering of floats
    is not part of the model. *)

Inductive Cell := CNum (n : Z) | CStr (s : string) | CNaN.

Global Instance Cell_eq_dec : EqDecision Cell.
Proof. solve_decision. Defined.

Global Instance Cell_countable : Countable Cell.
Proof.
  refine (inj_countable'
    (fun c => match c with CNum n => inl n | CStr s => inr (inl s) | CNaN => inr (inr ()) end)
    (fun x => match x with inl n => CNum n | inr (inl s) => CStr s | inr (inr _) => CNaN end) _).
  intros []; reflexivity.
Defined.

(** [str(value)] of a text, of a missing value and of a number of an
    integer column.  pandas types a column as a whole: a numeric column with
    a blank holds floats, and [str] writes its 7 as "7.0".  Such renderings
    are outside the model; the statements below name the text of a number
    only as [cell_str] of it. *)
Definition cell_str (c : Cell) : string :=
  match c with
  | CNum n => pretty n
  | CStr s => s
  | CNaN => "nan"
  end.

(** The order pandas sorts a column by: numbers by value, texts by code
    point, numbers before texts, NaN last.  (A column that mixes numbers and
    texts is ordered this way when a frame is sorted by several columns;
    sorted on its own it makes pandas raise.) *)
Definition cell_compare (a b : Cell) : comparison :=
  match a, b with
  | CNum x, CNum y => Z.compare x y
  | CNum _, _ => Lt
  | CStr _, CNum _ => Gt
  | CStr s, CStr t => String.compare s t
  | CStr _, CNaN => Lt
  | CNaN, CNaN => Eq
  | CNaN, _ => Gt
  end.

Global Instance cell_compare_comparison : Comparison cell_compare.
Proof.
  split.
  - intros [x|s|] [y|t|]; simpl; try discriminate; intros H;
      [apply cmp_eq in H|apply cmp_eq in H|]; congruence.
  - intros [x|s|] [y|t|]; simpl; try reflexivity; apply cmp_antisym.
  - intros [x|s|] [y|t|] [z|u|]; simpl; try discriminate; auto; apply cmp_lt_trans.
Qed.

(** A frame with the default index: its column names and its rows, each
    row holding one cell per column. *)
Record DataFrame := mkDataFrame {
  columns : list string;
  rows : list (list Cell)
}.

(** [df[col]] read in one row; [None] is pandas' [KeyError] (or a row too
    short for its frame). *)
Definition column_index (df : DataFrame) (col : string) : option nat :=
  fst <$> list_find (fun c => c = col) (columns df).

Definition row_at (df : DataFrame) (row : list Cell) (col : string) : option Cell :=
  i ← column_index df col; row !! i.

(** [df.iloc[idx][col]]; [None] is [IndexError] or [KeyError]. *)
Definition iloc (df : DataFrame) (idx : nat) (col : string) : option Cell :=
  row ← rows df !! idx; row_at df row col.

(** [df[col]] as a column; a cell that cannot be read is missing. *)
Definition column (df : DataFrame) (col : string) : list Cell :=
  map (fun row => default CNaN (row_at df row col)) (rows df).

(** A loop whose body may raise: the first exception ends it. *)
Fixpoint foldlM {A B} (f : A -> B -> option A) (a : A) (l : list B) : option A :=
  match l with
  | [] => Some a
  | x :: l' => a' ← f a x; foldlM f a' l'
  end.

Lemma column_index_Some df col k :
  column_index df col = Some k -> columns df !! k = Some col.
Proof.
  unfold column_index. destruct (list_find _ _) as [[i c]|] eqn:E; [|discriminate].
  intros [= <-]. apply list_find_Some in E as (Hlk & -> & _). exact Hlk.
Qed.

Lemma column_index_elem df col :
  col ∈ columns df -> exists k, column_index df col = Some k /\ k < length (columns df).
Proof.
  intros Hin. unfold column_index.
  destruct (list_find_elem_of (fun c => c = col) (columns df) col Hin eq_refl) as [[k c] E].
  rewrite E. exists k. split; [reflexivity|].
  apply list_find_Some in E as (Hlk & _). eapply lookup_lt_Some, Hlk.
Qed.

(** * Service one: forecast comparison *)

Module ServiceOne.

(** One row of [pivot_table] after [.fillna(0)]: the index tuple and one
    value per source. *)
Record PivotRow := mkPivotRow {
  pivot_index : list string;
  source1 : Q;
  source2 : Q
}.

(** The row after the CALCULATIONS block. *)
Record ResultRow := mkResultRow {
  pivot : PivotRow;
  Difference : Q;
  Similarity : Q
}.

(** [Series.astype(str).str.strip().str.lower()] on the id columns (lines
    93-95), for texts of ASCII letters: blanks are the space, tab, line feed,
    vertical tab, form feed and carriage return. *)
Definition is_space (a : ascii) : bool :=
  let n := nat_of_ascii a in (n =? 32)%nat || ((9 <=? n)%nat && (n <=? 13)%nat).

Fixpoint lstrip (s : string) : string :=
  match s with
  | String a s' => if is_space a then lstrip s' else s
  | EmptyString => EmptyString
  end.

Fixpoint rstrip (s : string) : string :=
  match s with
  | String a s' =>
      match rstrip s' with
      | EmptyString => if is_space a then EmptyString else String a EmptyString
      | t => String a t
      end
  | EmptyString => EmptyString
  end.

Definition strip (s : string) : string := rstrip (lstrip s).

Definition lower_ascii (a : ascii) : ascii :=
  let n := nat_of_ascii a in
  if (65 <=? n)%nat && (n <=? 90)%nat then ascii_of_nat (n + 32) else a.

Fixpoint lower (s : string) : string :=
  match s with
  | String a s' => String (lower_ascii a) (lower s')
  | EmptyString => EmptyString
  end.

Definition normalize_id (c : Cell) : Cell :=
  CStr (lower (strip (cell_str c))).

(** Python's [/]: dividing by zero raises [ZeroDivisionError]. *)
Definition truediv (a b : Q) : option Q :=
  if Qeq_bool b 0 then None else Some (a / b)%Q.

(** [lambda row: (1 - abs(row['source1'] - row['source2']) / row['source1']) * 100
             if row['source1'] != 0 else 0], computed exactly; the code rounds
    each of the four operations. *)
Definition similarity (row : PivotRow) : option Q :=
  if negb (Qeq_bool (source1 row) 0) then
    d ← truediv (Qabs (source1 row - source2 row)) (source1 row);
    Some ((1 - d) * 100)%Q
  else Some 0%Q.

(** [pivot_table['Difference'] = ...; pivot_table['Similarity %'] = pivot_table.apply(...)];
    an exception in any row aborts the whole analysis ([None]). *)
Definition calculate_row (row : PivotRow) : option ResultRow :=
  let difference := (source1 row - source2 row)%Q in
  s ← similarity row;
  Some (mkResultRow row difference s).

Definition calculations (pivot_table : list PivotRow) : option (list ResultRow) :=
  mapM calculate_row pivot_table.

(** The formula of the specification, section 4.3. *)
Definition similarity_formula (s1 s2 : Q) : Q :=
  if Qeq_bool s1 0 then 0%Q else ((1 - Qabs (s1 - s2) / s1) * 100)%Q.

Lemma similarity_total row :
  similarity row = Some (similarity_formula (source1 row) (source2 row)).
Proof.
  unfold similarity, similarity_formula, truediv.
  destruct (Qeq_bool (source1 row) 0); reflexivity.
Qed.

Lemma calculate_row_total row :
  calculate_row row =
    Some (mkResultRow row (source1 row - source2 row)%Q
            (similarity_formula (source1 row) (source2 row))).
Proof. unfold calculate_row. now rewrite similarity_total. Qed.

Lemma calculations_total pivot_table :
  calculations pivot_table =
    Some (map (fun row => mkResultRow row (source1 row - source2 row)%Q
                            (similarity_formula (source1 row) (source2 row)))
              pivot_table).
Proof.
  unfold calculations. apply mapM_Some.
  induction pivot_table as [|r l IH]; simpl; constructor; auto using calculate_row_total.
Qed.

(** C6. The CALCULATIONS block never fails: every output row carries
    Similarity% = (1 - |source1 - source2| / source1) * 100 when source1 is
    not zero and 0 when source1 is zero, the division being reached only
    with a non-zero divisor; source1 = 100, source2 = 80 gives
    Difference = 20 and Similarity% = 80; source1 = 0 gives Similarity% = 0
    whatever source2 is. *)
Theorem similarity_percent_formula :
  (forall pivot_table, exists out,
      calculations pivot_table = Some out /\
      length out = length pivot_table /\
      forall i r, out !! i = Some r ->
        pivot_table !! i = Some (pivot r) /\
        Difference r = (source1 (pivot r) - source2 (pivot r))%Q /\
        (~ source1 (pivot r) == 0 ->
           Similarity r =
             ((1 - Qabs (source1 (pivot r) - source2 (pivot r)) / source1 (pivot r)) * 100)%Q /\
           truediv (Qabs (source1 (pivot r) - source2 (pivot r))) (source1 (pivot r)) <> None) /\
        (source1 (pivot r) == 0 -> Similarity r = 0%Q)) /\
  (forall idx, exists r,
      calculate_row (mkPivotRow idx 100 80) = Some r /\
      Difference r == 20 /\ Similarity r == 80) /\
  (forall idx s2, exists r,
      calculate_row (mkPivotRow idx 0 s2) = Some r /\ Similarity r = 0%Q).
Proof.
  split; [|split].
  - intros pivot_table. eexists. split; [apply calculations_total|].
    split; [now rewrite length_map|].
    intros i r Hi. rewrite list_lookup_fmap in Hi.
    destruct (pivot_table !! i) as [row|] eqn:Hrow; simpl in Hi; [|discriminate].
    injection Hi as <-. simpl. split; [reflexivity|]. split; [reflexivity|].
    unfold similarity_formula, truediv.
    destruct (Qeq_bool (source1 row) 0) eqn:E.
    + apply Qeq_bool_eq in E. split; [intros H; now destruct H|reflexivity].
    + split; [intros _; split; [reflexivity|discriminate]|].
      intros H. apply Qeq_eq_bool in H. congruence.
  - intros idx. eexists. split; [apply calculate_row_total|]. simpl. split; reflexivity.
  - intros idx s2. eexists. split; [apply calculate_row_total|]. reflexivity.
Qed.

(** ** The range of the similarity *)

Lemma similarity_formula_positive (s1 s2 : Q) :
  (0 < s1)%Q ->
  (similarity_formula s1 s2 <= 100)%Q /\
  ((0 <= s2 <= 2 * s1)%Q -> (0 <= similarity_formula s1 s2)%Q) /\
  ((s2 <= 0 \/ 2 * s1 <= s2)%Q -> (similarity_formula s1 s2 <= 0)%Q).
Proof.
  intros Hpos. unfold similarity_formula.
  destruct (Qeq_bool s1 0) eqn:E; [apply Qeq_bool_eq in E; lra|clear E].
  set (x := (Qabs (s1 - s2) / s1)%Q).
  assert (Hx : (0 <= x)%Q).
  { apply Qle_shift_div_l; [exact Hpos|]. rewrite Qmult_0_l. apply Qabs_nonneg. }
  split; [lra|]. split.
  - intros Hs2. assert (Hx1 : (x <= 1)%Q).
    { apply Qle_shift_div_r; [exact Hpos|]. rewrite Qmult_1_l.
      apply Qabs_Qle_condition. lra. }
    lra.
  - intros Hs2. assert (Hx1 : (1 <= x)%Q).
    { apply Qle_shift_div_l; [exact Hpos|]. rewrite Qmult_1_l.
      destruct Hs2 as [Hs2|Hs2].
      - apply Qle_trans with (s1 - s2)%Q; [lra|apply Qle_Qabs].
      - rewrite Qabs_Qminus. apply Qle_trans with (s2 - s1)%Q; [lra|apply Qle_Qabs]. }
    lra.
Qed.

Lemma similarity_formula_negative (s1 s2 : Q) :
  (s1 < 0)%Q -> (100 <= similarity_formula s1 s2)%Q.
Proof.
  intros Hneg. unfold similarity_formula.
  destruct (Qeq_bool s1 0) eqn:E; [apply Qeq_bool_eq in E; lra|clear E].
  assert (Hd : (Qabs (s1 - s2) == Qabs (s1 - s2) / s1 * s1)%Q) by (field; lra).
  set (x := (Qabs (s1 - s2) / s1)%Q) in *.
  assert (Hx : (x <= 0)%Q).
  { destruct (Qlt_le_dec 0 x) as [H|H]; [|exact H]. exfalso.
    pose proof (Qabs_nonneg (s1 - s2)) as Ha. rewrite Hd in Ha.
    assert (Hm : (x * s1 < 0)%Q).
    { assert (He : (x * s1 == - (x * (- s1)))%Q) by ring.
      assert (0 < x * (- s1))%Q by (apply Qmult_lt_0_compat; lra). lra. }
    lra. }
  lra.
Qed.

Lemma similarity_formula_equal (s1 s2 : Q) :
  ~ (s1 == 0)%Q -> (s1 == s2)%Q -> (similarity_formula s1 s2 == 100)%Q.
Proof.
  intros Hne Heq. unfold similarity_formula.
  destruct (Qeq_bool s1 0) eqn:E; [apply Qeq_bool_eq in E; contradiction|clear E].
  assert (H0 : (s1 - s2 == 0)%Q) by lra.
  assert (Hx0 : (Qabs (s1 - s2) / s1 == 0)%Q).
  { rewrite H0. unfold Qdiv. change (Qabs 0) with 0%Q. ring. }
  rewrite Hx0. ring.
Qed.

(** X18. The similarity is always computed.  For a positive [source1] it
    is at most 100, it is not negative when [source2] lies between 0 and
    twice [source1], and not positive when [source2] lies outside; for a
    negative [source1] it is never below 100; and it is 100 when the two
    sources agree and are not zero.  (Only one-sided bounds are stated: each
    operation of the formula is monotone, so they do not depend on how its
    result is rounded.) *)
Theorem similarity_range :
  forall row, exists v,
    similarity row = Some v /\
    ((0 < source1 row)%Q ->
       (v <= 100)%Q /\
       ((0 <= source2 row <= 2 * source1 row)%Q -> (0 <= v)%Q) /\
       ((source2 row <= 0 \/ 2 * source1 row <= source2 row)%Q -> (v <= 0)%Q)) /\
    ((source1 row < 0)%Q -> (100 <= v)%Q) /\
    (~ (source1 row == 0)%Q -> (source1 row == source2 row)%Q -> (v == 100)%Q).
Proof.
  intros row. eexists. split; [apply similarity_total|].
  split; [apply similarity_formula_positive|].
  split; [apply similarity_formula_negative|apply similarity_formula_equal].
Qed.

(** ** The order of the report *)

(** [pivot_table.sort_values(by=['Difference', 'Similarity %'],
    ascending=[False, True])]: the greater difference first, and among equal
    differences the smaller similarity first. *)
Definition sort_leb (a b : ResultRow) : bool :=
  match (Difference b ?= Difference a)%Q with
  | Lt => true
  | Eq => Qle_bool (Similarity a) (Similarity b)
  | Gt => false
  end.

Definition sort_by_difference (pivot_table : list ResultRow) : list ResultRow :=
  stable_sort sort_leb pivot_table.

(** Lines 151-165: the calculations, then the sort. *)
Definition calculate_and_sort (pivot_table : list PivotRow) : option (list ResultRow) :=
  sort_by_difference <$> calculations pivot_table.

Lemma sort_leb_spec a b :
  sort_leb a b = true <->
  (Difference b < Difference a)%Q \/
  (Difference a == Difference b /\ Similarity a <= Similarity b)%Q.
Proof.
  unfold sort_leb. destruct (Difference b ?= Difference a)%Q eqn:E.
  - apply Qeq_alt in E. rewrite Qle_bool_iff. split; [intros H; right; split; [lra|exact H]|].
    intros [H|[_ H]]; [lra|exact H].
  - apply Qlt_alt in E. split; auto.
  - apply Qgt_alt in E. split; [discriminate|]. intros [H|[H _]]; lra.
Qed.

Lemma sort_leb_total a b : sort_leb a b = true \/ sort_leb b a = true.
Proof.
  rewrite !sort_leb_spec.
  destruct (Q_dec (Difference a) (Difference b)) as [[H|H]|H]; auto.
  destruct (Qlt_le_dec (Similarity b) (Similarity a)) as [H'|H'].
  - right. right. split; lra.
  - left. right. split; lra.
Qed.

Lemma sort_leb_trans a b c :
  sort_leb a b = true -> sort_leb b c = true -> sort_leb a c = true.
Proof.
  rewrite !sort_leb_spec. intros [H1|[H1 H1']] [H2|[H2 H2']].
  - left. lra.
  - left. lra.
  - left. lra.
  - right. split; lra.
Qed.

Lemma StronglySorted_lookup {A} (R : A -> A -> Prop) (l : list A) i j a b :
  StronglySorted R l -> i < j -> l !! i = Some a -> l !! j = Some b -> R a b.
Proof.
  intros Hs. revert i j. induction Hs as [|x l Hs IH Hall]; intros i j Hij Hi Hj.
  - discriminate.
  - destruct j as [|j]; [lia|]. simpl in Hj. destruct i as [|i].
    + injection Hi as <-. rewrite Forall_forall in Hall. apply Hall.
      eapply list_elem_of_lookup_2, Hj.
    + simpl in Hi. apply (IH i j); [lia|exact Hi|exact Hj].
Qed.

(** X19. The report holds every row of the pivot table exactly once, in
    the order of decreasing [Difference]; rows with the same difference come
    in the order of increasing [Similarity %].  In particular the first row
    has the greatest difference. *)
Theorem report_is_sorted_by_difference :
  forall pivot_table, exists out,
    calculate_and_sort pivot_table = Some out /\
    Permutation (pivot <$> out) pivot_table /\
    (forall i j a b, i < j -> out !! i = Some a -> out !! j = Some b ->
       (Difference b <= Difference a)%Q /\
       ((Difference a == Difference b)%Q -> (Similarity a <= Similarity b)%Q)) /\
    (forall a b, head out = Some a -> b ∈ out -> (Difference b <= Difference a)%Q).
Proof.
  intros pivot_table. unfold calculate_and_sort. rewrite calculations_total. simpl.
  eexists. split; [reflexivity|].
  set (rs := map _ pivot_table).
  assert (Hsorted : forall i j a b, i < j ->
            sort_by_difference rs !! i = Some a -> sort_by_difference rs !! j = Some b ->
            (Difference b <= Difference a)%Q /\
            ((Difference a == Difference b)%Q -> (Similarity a <= Similarity b)%Q)).
  { intros i j a b Hij Hi Hj.
    pose proof (StronglySorted_lookup _ _ i j a b
                  (stable_sort_sorted sort_leb sort_leb_total sort_leb_trans rs) Hij Hi Hj) as H.
    apply sort_leb_spec in H. destruct H as [H|[H H']]; split; lra. }
  split; [|split; [exact Hsorted|]].
  - unfold sort_by_difference. rewrite <- (stable_sort_perm sort_leb rs). unfold rs.
    rewrite <- list_fmap_compose. simpl.
    clear. induction pivot_table as [|r l IH]; simpl; [constructor|]. now constructor.
  - intros a b Ha Hb. apply list_elem_of_lookup in Hb as [j Hj].
    destruct j as [|j].
    + rewrite <- head_lookup, Ha in Hj. injection Hj as <-. lra.
    + rewrite head_lookup in Ha. apply (Hsorted 0 (S j) a b); [lia|exact Ha|exact Hj].
Qed.

End ServiceOne.

(** * Service two: comparison of two files *)

Module ServiceTwo.

(** [df[cols].copy()] *)
Definition select (cols : list string) (df : DataFrame) : DataFrame :=
  mkDataFrame cols
    (map (fun row => map (fun c => default CNaN (row_at df row c)) cols) (rows df)).

(** [list.remove(x)]: the first occurrence goes. *)
Fixpoint remove_first (x : string) (l : list string) : list string :=
  match l with
  | [] => []
  | y :: l' => if bool_decide (x = y) then l' else y :: remove_first x l'
  end.

(** [Series.dropna()] *)
Definition dropna (s : list Cell) : list Cell :=
  filter (fun c => c <> CNaN) s.

(** [pd.isna(val)] *)
Definition isna (c : Cell) : bool :=
  match c with CNaN => true | _ => false end.

(** [df[df[key].isin(keys)]] *)
Definition filter_isin (df : DataFrame) (key : string) (keys : gset Cell) : DataFrame :=
  mkDataFrame (columns df)
    (filter (fun row => default CNaN (row_at df row key) ∈ keys) (rows df)).

(** The tuple a row is sorted by. *)
Definition sort_key (df : DataFrame) (by_columns : list string) (row : list Cell) : list Cell :=
  map (fun c => default CNaN (row_at df row c)) by_columns.

Definition row_leb (df : DataFrame) (by_columns : list string) (r1 r2 : list Cell) : bool :=
  lex_leb cell_compare (sort_key df by_columns r1) (sort_key df by_columns r2).

(** [df.sort_values(by=by_columns).reset_index(drop=True)], the frame that
    the sort gives when it does not raise (see [sort_raises]): ascending,
    missing values last, rows that tie on every column of [by_columns] in
    their input order.  pandas promises this order of the ties when
    [by_columns] has several columns; sorted by one column its default sort
    kind leaves the order of the ties open, and nothing below relies on it
    in that case. *)
Definition sort_values (by_columns : list string) (df : DataFrame) : DataFrame :=
  mkDataFrame (columns df) (stable_sort (row_leb df by_columns) (rows df)).

(** When the sort raises.  A frame sorted by one column is sorted with the
    comparisons of Python, and between a number and a text these raise
    [TypeError]; missing values are set apart before and take no part.
    Sorted by several columns, each column is ranked on its own, numbers
    before texts, and nothing is raised. *)
Definition is_number (c : Cell) : bool :=
  match c with CNum _ => true | _ => false end.

Definition is_text (c : Cell) : bool :=
  match c with CStr _ => true | _ => false end.

Definition mixed (s : list Cell) : bool :=
  existsb is_number s && existsb is_text s.

Definition sort_raises (by_columns : list string) (df : DataFrame) : bool :=
  match by_columns with
  | [col] => mixed (column df col)
  | _ => false
  end.

(** Lines 57-75, "1. Align Columns".  Python does not fix the order in
    which [list(set(..))] lists the shared columns; here they come in the
    order of the first file. *)
Definition align_columns (df1 df2 : DataFrame) (unique_key : string)
    (compare_columns : list string) : option (DataFrame * DataFrame * list string) :=
  let common_columns := filter (fun c => c ∈ columns df2) (remove_dups (columns df1)) in
  if bool_decide (unique_key ∈ common_columns) then
    let compare_columns := filter (fun c => c ∈ common_columns) compare_columns in
    let stable_columns := filter (fun c => c ∉ compare_columns) common_columns in
    let stable_columns := unique_key :: remove_first unique_key stable_columns in
    let reordered_columns := stable_columns ++ compare_columns in
    Some (select reordered_columns df1, select reordered_columns df2, compare_columns)
  else None.

(** [sortable_columns]: the columns of [df1] that are not compared, the key
    moved to the front. *)
Definition sortable_columns (df1 : DataFrame) (unique_key : string)
    (compare_columns : list string) : list string :=
  let sortable := filter (fun c => c ∉ compare_columns) (columns df1) in
  unique_key :: remove_first unique_key sortable.

(** Lines 77-94, "2. Align Rows" and "3. Sort": the two aligned frames of
    a run in which the sort does not raise. *)
Definition common_keys (df1 df2 : DataFrame) (unique_key : string) : gset Cell :=
  let df1_keys : gset Cell := list_to_set (dropna (column df1 unique_key)) in
  let df2_keys : gset Cell := list_to_set (dropna (column df2 unique_key)) in
  df1_keys ∩ df2_keys.

Definition align_rows (df1 df2 : DataFrame) (unique_key : string)
    (compare_columns : list string) : DataFrame * DataFrame :=
  let common_keys := common_keys df1 df2 unique_key in
  let df1_aligned := filter_isin df1 unique_key common_keys in
  let df2_aligned := filter_isin df2 unique_key common_keys in
  let by_columns := sortable_columns df1 unique_key compare_columns in
  (sort_values by_columns df1_aligned, sort_values by_columns df2_aligned).

(** [f"{val1} → {val2}"] *)
Definition transition (val1 val2 : Cell) : string :=
  cell_str val1 +:+ " → " +:+ cell_str val2.

(** [result_df.at[idx, col] = value] *)
Definition set_at (df : DataFrame) (idx : nat) (col : string) (value : Cell) : DataFrame :=
  match column_index df col with
  | Some c => mkDataFrame (columns df) (alter (fun row => <[c := value]> row) idx (rows df))
  | None => df
  end.

(** The body of [for col in compare_columns] at row [idx]; the state is
    [result_df] and [mismatches]. *)
Definition compare_cell (df1_aligned df2_aligned : DataFrame) (idx : nat)
    (st : DataFrame * list (nat * string)) (col : string)
    : option (DataFrame * list (nat * string)) :=
  let '(result_df, mismatches) := st in
  val1 ← iloc df1_aligned idx col;
  val2 ← iloc df2_aligned idx col;
  if isna val1 && isna val2 then Some (result_df, mismatches)
  else if bool_decide (val1 <> val2) then
    Some (set_at result_df idx col (CStr (transition val1 val2)),
          mismatches ++ [(idx, col)])
  else Some (result_df, mismatches).

(** Lines 101-117, "VALUE COMPARISON". *)
Definition value_comparison (df1_aligned df2_aligned : DataFrame)
    (compare_columns : list string) : option (DataFrame * list (nat * string)) :=
  foldlM (fun st idx => foldlM (compare_cell df1_aligned df2_aligned idx) st compare_columns)
         (df1_aligned, [])
         (seq 0 (length (rows df1_aligned))).

(** [compare()] up to the report: the result table and the changed cells,
    or [None] when the key is not shared or an exception ends the run. *)
Definition compare (df1 df2 : DataFrame) (unique_key : string)
    (compare_columns : list string) : option (DataFrame * list (nat * string)) :=
  let compare_columns :=
    if bool_decide (unique_key ∈ compare_columns)
    then remove_first unique_key compare_columns else compare_columns in
  '(df1, df2, compare_columns) ← align_columns df1 df2 unique_key compare_columns;
  (let by_columns := sortable_columns df1 unique_key compare_columns in
   let keys := common_keys df1 df2 unique_key in
   if sort_raises by_columns (filter_isin df1 unique_key keys)
      || sort_raises by_columns (filter_isin df2 unique_key keys)
   then None
   else
     let '(df1_aligned, df2_aligned) := align_rows df1 df2 unique_key compare_columns in
     value_comparison df1_aligned df2_aligned compare_columns).


(** ** Row alignment *)

Lemma elem_of_common_keys df1 df2 unique_key k :
  k ∈ common_keys df1 df2 unique_key <->
  k <> CNaN /\ k ∈ column df1 unique_key /\ k ∈ column df2 unique_key.
Proof.
  unfold common_keys, dropna.
  rewrite elem_of_intersection, !elem_of_list_to_set, !list_elem_of_filter. tauto.
Qed.

Lemma rows_sort_values by_columns df :
  rows (sort_values by_columns df) ≡ₚ rows df.
Proof. symmetry. apply stable_sort_perm. Qed.

Lemma column_sort_values by_columns df col :
  column (sort_values by_columns df) col ≡ₚ column df col.
Proof. unfold column. simpl. apply fmap_Permutation. symmetry. apply stable_sort_perm. Qed.

Lemma column_filter_isin df col keys :
  column (filter_isin df col keys) col = filter (fun k => k ∈ keys) (column df col).
Proof.
  unfold column, filter_isin, row_at, column_index. simpl.
  induction (rows df) as [|row l IH]; [reflexivity|].
  rewrite filter_cons. simpl. rewrite filter_cons.
  destruct (decide _); simpl; now rewrite IH.
Qed.

Lemma rows_align_rows_1 df1 df2 unique_key compare_columns row :
  row ∈ rows (align_rows df1 df2 unique_key compare_columns).1 <->
  default CNaN (row_at df1 row unique_key) ∈ common_keys df1 df2 unique_key
  /\ row ∈ rows df1.
Proof.
  unfold align_rows, sort_values, filter_isin. simpl.
  now rewrite stable_sort_elem, list_elem_of_filter.
Qed.

Lemma rows_align_rows_2 df1 df2 unique_key compare_columns row :
  row ∈ rows (align_rows df1 df2 unique_key compare_columns).2 <->
  default CNaN (row_at df2 row unique_key) ∈ common_keys df1 df2 unique_key
  /\ row ∈ rows df2.
Proof.
  unfold align_rows, sort_values, filter_isin. simpl.
  now rewrite stable_sort_elem, list_elem_of_filter.
Qed.

(** C4, as the code has it.  The key values are compared as they are
    read, without string-cast, strip or lower-casing: a row of either table
    is kept exactly when its key is not missing and the very same value
    occurs in the key column of the other table.  Rows with a missing key
    never take part. *)
Theorem aligned_rows_have_shared_raw_key :
  forall df1 df2 unique_key compare_columns row,
    let aligned := align_rows df1 df2 unique_key compare_columns in
    (row ∈ rows aligned.1 <->
       row ∈ rows df1 /\
       default CNaN (row_at df1 row unique_key) <> CNaN /\
       default CNaN (row_at df1 row unique_key) ∈ column df2 unique_key) /\
    (row ∈ rows aligned.2 <->
       row ∈ rows df2 /\
       default CNaN (row_at df2 row unique_key) <> CNaN /\
       default CNaN (row_at df2 row unique_key) ∈ column df1 unique_key) /\
    (CNaN ∉ column aligned.1 unique_key) /\
    (CNaN ∉ column aligned.2 unique_key).
Proof.
  intros df1 df2 unique_key compare_columns row aligned. subst aligned.
  rewrite rows_align_rows_1, rows_align_rows_2, !elem_of_common_keys.
  unfold align_rows. simpl fst. simpl snd.
  rewrite !column_sort_values, !column_filter_isin, !list_elem_of_filter,
    !elem_of_common_keys.
  assert (Hcol : forall df r, r ∈ rows df ->
            default CNaN (row_at df r unique_key) ∈ column df unique_key).
  { intros df r Hr. unfold column.
    apply (list_elem_of_fmap_2 (fun row => default CNaN (row_at df row unique_key))), Hr. }
  split; [|split; [|split]].
  - split; [tauto|]. intros (Hr & Hna & Hk). auto.
  - split; [tauto|]. intros (Hr & Hna & Hk). auto.
  - intros [[H _] _]. now apply H.
  - intros [[H _] _]. now apply H.
Qed.


(** ** The sort *)

Lemma row_leb_total df by_columns r1 r2 :
  row_leb df by_columns r1 r2 = true \/ row_leb df by_columns r2 r1 = true.
Proof. apply lex_leb_total; apply _. Qed.

Lemma row_leb_trans df by_columns r1 r2 r3 :
  row_leb df by_columns r1 r2 = true -> row_leb df by_columns r2 r3 = true ->
  row_leb df by_columns r1 r3 = true.
Proof. apply lex_leb_trans; apply _. Qed.

Lemma sort_values_sorted by_columns df :
  StronglySorted (fun r1 r2 => row_leb df by_columns r1 r2 = true)
                 (rows (sort_values by_columns df)).
Proof.
  apply stable_sort_sorted; [apply row_leb_total|apply row_leb_trans].
Qed.

Lemma sort_values_stable by_columns df v :
  filter (fun r => sort_key df by_columns r = v) (rows (sort_values by_columns df))
  = filter (fun r => sort_key df by_columns r = v) (rows df).
Proof.
  apply stable_sort_filter. intros r1 r2 H1 H2.
  unfold row_leb. rewrite H1, H2. apply lex_leb_refl; apply _.
Qed.

(** The first sort column is the key, so the key column of a sorted frame
    is in order. *)
Lemma key_column_sorted unique_key others df :
  StronglySorted (fun x y => cmp_leb cell_compare x y = true)
                 (column (sort_values (unique_key :: others) df) unique_key).
Proof.
  unfold column.
  apply (StronglySorted_fmap _ (fun r1 r2 => row_leb df (unique_key :: others) r1 r2 = true));
    [|apply sort_values_sorted].
  intros r1 r2 H. unfold row_leb in H. simpl in H.
  eapply lex_leb_head, H.
Qed.

Lemma count_occ_filter (P : Cell -> Prop) `{!forall x, Decision (P x)} l x :
  count_occ Cell_eq_dec (filter P l) x
  = if decide (P x) then count_occ Cell_eq_dec l x else 0.
Proof.
  induction l as [|y l IH]; [now destruct (decide (P x))|].
  rewrite filter_cons. destruct (decide (P y)) as [Hy|Hy].
  - destruct (decide (y = x)) as [->|Hne].
    + rewrite !count_occ_cons_eq, IH by reflexivity. now destruct (decide (P x)).
    + rewrite !count_occ_cons_neq, IH by exact Hne. reflexivity.
  - rewrite IH. destruct (decide (y = x)) as [->|Hne].
    + destruct (decide (P x)); [contradiction|reflexivity].
    + now rewrite count_occ_cons_neq.
Qed.

Lemma key_columns_equal_iff df1 df2 unique_key compare_columns :
  column (align_rows df1 df2 unique_key compare_columns).1 unique_key
  = column (align_rows df1 df2 unique_key compare_columns).2 unique_key
  <->
  (forall k, k <> CNaN ->
     k ∈ column df1 unique_key -> k ∈ column df2 unique_key ->
     count_occ Cell_eq_dec (column df1 unique_key) k
     = count_occ Cell_eq_dec (column df2 unique_key) k).
Proof.
  assert (Hperm :
    column (align_rows df1 df2 unique_key compare_columns).1 unique_key
      ≡ₚ column (align_rows df1 df2 unique_key compare_columns).2 unique_key
    <->
    (forall k, k <> CNaN ->
       k ∈ column df1 unique_key -> k ∈ column df2 unique_key ->
       count_occ Cell_eq_dec (column df1 unique_key) k
       = count_occ Cell_eq_dec (column df2 unique_key) k)).
  { unfold align_rows. simpl fst. simpl snd.
    rewrite !column_sort_values, !column_filter_isin.
    rewrite (Permutation_count_occ Cell_eq_dec). split.
    - intros Hcount k Hna Hk1 Hk2. specialize (Hcount k).
      rewrite !count_occ_filter in Hcount.
      destruct (decide (k ∈ common_keys df1 df2 unique_key)) as [|Hk]; [exact Hcount|].
      exfalso. apply Hk, elem_of_common_keys. auto.
    - intros Hcount k. rewrite !count_occ_filter.
      destruct (decide (k ∈ common_keys df1 df2 unique_key)) as [Hk|Hk]; [|reflexivity].
      apply elem_of_common_keys in Hk as (Hna & Hk1 & Hk2). now apply Hcount. }
  rewrite <- Hperm. split; [now intros ->|]. intros Hp.
  unfold align_rows, sortable_columns in *. simpl fst in *. simpl snd in *.
  apply (StronglySorted_unique_strong (fun x y => cmp_leb cell_compare x y = true)).
  - intros x y _ _. apply cmp_leb_antisym; apply _.
  - apply key_column_sorted.
  - apply key_column_sorted.
  - exact Hp.
Qed.

Lemma lookup_differs (l1 l2 : list Cell) :
  l1 <> l2 -> exists idx, l1 !! idx <> l2 !! idx.
Proof.
  revert l2. induction l1 as [|x l1 IH]; intros [|y l2] Hne.
  - contradiction.
  - exists 0. discriminate.
  - exists 0. discriminate.
  - destruct (decide (x = y)) as [->|Hxy].
    + destruct (IH l2) as [idx Hidx]; [congruence|]. now exists (S idx).
    + exists 0. simpl. congruence.
Qed.


(** C8, as the code has it.  Each aligned output is the filtered table
    sorted by the tuple (key, the other columns that are not compared).
    When the tuple has a column besides the key the sort is stable for the
    tuple: rows that agree on every sort column keep their order of the
    filtered table, and rows with the same key that differ in another sort
    column are ordered by that column.  (Sorted by the key alone, pandas does
    not promise the order of rows with equal keys.) *)
Theorem sort_is_stable_on_sort_tuple :
  forall df1 df2 unique_key compare_columns,
    let by_columns := sortable_columns df1 unique_key compare_columns in
    let filtered1 := filter_isin df1 unique_key (common_keys df1 df2 unique_key) in
    let filtered2 := filter_isin df2 unique_key (common_keys df1 df2 unique_key) in
    let aligned := align_rows df1 df2 unique_key compare_columns in
    aligned = (sort_values by_columns filtered1, sort_values by_columns filtered2) /\
    StronglySorted
      (fun r1 r2 => lex_leb cell_compare (sort_key filtered1 by_columns r1)
                                         (sort_key filtered1 by_columns r2) = true)
      (rows aligned.1) /\
    StronglySorted
      (fun r1 r2 => lex_leb cell_compare (sort_key filtered2 by_columns r1)
                                         (sort_key filtered2 by_columns r2) = true)
      (rows aligned.2) /\
    (forall v, 2 <= length by_columns ->
       filter (fun r => sort_key filtered1 by_columns r = v) (rows aligned.1)
       = filter (fun r => sort_key filtered1 by_columns r = v) (rows filtered1)) /\
    (forall v, 2 <= length by_columns ->
       filter (fun r => sort_key filtered2 by_columns r = v) (rows aligned.2)
       = filter (fun r => sort_key filtered2 by_columns r = v) (rows filtered2)).
Proof.
  intros df1 df2 unique_key compare_columns by_columns filtered1 filtered2 aligned.
  split; [reflexivity|]. subst aligned. unfold align_rows. simpl fst. simpl snd.
  split; [apply sort_values_sorted|]. split; [apply sort_values_sorted|].
  split; intros v _; apply sort_values_stable.
Qed.


(** ** The value comparison *)

Lemma foldlM_invariant {A B} (I : A -> Prop) (f : A -> B -> option A) l :
  (forall a x a', I a -> f a x = Some a' -> I a') ->
  forall a a', I a -> foldlM f a l = Some a' -> I a'.
Proof.
  intros Hstep. induction l as [|x l IH]; intros a a' Ha; simpl.
  - now intros [= <-].
  - destruct (f a x) as [a1|] eqn:E; simpl; [|discriminate]. apply IH. eauto.
Qed.

Lemma foldlM_unchanged {A B} (f : A -> B -> option A) l a :
  (forall x, x ∈ l -> f a x = Some a) -> foldlM f a l = Some a.
Proof.
  induction l as [|x l IH]; intros H; simpl; [reflexivity|].
  rewrite (H x) by left. simpl. apply IH. intros y Hy. apply H. now right.
Qed.

Lemma columns_set_at df idx col v : columns (set_at df idx col v) = columns df.
Proof. unfold set_at. now destruct (column_index df col). Qed.

(** Writing one cell leaves every other cell as it was. *)
Lemma iloc_set_at_other df idx col v i c :
  (i, c) <> (idx, col) -> iloc (set_at df idx col v) i c = iloc df i c.
Proof.
  intros Hne. unfold set_at.
  destruct (column_index df col) as [k|] eqn:Hk; [|reflexivity].
  unfold iloc, row_at, column_index. simpl.
  destruct (decide (i = idx)) as [->|Hi]; [|now rewrite list_lookup_alter_ne].
  rewrite list_lookup_alter_eq. destruct (rows df !! idx) as [row|]; [|reflexivity].
  simpl. fold (column_index df c).
  destruct (column_index df c) as [k'|] eqn:Hk'; [|reflexivity]. simpl.
  apply list_lookup_insert_ne. intros ->.
  apply column_index_Some in Hk, Hk'. congruence.
Qed.

(** What the loops keep true of [result_df] and [mismatches]. *)
Definition diff_invariant (df1 df2 : DataFrame) (st : DataFrame * list (nat * string)) : Prop :=
  (forall i c, (i, c) ∈ st.2 ->
     ~ (iloc df1 i c = Some CNaN /\ iloc df2 i c = Some CNaN)) /\
  (forall i c, iloc df1 i c = Some CNaN -> iloc df2 i c = Some CNaN ->
     iloc st.1 i c = Some CNaN).

Lemma compare_cell_invariant df1 df2 idx st col st' :
  diff_invariant df1 df2 st ->
  compare_cell df1 df2 idx st col = Some st' ->
  diff_invariant df1 df2 st'.
Proof.
  destruct st as [result mism]. intros [Hmism Hres]. unfold compare_cell.
  destruct (iloc df1 idx col) as [val1|] eqn:E1; simpl; [|discriminate].
  destruct (iloc df2 idx col) as [val2|] eqn:E2; simpl; [|discriminate].
  destruct (isna val1 && isna val2) eqn:Hna; [intros [= <-]; now split|].
  destruct (bool_decide (val1 <> val2)); [|intros [= <-]; now split].
  intros [= <-].
  assert (Hnot : ~ (iloc df1 idx col = Some CNaN /\ iloc df2 idx col = Some CNaN)).
  { rewrite E1, E2. intros [[= ->] [= ->]]. discriminate. }
  split; simpl.
  - intros i c Hin. apply elem_of_app in Hin as [Hin|Hin]; [now apply Hmism|].
    apply list_elem_of_singleton in Hin. injection Hin as -> ->. exact Hnot.
  - intros i c H1 H2. rewrite iloc_set_at_other; [now apply Hres|].
    intros [= -> ->]. now apply Hnot.
Qed.

Lemma value_comparison_invariant df1 df2 compare_columns out :
  value_comparison df1 df2 compare_columns = Some out ->
  diff_invariant df1 df2 out.
Proof.
  unfold value_comparison.
  apply (foldlM_invariant (diff_invariant df1 df2)).
  - intros st idx st' Hst. apply (foldlM_invariant (diff_invariant df1 df2)); [|exact Hst].
    intros a col a'. apply compare_cell_invariant.
  - split; simpl; [intros i c Hin; now apply elem_of_nil in Hin|auto].
Qed.

(** A frame is well formed when each of its rows has one cell per column. *)
Definition well_formed (df : DataFrame) : Prop :=
  Forall (fun row => length row = length (columns df)) (rows df).

Lemma iloc_well_formed df idx col :
  well_formed df -> col ∈ columns df -> idx < length (rows df) ->
  is_Some (iloc df idx col).
Proof.
  intros Hwf Hcol Hidx. unfold iloc, row_at.
  destruct (lookup_lt_is_Some_2 _ _ Hidx) as [row Hrow]. rewrite Hrow. simpl.
  destruct (column_index_elem df col Hcol) as (k & -> & Hk). simpl.
  apply lookup_lt_is_Some_2.
  rewrite (Forall_lookup_1 _ _ _ _ Hwf Hrow). exact Hk.
Qed.

Lemma compare_cell_same df idx st col :
  is_Some (iloc df idx col) -> compare_cell df df idx st col = Some st.
Proof.
  intros [v Hv]. destruct st as [result mism]. unfold compare_cell. rewrite Hv. simpl.
  destruct (isna v && isna v); [reflexivity|].
  rewrite bool_decide_eq_false_2; [reflexivity|]. intros H. now apply H.
Qed.

Lemma value_comparison_same df compare_columns :
  well_formed df -> (forall col, col ∈ compare_columns -> col ∈ columns df) ->
  value_comparison df df compare_columns = Some (df, []).
Proof.
  intros Hwf Hcols. unfold value_comparison.
  apply foldlM_unchanged. intros idx Hidx. apply elem_of_seq in Hidx.
  apply foldlM_unchanged. intros col Hcol.
  apply compare_cell_same, iloc_well_formed; [exact Hwf|now apply Hcols|lia].
Qed.


Lemma well_formed_select cols df : well_formed (select cols df).
Proof.
  unfold well_formed, select. simpl. apply Forall_fmap, Forall_true.
  intros row. simpl. apply length_map.
Qed.

Lemma well_formed_filter_isin df key keys :
  well_formed df -> well_formed (filter_isin df key keys).
Proof.
  unfold well_formed, filter_isin. simpl. intros H.
  apply Forall_forall. intros row Hrow. apply list_elem_of_filter in Hrow as [_ Hrow].
  revert row Hrow. now apply Forall_forall.
Qed.

Lemma well_formed_sort_values by_columns df :
  well_formed df -> well_formed (sort_values by_columns df).
Proof.
  unfold well_formed. simpl. intros H.
  eapply Permutation_Forall; [apply stable_sort_perm|exact H].
Qed.

(** Comparing a file with itself: the value comparison is reached with one
    well-formed frame on both sides. *)
Lemma compare_same_outcome df unique_key compare_columns :
  compare df df unique_key compare_columns = None \/
  exists result, compare df df unique_key compare_columns = Some (result, []).
Proof.
  unfold compare.
  set (cols := if bool_decide (unique_key ∈ compare_columns)
               then remove_first unique_key compare_columns else compare_columns).
  unfold align_columns.
  set (common := filter (fun c => c ∈ columns df) (remove_dups (columns df))).
  case_bool_decide; [|now left]. cbn [mbind option_bind]. cbv zeta.
  match goal with |- context [sort_raises ?b ?d || sort_raises ?b ?d] =>
    destruct (sort_raises b d || sort_raises b d) end; [now left|]. right.
  set (cc := filter (fun c => c ∈ common) cols).
  unfold align_rows.
  eexists. apply value_comparison_same.
  - apply well_formed_sort_values, well_formed_filter_isin, well_formed_select.
  - intros col Hcol. simpl. right. apply elem_of_app. now right.
Qed.

Lemma mixed_filter (P : Cell -> Prop) `{!forall x, Decision (P x)} s :
  mixed s = false -> mixed (filter P s) = false.
Proof.
  assert (Hsub : forall f, existsb f s = false -> existsb f (filter P s) = false).
  { intros f. induction s as [|c s IH]; [reflexivity|]. simpl.
    intros Hf. apply orb_false_iff in Hf as [Hc Hs]. rewrite filter_cons.
    destruct (decide (P c)); simpl; [rewrite Hc|]; now apply IH. }
  unfold mixed. intros Hm. apply andb_false_iff in Hm as [Hm|Hm];
    apply Hsub in Hm; rewrite Hm; [reflexivity|apply andb_false_r].
Qed.

Lemma column_select cols df col :
  col ∈ cols -> column (select cols df) col = column df col.
Proof.
  intros Hcol. unfold column. simpl. rewrite <- list_fmap_compose.
  apply list_fmap_ext. intros i row _. simpl. unfold row_at at 1.
  destruct (column_index_elem (select cols df) col Hcol) as (k & Hk & _).
  rewrite Hk. simpl. apply column_index_Some in Hk. simpl in Hk.
  now rewrite list_lookup_fmap, Hk.
Qed.

(** A file whose key column does not hold both numbers and texts compared
    with itself reaches the report, with no changed cell. *)
Lemma compare_same df unique_key compare_columns :
  unique_key ∈ columns df ->
  mixed (column df unique_key) = false ->
  exists result, compare df df unique_key compare_columns = Some (result, []).
Proof.
  intros Hkey Hmixed.
  destruct (compare_same_outcome df unique_key compare_columns) as [Hnone|Hsome];
    [exfalso|exact Hsome].
  revert Hnone. unfold compare.
  set (cols := if bool_decide (unique_key ∈ compare_columns)
               then remove_first unique_key compare_columns else compare_columns).
  unfold align_columns.
  set (common := filter (fun c => c ∈ columns df) (remove_dups (columns df))).
  assert (Hcommon : unique_key ∈ common).
  { apply list_elem_of_filter. split; [exact Hkey|]. now apply elem_of_remove_dups. }
  rewrite (bool_decide_eq_true_2 _ Hcommon). cbn [mbind option_bind]. cbv zeta.
  set (cc := filter (fun c => c ∈ common) cols).
  set (reordered := (unique_key :: _) ++ cc).
  assert (Hraise : forall by_columns,
            sort_raises by_columns
              (filter_isin (select reordered df) unique_key
                 (common_keys (select reordered df) (select reordered df) unique_key))
            = false \/ exists col, by_columns = [col] /\ col <> unique_key).
  { intros [|col [|col' by_columns]]; [now left| |now left]. simpl.
    destruct (decide (col = unique_key)) as [->|Hne]; [left|right; eauto].
    rewrite column_filter_isin. apply mixed_filter.
    rewrite column_select by left. exact Hmixed. }
  unfold sortable_columns.
  set (by_columns := unique_key :: _).
  destruct (Hraise by_columns) as [->|(col & Hby & Hne)].
  - cbn [orb]. unfold align_rows. intros Hnone.
    rewrite value_comparison_same in Hnone; [discriminate| |].
    + apply well_formed_sort_values, well_formed_filter_isin, well_formed_select.
    + intros col Hcol. simpl. right. apply elem_of_app. now right.
  - subst by_columns. injection Hby as Hby _. congruence.
Qed.


(** A key column with a number and a text.  Sorted by the key alone the
    run ends in the [except] branch, also for the sheet compared with itself;
    with a second sort column it reaches the report. *)
Definition sheet_mixed : DataFrame :=
  mkDataFrame ["id"; "name"; "val"]
    [[CNum 7; CStr "x"; CNum 1]; [CStr "a"; CStr "y"; CNum 2]].

Lemma mixed_key_column_ends_the_run :
  (compare sheet_mixed sheet_mixed "id" ["name"; "val"] = None) /\
  (compare sheet_mixed sheet_mixed "id" ["val"] = Some (sheet_mixed, [])).
Proof. split; vm_compute; reflexivity. Qed.

(** Two small sheets: the keys differ in case and surrounding blanks only. *)
Definition sheet_lower : DataFrame :=
  mkDataFrame ["id"; "val"] [[CStr "ab"; CNum 1]].

Definition sheet_upper : DataFrame :=
  mkDataFrame ["id"; "val"] [[CStr " AB "; CNum 2]].

(** C4, counterexample.  The keys "ab" and " AB " agree once stripped and
    lower-cased (the normalisation of service one), yet no row is aligned. *)
Lemma keys_differing_in_case_are_not_matched :
  ServiceOne.normalize_id (CStr " AB ") = ServiceOne.normalize_id (CStr "ab") /\
  align_rows sheet_lower sheet_upper "id" ["val"]
    = (mkDataFrame ["id"; "val"] [], mkDataFrame ["id"; "val"] []) /\
  compare sheet_lower sheet_upper "id" ["val"]
    = Some (mkDataFrame ["id"; "val"] [], []).
Proof. repeat split; vm_compute; reflexivity. Qed.

(** The key "a" twice in the first sheet, once in the second. *)
Definition sheet_twice : DataFrame :=
  mkDataFrame ["id"; "val"] [[CStr "a"; CNum 1]; [CStr "a"; CNum 2]].

Definition sheet_once : DataFrame :=
  mkDataFrame ["id"; "val"] [[CStr "a"; CNum 1]].



(** The keys a, a, b in the first sheet and a, b, b in the second. *)
Definition sheet_aab : DataFrame :=
  mkDataFrame ["id"; "val"] [[CStr "a"; CNum 2]; [CStr "a"; CNum 2]; [CStr "b"; CNum 3]].

Definition sheet_abb : DataFrame :=
  mkDataFrame ["id"; "val"] [[CStr "a"; CNum 2]; [CStr "b"; CNum 3]; [CStr "b"; CNum 3]].

(** Different multiplicities with the same number of rows.  Both sheets
    give 2 to key a and 3 to key b in every row; the outputs have three rows
    each, the second rows carry the keys a and b, and the comparison ends
    normally, reporting as a change of key a the value that the second sheet
    has for key b.  (Rows with the same key are equal here, so their order
    does not matter.) *)
Lemma equal_row_counts_with_misaligned_keys :
  (column (align_rows sheet_aab sheet_abb "id" ["val"]).1 "id"
     = [CStr "a"; CStr "a"; CStr "b"]) /\
  (column (align_rows sheet_aab sheet_abb "id" ["val"]).2 "id"
     = [CStr "a"; CStr "b"; CStr "b"]) /\
  (compare sheet_aab sheet_abb "id" ["val"]
     = Some (mkDataFrame ["id"; "val"]
               [[CStr "a"; CNum 2]; [CStr "a"; CStr "2 → 3"]; [CStr "b"; CNum 3]],
             [(1, "val")])).
Proof. repeat split; vm_compute; reflexivity. Qed.

(** Two rows with the same key; the column [name] is not compared. *)
Definition sheet_duplicates : DataFrame :=
  mkDataFrame ["id"; "name"; "val"]
    [[CStr "a"; CStr "y"; CNum 1]; [CStr "a"; CStr "x"; CNum 2]].

(** C8, counterexample.  The filtered table has the row named "y" before
    the row named "x"; sorted by (id, name) they come in the other order. *)
Lemma duplicate_key_rows_change_order :
  rows (filter_isin sheet_duplicates "id"
          (common_keys sheet_duplicates sheet_duplicates "id"))
    = [[CStr "a"; CStr "y"; CNum 1]; [CStr "a"; CStr "x"; CNum 2]] /\
  sortable_columns sheet_duplicates "id" ["val"] = ["id"; "name"] /\
  rows (align_rows sheet_duplicates sheet_duplicates "id" ["val"]).1
    = [[CStr "a"; CStr "x"; CNum 2]; [CStr "a"; CStr "y"; CNum 1]].
Proof. repeat split; vm_compute; reflexivity. Qed.


(** ** More on the value comparison *)

(** The test of the loop body at one cell: both values can be read, they are
    not both missing, and they differ. *)
Definition changed (df1_aligned df2_aligned : DataFrame) (idx : nat) (col : string) : bool :=
  match iloc df1_aligned idx col, iloc df2_aligned idx col with
  | Some val1, Some val2 => negb (isna val1 && isna val2) && bool_decide (val1 <> val2)
  | _, _ => false
  end.

(** The changed cells of row [idx], in the order of [compare_columns]. *)
Definition changed_in_row (df1_aligned df2_aligned : DataFrame)
    (compare_columns : list string) (idx : nat) : list (nat * string) :=
  map (fun col => (idx, col)) (List.filter (changed df1_aligned df2_aligned idx) compare_columns).

Lemma compare_cell_mismatches df1 df2 idx result mism col result' mism' :
  compare_cell df1 df2 idx (result, mism) col = Some (result', mism') ->
  mism' = mism ++ (if changed df1 df2 idx col then [(idx, col)] else []).
Proof.
  unfold compare_cell, changed.
  destruct (iloc df1 idx col) as [val1|]; simpl; [|discriminate].
  destruct (iloc df2 idx col) as [val2|]; simpl; [|discriminate].
  destruct (isna val1 && isna val2); simpl.
  - intros [= _ <-]. now rewrite app_nil_r.
  - destruct (bool_decide (val1 <> val2)); intros [= _ <-]; [reflexivity|now rewrite app_nil_r].
Qed.

Lemma foldlM_cons {A B} (f : A -> B -> option A) a x l :
  foldlM f a (x :: l) = f a x ≫= fun a' => foldlM f a' l.
Proof. reflexivity. Qed.

Lemma foldlM_app {A B} (f : A -> B -> option A) l1 l2 a :
  foldlM f a (l1 ++ l2) = foldlM f a l1 ≫= fun a' => foldlM f a' l2.
Proof.
  revert a. induction l1 as [|x l1 IH]; intros a; [reflexivity|].
  rewrite <- app_comm_cons, !foldlM_cons.
  destruct (f a x) as [a1|]; simpl; [apply IH|reflexivity].
Qed.

Lemma compare_row_mismatches df1 df2 idx cols :
  forall result mism result' mism',
    foldlM (compare_cell df1 df2 idx) (result, mism) cols = Some (result', mism') ->
    mism' = mism ++ changed_in_row df1 df2 cols idx.
Proof.
  unfold changed_in_row.
  induction cols as [|col cols IH]; intros result mism result' mism'.
  - intros [= _ <-]. now rewrite app_nil_r.
  - rewrite foldlM_cons.
    destruct (compare_cell df1 df2 idx (result, mism) col) as [[r1 m1]|] eqn:E;
      [|discriminate].
    intros H. apply IH in H. apply compare_cell_mismatches in E. subst.
    rewrite <- app_assoc. f_equal. simpl. now destruct (changed df1 df2 idx col).
Qed.

Lemma compare_rows_mismatches df1 df2 cols idxs :
  forall result mism result' mism',
    foldlM (fun st idx => foldlM (compare_cell df1 df2 idx) st cols) (result, mism) idxs
      = Some (result', mism') ->
    mism' = mism ++ mjoin (map (changed_in_row df1 df2 cols) idxs).
Proof.
  induction idxs as [|idx idxs IH]; intros result mism result' mism'.
  - intros [= _ <-]. simpl. now rewrite app_nil_r.
  - rewrite foldlM_cons.
    destruct (foldlM (compare_cell df1 df2 idx) (result, mism) cols) as [[r1 m1]|] eqn:E;
      [|discriminate].
    intros H. apply IH in H. apply compare_row_mismatches in E. subst.
    simpl. now rewrite <- app_assoc.
Qed.

Lemma mismatches_are_the_changed_cells_list df1 df2 cols result mism :
  value_comparison df1 df2 cols = Some (result, mism) ->
  mism = mjoin (map (changed_in_row df1 df2 cols) (seq 0 (length (rows df1)))).
Proof. intros H. apply compare_rows_mismatches in H. exact H. Qed.

(** X1. When the value comparison ends normally, [mismatches] lists the
    changed cells and nothing else: row by row, within a row in the order of
    [compare_columns], each cell whose two values differ and are not both
    missing, once for each time its column is listed. *)
Theorem mismatches_are_the_changed_cells
    df1_aligned df2_aligned compare_columns result_df mismatches :
  value_comparison df1_aligned df2_aligned compare_columns = Some (result_df, mismatches) ->
  mismatches
  = mjoin (map (changed_in_row df1_aligned df2_aligned compare_columns)
               (seq 0 (length (rows df1_aligned)))) /\
  forall idx col,
    (idx, col) ∈ mismatches <->
    idx < length (rows df1_aligned) /\ col ∈ compare_columns /\
    exists val1 val2,
      iloc df1_aligned idx col = Some val1 /\ iloc df2_aligned idx col = Some val2 /\
      val1 <> val2 /\ ~ (val1 = CNaN /\ val2 = CNaN).
Proof.
  intros H. apply mismatches_are_the_changed_cells_list in H. split; [exact H|].
  intros idx col. rewrite H. clear H.
  rewrite list_elem_of_join. split.
  - intros (l & Hin & Hl). apply list_elem_of_fmap in Hl as (i & -> & Hi).
    apply elem_of_seq in Hi. unfold changed_in_row in Hin.
    apply list_elem_of_fmap in Hin as (c & [= -> ->] & Hc).
    apply list_elem_of_In, filter_In in Hc as [Hc Hch]. apply list_elem_of_In in Hc.
    split; [lia|]. split; [exact Hc|]. unfold changed in Hch.
    destruct (iloc df1_aligned i c) as [v1|]; [|discriminate].
    destruct (iloc df2_aligned i c) as [v2|]; [|discriminate].
    exists v1, v2. apply andb_true_iff in Hch as [Hna Hne].
    apply bool_decide_eq_true in Hne. repeat split; try assumption.
    intros [-> ->]. discriminate.
  - intros (Hidx & Hcol & v1 & v2 & H1 & H2 & Hne & Hna).
    exists (changed_in_row df1_aligned df2_aligned compare_columns idx). split.
    + unfold changed_in_row. apply list_elem_of_fmap. exists col. split; [reflexivity|].
      apply list_elem_of_In, filter_In. split; [now apply list_elem_of_In|].
      unfold changed. rewrite H1, H2. apply andb_true_iff. split.
      * destruct v1, v2; try reflexivity. exfalso. now apply Hna.
      * now apply bool_decide_eq_true.
    + apply list_elem_of_fmap. exists idx. split; [reflexivity|].
      apply elem_of_seq. lia.
Qed.

Lemma changed_sym df1 df2 idx col : changed df1 df2 idx col = changed df2 df1 idx col.
Proof.
  unfold changed.
  destruct (iloc df1 idx col) as [v1|], (iloc df2 idx col) as [v2|]; try reflexivity.
  rewrite (andb_comm (isna v1)). f_equal.
  apply bool_decide_ext. split; intros H E; apply H; congruence.
Qed.

(** X2. Detection is symmetric: for two aligned tables with the same
    number of rows, comparing them in either order records the same cells in
    the same order (only the transition texts are reversed). *)
Theorem mismatches_swap df1_aligned df2_aligned compare_columns result12 result21 m12 m21 :
  length (rows df1_aligned) = length (rows df2_aligned) ->
  value_comparison df1_aligned df2_aligned compare_columns = Some (result12, m12) ->
  value_comparison df2_aligned df1_aligned compare_columns = Some (result21, m21) ->
  m12 = m21.
Proof.
  intros Hlen H12 H21.
  apply mismatches_are_the_changed_cells_list in H12.
  apply mismatches_are_the_changed_cells_list in H21.
  rewrite H12, H21, Hlen. f_equal. apply map_ext. intros idx.
  unfold changed_in_row. f_equal. apply filter_ext. intros col. apply changed_sym.
Qed.


Lemma iloc_set_at_same df idx col v :
  is_Some (iloc df idx col) -> iloc (set_at df idx col v) idx col = Some v.
Proof.
  intros [w Hw]. unfold iloc, row_at in Hw.
  destruct (rows df !! idx) as [row|] eqn:Hrow; simpl in Hw; [|discriminate].
  destruct (column_index df col) as [k|] eqn:Hk; simpl in Hw; [|discriminate].
  unfold set_at. rewrite Hk. unfold iloc, row_at, column_index. simpl.
  rewrite list_lookup_alter_eq, Hrow. simpl. fold (column_index df col). rewrite Hk. simpl.
  apply list_lookup_insert_eq. eapply lookup_lt_Some, Hw.
Qed.

Lemma rows_length_set_at df idx col v :
  length (rows (set_at df idx col v)) = length (rows df).
Proof.
  unfold set_at. destruct (column_index df col); [|reflexivity]. simpl. apply length_alter.
Qed.

(** What the loops keep true of the cells of [result_df]. *)
Definition result_invariant (df1 df2 : DataFrame) (st : DataFrame * list (nat * string)) : Prop :=
  columns st.1 = columns df1 /\
  length (rows st.1) = length (rows df1) /\
  (forall i c, (i, c) ∉ st.2 -> iloc st.1 i c = iloc df1 i c) /\
  (forall i c val1 val2, (i, c) ∈ st.2 ->
     iloc df1 i c = Some val1 -> iloc df2 i c = Some val2 ->
     iloc st.1 i c = Some (CStr (transition val1 val2))).

Lemma compare_cell_result df1 df2 idx st col st' :
  result_invariant df1 df2 st ->
  compare_cell df1 df2 idx st col = Some st' ->
  result_invariant df1 df2 st'.
Proof.
  destruct st as [result mism]. intros (Hcols & Hlen & Hout & Hin). unfold compare_cell.
  destruct (iloc df1 idx col) as [val1|] eqn:E1; simpl; [|discriminate].
  destruct (iloc df2 idx col) as [val2|] eqn:E2; simpl; [|discriminate].
  destruct (isna val1 && isna val2) eqn:Hna; [intros [= <-]; now repeat split|].
  destruct (bool_decide (val1 <> val2)); [|intros [= <-]; now repeat split].
  intros [= <-]. unfold result_invariant. cbn [fst snd] in *.
  assert (Hsome : is_Some (iloc result idx col)).
  { destruct (decide ((idx, col) ∈ mism)) as [Hm|Hm].
    - rewrite (Hin _ _ _ _ Hm E1 E2). eauto.
    - rewrite (Hout _ _ Hm), E1. eauto. }
  split; [now rewrite columns_set_at|]. split; [now rewrite rows_length_set_at|]. split.
  - intros i c Hnot. rewrite iloc_set_at_other.
    + apply Hout. intros H. apply Hnot, elem_of_app. now left.
    + intros [= -> ->]. apply Hnot, elem_of_app. right. apply list_elem_of_singleton. reflexivity.
  - intros i c v1 v2 Hm H1 H2.
    destruct (decide ((i, c) = (idx, col))) as [[= -> ->]|Hne].
    + rewrite iloc_set_at_same by exact Hsome. congruence.
    + rewrite iloc_set_at_other by exact Hne. apply Hin; [|exact H1|exact H2].
      apply elem_of_app in Hm as [Hm|Hm]; [exact Hm|].
      apply list_elem_of_singleton in Hm. contradiction.
Qed.

(** X3. When the value comparison ends normally the result table has the
    shape of the first aligned table; a cell recorded in [mismatches] holds
    the text "old → new" made of the two values, and every other cell,
    compared or not, holds the value of the first table. *)
Theorem result_cells df1_aligned df2_aligned compare_columns result_df mismatches :
  value_comparison df1_aligned df2_aligned compare_columns = Some (result_df, mismatches) ->
  columns result_df = columns df1_aligned /\
  length (rows result_df) = length (rows df1_aligned) /\
  (forall idx col, (idx, col) ∉ mismatches ->
     iloc result_df idx col = iloc df1_aligned idx col) /\
  (forall idx col val1 val2, (idx, col) ∈ mismatches ->
     iloc df1_aligned idx col = Some val1 -> iloc df2_aligned idx col = Some val2 ->
     iloc result_df idx col = Some (CStr (cell_str val1 +:+ " → " +:+ cell_str val2))).
Proof.
  intros H.
  apply (foldlM_invariant (result_invariant df1_aligned df2_aligned)) in H; [exact H| |].
  - intros st idx st' Hst.
    apply (foldlM_invariant (result_invariant df1_aligned df2_aligned)); [|exact Hst].
    intros a col a'. apply compare_cell_result.
  - repeat split; simpl; try reflexivity.
    intros i c v1 v2 Hm. now apply elem_of_nil in Hm.
Qed.

Lemma compare_cell_is_Some df1 df2 idx st col :
  is_Some (iloc df1 idx col) -> is_Some (iloc df2 idx col) ->
  is_Some (compare_cell df1 df2 idx st col).
Proof.
  intros [v1 H1] [v2 H2]. destruct st as [result mism]. unfold compare_cell.
  rewrite H1, H2. simpl. destruct (isna v1 && isna v2); [eauto|].
  destruct (bool_decide (v1 <> v2)); eauto.
Qed.

Lemma foldlM_is_Some {A B} (f : A -> B -> option A) l :
  (forall a x, x ∈ l -> is_Some (f a x)) -> forall a, is_Some (foldlM f a l).
Proof.
  induction l as [|x l IH]; intros H a; [simpl; eauto|].
  rewrite foldlM_cons. destruct (H a x) as [a1 ->]; [left|]. simpl.
  apply IH. intros a' y Hy. apply H. now right.
Qed.


(** X5. When the second aligned table has fewer rows than the first and
    at least one column is compared, the value comparison ends on an
    exception (the run of [compare] reports an error and writes no file). *)
Theorem value_comparison_fails_on_short_second df1_aligned df2_aligned compare_columns :
  compare_columns <> [] ->
  length (rows df2_aligned) < length (rows df1_aligned) ->
  value_comparison df1_aligned df2_aligned compare_columns = None.
Proof.
  intros Hcols Hlen. unfold value_comparison.
  replace (length (rows df1_aligned))
    with (length (rows df2_aligned) + S (length (rows df1_aligned) - S (length (rows df2_aligned))))
    by lia.
  rewrite seq_app, foldlM_app.
  destruct (foldlM _ _ (seq 0 (length (rows df2_aligned)))) as [[result mism]|];
    simpl; [|reflexivity].
  destruct compare_columns as [|col cols]; [contradiction|].
  rewrite foldlM_cons.
  replace (compare_cell df1_aligned df2_aligned (length (rows df2_aligned)) (result, mism) col)
    with (@None (DataFrame * list (nat * string))); [reflexivity|].
  unfold compare_cell. destruct (iloc df1_aligned _ col); simpl; [|reflexivity].
  unfold iloc. rewrite lookup_ge_None_2 by lia. reflexivity.
Qed.


(** ** The column alignment *)

Lemma elem_of_remove_first_ne x c l : c <> x -> c ∈ remove_first x l <-> c ∈ l.
Proof.
  intros Hne. induction l as [|y l IH]; simpl; [reflexivity|].
  case_bool_decide as Hxy.
  - subst y. rewrite elem_of_cons. split; [auto|]. intros [->|H]; [contradiction|exact H].
  - rewrite !elem_of_cons, IH. reflexivity.
Qed.

Lemma not_elem_of_remove_first x l : NoDup l -> x ∉ remove_first x l.
Proof.
  induction 1 as [|y l Hy Hl IH]; simpl; [apply not_elem_of_nil|].
  case_bool_decide as Hxy; [now subst y|].
  apply not_elem_of_cons. split; [exact Hxy|exact IH].
Qed.

Lemma iloc_select cols df idx c :
  c ∈ cols ->
  iloc (select cols df) idx c
  = (fun row => default CNaN (row_at df row c)) <$> rows df !! idx.
Proof.
  intros Hc. unfold iloc. simpl. rewrite list_lookup_fmap.
  destruct (rows df !! idx) as [row|]; [|reflexivity]. simpl.
  unfold row_at at 1.
  destruct (column_index_elem (select cols df) c Hc) as (k & Hk & _).
  rewrite Hk. simpl. apply column_index_Some in Hk. simpl in Hk.
  now rewrite list_lookup_fmap, Hk.
Qed.

Lemma iloc_select_well_formed cols df idx c :
  well_formed df -> c ∈ cols -> c ∈ columns df ->
  iloc (select cols df) idx c = iloc df idx c.
Proof.
  intros Hwf Hc Hdf. rewrite iloc_select by exact Hc. unfold iloc.
  destruct (rows df !! idx) as [row|] eqn:Hrow; [|reflexivity]. simpl.
  destruct (iloc_well_formed df idx c Hwf Hdf) as [v Hv];
    [eapply lookup_lt_Some, Hrow|].
  unfold iloc in Hv. rewrite Hrow in Hv. simpl in Hv. now rewrite Hv.
Qed.

(** X6. The column alignment gives up exactly when the key is not a
    column of both files.  Otherwise both files are cut to the same column
    list, which begins with the key and holds exactly the columns the two
    files share; the compared columns are the requested ones that are
    shared; no row is lost and every row has one cell per column. *)
Theorem align_columns_shape :
  forall df1 df2 unique_key compare_columns,
    (align_columns df1 df2 unique_key compare_columns = None <->
       ~ (unique_key ∈ columns df1 /\ unique_key ∈ columns df2)) /\
    forall df1' df2' compared,
      align_columns df1 df2 unique_key compare_columns = Some (df1', df2', compared) ->
      columns df1' = columns df2' /\
      (exists others, columns df1' = unique_key :: others) /\
      (forall c, c ∈ columns df1' <-> c ∈ columns df1 /\ c ∈ columns df2) /\
      (forall c, c ∈ compared <->
         c ∈ compare_columns /\ c ∈ columns df1 /\ c ∈ columns df2) /\
      length (rows df1') = length (rows df1) /\
      length (rows df2') = length (rows df2) /\
      well_formed df1' /\ well_formed df2'.
Proof.
  intros df1 df2 unique_key compare_columns. unfold align_columns.
  set (common := filter (fun c => c ∈ columns df2) (remove_dups (columns df1))).
  assert (Hcommon : forall c, c ∈ common <-> c ∈ columns df1 /\ c ∈ columns df2).
  { intros c. subst common. rewrite list_elem_of_filter, elem_of_remove_dups. tauto. }
  case_bool_decide as Hkey.
  - split; [split; [discriminate|]; intros H; exfalso; apply H; now apply Hcommon|].
    intros df1' df2' compared [= <- <- <-].
    set (compared := filter (fun c => c ∈ common) compare_columns).
    assert (Hcompared : forall c, c ∈ compared <->
              c ∈ compare_columns /\ c ∈ columns df1 /\ c ∈ columns df2).
    { intros c. subst compared. rewrite list_elem_of_filter, Hcommon. tauto. }
    split; [reflexivity|]. split; [simpl; eauto|]. split; [|split; [exact Hcompared|]].
    + intros c. simpl. rewrite elem_of_cons, elem_of_app.
      destruct (decide (c = unique_key)) as [->|Hne].
      * split; [intros _; now apply Hcommon|auto].
      * rewrite elem_of_remove_first_ne by exact Hne.
        rewrite list_elem_of_filter, Hcompared, Hcommon.
        destruct (decide (c ∈ compared)) as [Hc|Hc].
        -- apply Hcompared in Hc. tauto.
        -- split; [tauto|]. intros H. right. left. split; [|exact H].
           intros H'. apply Hc. now apply Hcompared.
    + simpl. rewrite !length_map. repeat split; apply well_formed_select.
  - split; [split; [intros _ H; apply Hkey; now apply Hcommon|reflexivity]|].
    intros df1' df2' compared. discriminate.
Qed.

Lemma align_columns_shape_some df1 df2 unique_key cols df1' df2' compared :
  align_columns df1 df2 unique_key cols = Some (df1', df2', compared) ->
  exists reordered,
    df1' = select reordered df1 /\ df2' = select reordered df2 /\
    forall c, c ∈ columns df1 -> c ∈ columns df2 -> c ∈ reordered.
Proof.
  unfold align_columns.
  set (common := filter (fun c => c ∈ columns df2) (remove_dups (columns df1))).
  case_bool_decide as Hkey; [|discriminate]. intros [= <- <- <-].
  eexists. split; [reflexivity|]. split; [reflexivity|].
  intros c Hc1 Hc2.
  assert (Hc : c ∈ common).
  { subst common. rewrite list_elem_of_filter, elem_of_remove_dups. tauto. }
  simpl. rewrite elem_of_cons, elem_of_app.
  destruct (decide (c = unique_key)) as [->|Hne]; [now left|].
  rewrite elem_of_remove_first_ne by exact Hne. rewrite !list_elem_of_filter.
  destruct (decide (c ∈ cols)); [right; right|right; left]; tauto.
Qed.

(** X7. The column alignment does not touch the values: in a well-formed
    file, every cell of a shared column reads in the aligned file as in the
    file itself. *)
Theorem align_columns_keeps_values
    df1 df2 unique_key compare_columns df1' df2' compared idx c :
  align_columns df1 df2 unique_key compare_columns = Some (df1', df2', compared) ->
  well_formed df1 -> well_formed df2 ->
  c ∈ columns df1 -> c ∈ columns df2 ->
  iloc df1' idx c = iloc df1 idx c /\ iloc df2' idx c = iloc df2 idx c.
Proof.
  intros Halign Hwf1 Hwf2 Hc1 Hc2.
  destruct (align_columns_shape_some _ _ _ _ _ _ _ Halign) as (reordered & Hd1 & Hd2 & Hcols).
  subst df1' df2'. split; apply iloc_select_well_formed; try assumption; now apply Hcols.
Qed.

Lemma mismatch_column df1 df2 cols result mism idx col :
  value_comparison df1 df2 cols = Some (result, mism) -> (idx, col) ∈ mism -> col ∈ cols.
Proof.
  intros H Hin. apply mismatches_are_the_changed_cells_list in H. subst mism.
  apply list_elem_of_join in Hin as (l & Hin & Hl).
  apply list_elem_of_fmap in Hl as (i & -> & _). unfold changed_in_row in Hin.
  apply list_elem_of_fmap in Hin as (c & [= -> ->] & Hc).
  apply list_elem_of_In, filter_In in Hc as [Hc _]. now apply list_elem_of_In.
Qed.

(** X8. When [compare_columns] lists no column twice, the key column is
    never reported as changed, whether or not the configuration lists it
    among the columns to compare. *)
Theorem key_is_never_reported df1 df2 unique_key compare_columns result_df mismatches :
  NoDup compare_columns ->
  compare df1 df2 unique_key compare_columns = Some (result_df, mismatches) ->
  forall idx, (idx, unique_key) ∉ mismatches.
Proof.
  intros Hnd Hcmp idx Hin. unfold compare in Hcmp.
  set (cols := if bool_decide (unique_key ∈ compare_columns)
               then remove_first unique_key compare_columns else compare_columns) in Hcmp.
  assert (Hcols : unique_key ∉ cols).
  { subst cols. case_bool_decide as Hk; [now apply not_elem_of_remove_first|exact Hk]. }
  destruct (align_columns df1 df2 unique_key cols) as [[[d1 d2] cc]|] eqn:Halign;
    cbn [mbind option_bind] in Hcmp; [|discriminate].
  cbv zeta in Hcmp.
  match type of Hcmp with context [sort_raises ?b ?d || sort_raises ?b' ?d'] =>
    destruct (sort_raises b d || sort_raises b' d') end; [discriminate|].
  destruct (align_rows d1 d2 unique_key cc) as [a b].
  apply (mismatch_column _ _ _ _ _ _ _ Hcmp) in Hin.
  unfold align_columns in Halign. case_bool_decide; [|discriminate].
  injection Halign as _ _ <-. apply list_elem_of_filter in Hin as [_ Hin]. contradiction.
Qed.


(** Two aligned sheets that differ in two cells; the value missing in both
    is no difference. *)
Definition sheet_old : DataFrame :=
  mkDataFrame ["id"; "name"; "val"]
    [[CStr "a"; CStr "x"; CNum 1]; [CStr "b"; CStr "y"; CNaN]; [CStr "c"; CStr "z"; CNum 3]].

Definition sheet_new : DataFrame :=
  mkDataFrame ["id"; "name"; "val"]
    [[CStr "a"; CStr "x"; CNum 2]; [CStr "b"; CStr "y"; CNaN]; [CStr "c"; CStr "w"; CNum 3]].

Definition sheet_old_to_new : DataFrame :=
  mkDataFrame ["id"; "name"; "val"]
    [[CStr "a"; CStr "x"; CStr "1 → 2"]; [CStr "b"; CStr "y"; CNaN];
     [CStr "c"; CStr "z → w"; CNum 3]].

Definition sheet_new_to_old : DataFrame :=
  mkDataFrame ["id"; "name"; "val"]
    [[CStr "a"; CStr "x"; CStr "2 → 1"]; [CStr "b"; CStr "y"; CNaN];
     [CStr "c"; CStr "w → z"; CNum 3]].

Lemma sheet_old_new_report :
  value_comparison sheet_old sheet_new ["name"; "val"]
  = Some (sheet_old_to_new, [(0, "val"); (2, "name")]).
Proof. vm_compute; reflexivity. Qed.

Lemma sheet_new_old_report :
  value_comparison sheet_new sheet_old ["name"; "val"]
  = Some (sheet_new_to_old, [(0, "val"); (2, "name")]).
Proof. vm_compute; reflexivity. Qed.

Lemma mismatches_are_the_changed_cells_witness :
  [(0, "val"); (2, "name")]
  = mjoin (map (changed_in_row sheet_old sheet_new ["name"; "val"])
               (seq 0 (length (rows sheet_old)))).
Proof.
  exact (proj1 (mismatches_are_the_changed_cells _ _ _ _ _ sheet_old_new_report)).
Defined.

Lemma mismatches_swap_witness :
  [(0, "val"); (2, "name")] = [(0, "val"); (2, "name")] :> list (nat * string).
Proof.
  exact (mismatches_swap sheet_old sheet_new ["name"; "val"] _ _ _ _
           eq_refl sheet_old_new_report sheet_new_old_report).
Defined.

Lemma result_cells_witness :
  iloc sheet_old_to_new 0 "val" = Some (CStr "1 → 2") /\
  iloc sheet_old_to_new 1 "val" = iloc sheet_old 1 "val".
Proof.
  destruct (result_cells _ _ _ _ _ sheet_old_new_report) as (_ & _ & Hout & Hin).
  split.
  - apply (Hin 0 "val" (CNum 1) (CNum 2)); [left|reflexivity|reflexivity].
  - apply Hout. intros H. apply list_elem_of_In in H. simpl in H.
    destruct H as [H|[H|[]]]; discriminate.
Defined.

Lemma sheet_old_well_formed : well_formed sheet_old.
Proof. repeat constructor. Qed.

Lemma sheet_new_well_formed : well_formed sheet_new.
Proof. repeat constructor. Qed.


Lemma value_comparison_fails_on_short_second_witness :
  value_comparison sheet_twice sheet_once ["val"] = None.
Proof.
  apply value_comparison_fails_on_short_second; [discriminate|simpl; lia].
Defined.

Lemma align_columns_keeps_values_witness :
  iloc sheet_old 2 "name" = iloc sheet_old 2 "name" /\
  iloc sheet_new 2 "name" = iloc sheet_new 2 "name".
Proof.
  apply (align_columns_keeps_values sheet_old sheet_new "id" ["val"]
           sheet_old sheet_new ["val"] 2 "name").
  - vm_compute; reflexivity.
  - exact sheet_old_well_formed.
  - exact sheet_new_well_formed.
  - apply list_elem_of_In; simpl; auto.
  - apply list_elem_of_In; simpl; auto.
Defined.

Lemma sheet_old_new_compare :
  compare sheet_old sheet_new "id" ["id"; "val"; "name"]
  = Some (mkDataFrame ["id"; "val"; "name"]
            [[CStr "a"; CStr "1 → 2"; CStr "x"]; [CStr "b"; CNaN; CStr "y"];
             [CStr "c"; CNum 3; CStr "z → w"]],
          [(0, "val"); (2, "name")]).
Proof. vm_compute; reflexivity. Qed.

Lemma key_is_never_reported_witness :
  NoDup ["id"; "val"; "name"] /\ ((0, "id") ∉ [(0, "val"); (2, "name")]).
Proof.
  assert (Hnd : NoDup ["id"; "val"; "name"]) by compute_done.
  split; [exact Hnd|].
  exact (key_is_never_reported _ _ _ _ _ _ Hnd sheet_old_new_compare 0).
Defined.

End ServiceTwo.

(** * Service three: usage anomaly detection *)

Module ServiceThree.

Inductive Direction := increase | decrease.

(** A row of the aggregated usage table [df_agg], columns
    [COL_ID], [COL_COMPANY], [COL_DATE], [COL_SERVICE], [COL_USAGE]. *)
Record Row := mkRow {
  TPID : string;
  TopParent : string;
  FiscalDate : Z;
  ServiceLevel2 : string;
  Acr : Q
}.

(** A row of [df_flags]: the input row and the two added columns. *)
Record FlagRow := mkFlagRow {
  data : Row;
  anomaly : bool;
  anomaly_direction : option Direction
}.

Definition set_anomaly (b : bool) (fr : FlagRow) : FlagRow :=
  mkFlagRow (data fr) b (anomaly_direction fr).

Definition set_anomaly_direction (d : option Direction) (fr : FlagRow) : FlagRow :=
  mkFlagRow (data fr) (anomaly fr) d.

(** [Series.median()] of a non-empty numeric series. *)
Definition median (values : list Q) : Q :=
  let s := stable_sort Qle_bool values in
  let n := length s in
  if Nat.even n
  then ((nth (n / 2 - 1) s 0 + nth (n / 2) s 0) / 2)%Q
  else nth (n / 2) s 0%Q.

Definition Qlt_bool (a b : Q) : bool := negb (Qle_bool b a).

(** [Series.empty] *)
Definition empty {A} (s : list A) : bool :=
  match s with [] => true | _ :: _ => false end.

(** The key of [groupby([COL_COMPANY, COL_SERVICE])] and the order in which
    pandas visits the groups. *)
Definition group_key (r : Row) : string * string := (TopParent r, ServiceLevel2 r).

Definition key_leb (a b : string * string) : bool :=
  match String.compare a.1 b.1 with
  | Lt => true
  | Eq => String.leb a.2 b.2
  | Gt => false
  end.

(** A group is the list of its rows in table order, each with its label in
    [df_flags] (the column [index] that [reset_index()] adds). *)
Definition Group := list (nat * Row).

Definition groupby (df_flags : list FlagRow) : list Group :=
  let rows := imap (fun i fr => (i, data fr)) df_flags in
  map (fun k => filter (fun p => group_key p.2 = k) rows)
      (stable_sort key_leb (remove_dups (map (fun p => group_key p.2) rows))).

(** [df_flags = df.copy(); df_flags['anomaly'] = False;
    df_flags['anomaly_direction'] = None] *)
Definition init_flags (df : list Row) : list FlagRow :=
  map (fun r => mkFlagRow r false None) df.

(** [group.sort_values(by=COL_DATE).reset_index()].  For rows of one group
    with the same date pandas' default sort kind does not fix the order; the
    model keeps their table order. *)
Definition sort_by_date (g : Group) : Group :=
  stable_sort (fun a b => (FiscalDate a.2 <=? FiscalDate b.2)%Z) g.

Section Detector.
Variables (anomaly_threshold_percent anomaly_threshold_abs : Q).
Variables (recent_window_size shift_window : nat).

(** [group.loc[i - recent_window_size : i - 1, COL_USAGE]]: the labels
    i - window .. i - 1, both ends included; empty when the window size
    is 0. *)
Definition historical_window (group : Group) (i : nat) : list Q :=
  take recent_window_size (drop (i - recent_window_size) (map (fun p => Acr p.2) group)).

(** [percent_change >= anomaly_threshold_percent and
    absolute_change >= anomaly_threshold_abs], computed exactly.  The code
    rounds each operation, so a change that meets a threshold within one
    rounding can be judged the other way by it; the statements on the scan
    use the test through its result only. *)
Definition is_single_anomaly (current_usage baseline_usage : Q) : bool :=
  let percent_change := (Qabs ((current_usage - baseline_usage) / baseline_usage) * 100)%Q in
  let absolute_change := Qabs (current_usage - baseline_usage) in
  Qle_bool anomaly_threshold_percent percent_change
  && Qle_bool anomaly_threshold_abs absolute_change.

(** The body of [for j in range(i - shift_window + 1, i + 1)]: the row at
    position [j] of the sorted group is flagged in [df_flags] under its
    original label, unless it is flagged already. *)
Definition flag_row (group : Group) (baseline_usage : Q)
    (df_flags : list FlagRow) (j : nat) : list FlagRow :=
  match group !! j with
  | Some (original_index, r) =>
      match df_flags !! original_index with
      | Some fr =>
          if negb (anomaly fr) then
            let df_flags := alter (set_anomaly true) original_index df_flags in
            let direction :=
              if Qlt_bool baseline_usage (Acr r) then increase else decrease in
            alter (set_anomaly_direction (Some direction)) original_index df_flags
          else df_flags
      | None => df_flags
      end
  | None => df_flags
  end.

(** The body of [for i in range(recent_window_size, len(group))]; the
    state is [consecutive_anomalies] and [df_flags].  The flagged positions
    are those of [range(i - shift_window + 1, i + 1)]; the counter is at
    most i + 1 - recent_window_size (lemma [scan_counter_bound]), so the
    lower end is never negative when the range is reached. *)
Definition scan_row (group : Group) (st : nat * list FlagRow) (i : nat)
    : nat * list FlagRow :=
  let '(consecutive_anomalies, df_flags) := st in
  let window := historical_window group i in
  match group !! i with
  | None => st
  | Some (_, cur) =>
      let current_usage := Acr cur in
      if empty window then st
      else
        let baseline_usage := median window in
        if negb (Qeq_bool baseline_usage 0) then
          if is_single_anomaly current_usage baseline_usage then
            let consecutive_anomalies := S consecutive_anomalies in
            if shift_window <=? consecutive_anomalies then
              (consecutive_anomalies,
               foldl (flag_row group baseline_usage) df_flags
                     (seq (i + 1 - shift_window) shift_window))
            else (consecutive_anomalies, df_flags)
          else (0, df_flags)
        else st
  end.

Definition scan_group (df_flags : list FlagRow) (g : Group) : list FlagRow :=
  let group := sort_by_date g in
  (foldl (scan_row group) (0, df_flags)
         (seq recent_window_size (length group - recent_window_size))).2.

Definition flag_anomalies (df : list Row) : list FlagRow :=
  let df_flags := init_flags df in
  foldl scan_group df_flags (groupby df_flags).

(** The state machine as the specification words it: when the count
    reaches [shift] the window is flagged and the counter starts again
    from zero. *)
Definition spec_scan_row (group : Group) (st : nat * list FlagRow) (i : nat)
    : nat * list FlagRow :=
  let '(k, df_flags) := st in
  let window := historical_window group i in
  match group !! i with
  | None => st
  | Some (_, cur) =>
      if empty window then st
      else
        let baseline_usage := median window in
        if negb (Qeq_bool baseline_usage 0) then
          if is_single_anomaly (Acr cur) baseline_usage then
            if shift_window <=? S k then
              (0, foldl (flag_row group baseline_usage) df_flags
                        (seq (i + 1 - shift_window) shift_window))
            else (S k, df_flags)
          else (0, df_flags)
        else st
  end.

Definition spec_scan_group (df_flags : list FlagRow) (g : Group) : list FlagRow :=
  let group := sort_by_date g in
  (foldl (spec_scan_row group) (0, df_flags)
         (seq recent_window_size (length group - recent_window_size))).2.

Definition spec_flag_anomalies (df : list Row) : list FlagRow :=
  let df_flags := init_flags df in
  foldl spec_scan_group df_flags (groupby df_flags).

(** *** What the scan computes

    [status] classifies a row the way the loop body does; [run_length g n] is
    the number of candidate rows met since the last non-candidate one among
    the first [n] scanned rows (rows without a usable baseline neither count
    nor interrupt). *)

Inductive Status := Candidate | NonCandidate | Skipped.

Definition baseline (group : Group) (i : nat) : Q :=
  median (historical_window group i).

Definition status (group : Group) (i : nat) : Status :=
  match group !! i with
  | None => Skipped
  | Some (_, cur) =>
      if empty (historical_window group i) then Skipped
      else if Qeq_bool (baseline group i) 0 then Skipped
      else if is_single_anomaly (Acr cur) (baseline group i) then Candidate
      else NonCandidate
  end.

Fixpoint run_length (group : Group) (n : nat) : nat :=
  match n with
  | 0 => 0
  | S n' =>
      match status group (recent_window_size + n') with
      | Candidate => S (run_length group n')
      | NonCandidate => 0
      | Skipped => run_length group n'
      end
  end.

(** Row [i] confirms a window: it is a candidate and the run that ends at it
    has at least [shift_window] candidates. *)
Definition confirms (group : Group) (i : nat) : bool :=
  (recent_window_size <=? i) && (i <? length group)
  && match status group i with Candidate => true | _ => false end
  && (shift_window <=? run_length group (S (i - recent_window_size))).

(** The first confirming row among [j .. j + shift_window - 1], if any. *)
Definition first_confirm (group : Group) (j : nat) : option nat :=
  List.find (confirms group) (seq j shift_window).

Definition direction_against (baseline_usage : Q) (r : Row) : Direction :=
  if Qlt_bool baseline_usage (Acr r) then increase else decrease.

(** The annotation a row at position [j] of its sorted group ends with. *)
Definition final_flag (group : Group) (j : nat) (r : Row) : FlagRow :=
  match first_confirm group j with
  | Some i => mkFlagRow r true (Some (direction_against (baseline group i) r))
  | None => mkFlagRow r false None
  end.

(** *** The writes of the inner loop *)

Definition flag_once (baseline_usage : Q) (r : Row) (fr : FlagRow) : FlagRow :=
  if anomaly fr then fr
  else mkFlagRow (data fr) true (Some (direction_against baseline_usage r)).

Lemma flag_row_alter group b df j o r :
  group !! j = Some (o, r) ->
  flag_row group b df j = alter (flag_once b r) o df.
Proof.
  intros Hj. unfold flag_row. rewrite Hj.
  destruct (df !! o) as [fr|] eqn:Ho.
  - destruct (anomaly fr) eqn:Ha; simpl.
    + symmetry. rewrite <- (list_alter_id id df o) at 2 by reflexivity.
      apply list_alter_ext; [|reflexivity].
      intros x Hx. rewrite Ho in Hx. injection Hx as <-.
      unfold flag_once. now rewrite Ha.
    + rewrite list_alter_alter_eq.
      apply list_alter_ext; [|reflexivity].
      intros x Hx. rewrite Ho in Hx. injection Hx as <-.
      unfold flag_once. rewrite Ha. reflexivity.
  - symmetry. apply list_eq. intros k.
    destruct (decide (o = k)) as [->|Hne].
    + rewrite list_lookup_alter_eq, Ho. reflexivity.
    + now rewrite list_lookup_alter_ne.
Qed.

Lemma flag_row_out_of_range group b df j :
  group !! j = None -> flag_row group b df j = df.
Proof. intros Hj. unfold flag_row. now rewrite Hj. Qed.

Lemma flag_row_length group b df j : length (flag_row group b df j) = length df.
Proof.
  destruct (group !! j) as [[o r]|] eqn:Hj.
  - rewrite (flag_row_alter _ _ _ _ _ _ Hj). apply length_alter.
  - now rewrite flag_row_out_of_range.
Qed.

(** Folding [flag_row] over distinct positions of a group whose labels are
    distinct flags each of these rows once and touches nothing else. *)
Lemma flag_rows_lookup group b js :
  NoDup group.*1 -> NoDup js ->
  forall df,
    (forall o, (forall j r, j ∈ js -> group !! j <> Some (o, r)) ->
       foldl (flag_row group b) df js !! o = df !! o) /\
    (forall j o r, j ∈ js -> group !! j = Some (o, r) ->
       foldl (flag_row group b) df js !! o = flag_once b r <$> df !! o).
Proof.
  intros Hnd Hjs. induction Hjs as [|j0 js Hnotin Hjs IH]; intros df; simpl.
  - split; [reflexivity|]. intros j o r Hin. now apply elem_of_nil in Hin.
  - destruct (IH (flag_row group b df j0)) as [IHout IHin]. split.
    + intros o Ho. rewrite IHout.
      * destruct (group !! j0) as [[o0 r0]|] eqn:Hj0.
        -- rewrite (flag_row_alter _ _ _ _ _ _ Hj0).
           apply list_lookup_alter_ne. intros ->.
           apply (Ho j0 r0); [left|exact Hj0].
        -- now rewrite flag_row_out_of_range.
      * intros j r Hin. apply Ho. now right.
    + intros j o r Hin Hj. apply elem_of_cons in Hin as [->|Hin].
      * rewrite IHout.
        -- rewrite (flag_row_alter _ _ _ _ _ _ Hj). apply list_lookup_alter_eq.
        -- intros j' r' Hin' Hj'.
           assert (j' = j0); [|subst; contradiction].
           eapply NoDup_lookup; [exact Hnd| |];
             rewrite list_lookup_fmap; [rewrite Hj'|rewrite Hj]; reflexivity.
      * rewrite (IHin j o r Hin Hj).
        destruct (group !! j0) as [[o0 r0]|] eqn:Hj0.
        -- rewrite (flag_row_alter _ _ _ _ _ _ Hj0).
           rewrite list_lookup_alter_ne; [reflexivity|]. intros ->.
           assert (j0 = j); [|subst; contradiction].
           eapply NoDup_lookup; [exact Hnd| |];
             rewrite list_lookup_fmap; [rewrite Hj0|rewrite Hj]; reflexivity.
        -- now rewrite flag_row_out_of_range.
Qed.

(** *** One step of the scan, by the status of the row *)

Lemma scan_row_status group c df i :
  scan_row group (c, df) i =
    match status group i with
    | Skipped => (c, df)
    | NonCandidate => (0, df)
    | Candidate =>
        if shift_window <=? S c
        then (S c, foldl (flag_row group (baseline group i)) df
                         (seq (i + 1 - shift_window) shift_window))
        else (S c, df)
    end.
Proof.
  unfold scan_row, status, baseline.
  destruct (group !! i) as [[o cur]|]; [|reflexivity].
  destruct (empty (historical_window group i)); [reflexivity|].
  destruct (Qeq_bool (median (historical_window group i)) 0); simpl; [reflexivity|].
  destruct (is_single_anomaly (Acr cur) (median (historical_window group i)));
    reflexivity.
Qed.

Lemma run_length_bound group n : run_length group n <= n.
Proof.
  induction n as [|n IH]; simpl; [lia|].
  destruct (status group (recent_window_size + n)); lia.
Qed.

(** The counter the loop holds after its first [n] rows is [run_length]:
    a confirmation does not reset it. *)
Lemma scan_counter group df n :
  (foldl (scan_row group) (0, df) (seq recent_window_size n)).1 = run_length group n.
Proof.
  induction n as [|n IH]; [reflexivity|].
  rewrite seq_S, foldl_app. simpl foldl.
  destruct (foldl (scan_row group) (0, df) (seq recent_window_size n)) as [c df'].
  simpl in IH. subst c. rewrite scan_row_status. simpl run_length.
  destruct (status group (recent_window_size + n)); try reflexivity.
  destruct (shift_window <=? S (run_length group n)); reflexivity.
Qed.

Lemma scan_counter_bound group df n :
  (foldl (scan_row group) (0, df) (seq recent_window_size n)).1 <= n.
Proof. rewrite scan_counter. apply run_length_bound. Qed.


(** *** The invariant of the scan of one group *)

(** The first confirming row among [j .. j + shift_window - 1] that the loop
    has met when it is about to look at row [m]. *)
Definition first_confirm_upto (group : Group) (m j : nat) : option nat :=
  List.find (confirms group) (seq j (Nat.min shift_window (m - j))).

Definition flag_upto (group : Group) (m j : nat) (r : Row) : FlagRow :=
  match first_confirm_upto group m j with
  | Some i => mkFlagRow r true (Some (direction_against (baseline group i) r))
  | None => mkFlagRow r false None
  end.

Lemma find_app {A} (P : A -> bool) l1 l2 :
  List.find P (l1 ++ l2) =
    match List.find P l1 with Some x => Some x | None => List.find P l2 end.
Proof.
  induction l1 as [|x l1 IH]; simpl; [reflexivity|].
  destruct (P x); [reflexivity|exact IH].
Qed.

Lemma find_none {A} (P : A -> bool) l :
  (forall x, x ∈ l -> P x = false) -> List.find P l = None.
Proof.
  induction l as [|x l IH]; intros H; simpl; [reflexivity|].
  rewrite (H x) by left. apply IH. intros y Hy. apply H. now right.
Qed.

Lemma find_seq_some (P : nat -> bool) j n i :
  List.find P (seq j n) = Some i ->
  j <= i < j + n /\ P i = true /\ forall i', j <= i' < i -> P i' = false.
Proof.
  revert j. induction n as [|n IH]; intros j; simpl; [discriminate|].
  destruct (P j) eqn:E.
  - intros [= <-]. split; [lia|]. split; [exact E|]. intros i' Hi'. lia.
  - intros H. apply IH in H as (Hr & HP & Hfirst).
    split; [lia|]. split; [exact HP|]. intros i' Hi'.
    destruct (decide (i' = j)) as [->|Hne]; [exact E|]. apply Hfirst. lia.
Qed.

Lemma find_seq_none (P : nat -> bool) j n i :
  List.find P (seq j n) = None -> j <= i < j + n -> P i = false.
Proof.
  revert j. induction n as [|n IH]; intros j; simpl; [lia|].
  destruct (P j) eqn:E; [discriminate|]. intros H Hi.
  destruct (decide (i = j)) as [->|Hne]; [exact E|]. apply (IH (S j)); [exact H|lia].
Qed.

Lemma first_confirm_upto_S group m j :
  first_confirm_upto group (S m) j =
    match first_confirm_upto group m j with
    | Some i => Some i
    | None =>
        if (j <=? m) && (m <? j + shift_window) && confirms group m
        then Some m else None
    end.
Proof.
  unfold first_confirm_upto.
  destruct (j <=? m) eqn:Hjm; [apply Nat.leb_le in Hjm|apply Nat.leb_gt in Hjm].
  - destruct (m <? j + shift_window) eqn:Hms;
      [apply Nat.ltb_lt in Hms|apply Nat.ltb_ge in Hms].
    + replace (Nat.min shift_window (S m - j)) with (S (Nat.min shift_window (m - j))) by lia.
      rewrite seq_S, find_app. simpl.
      replace (j + Nat.min shift_window (m - j)) with m by lia.
      destruct (confirms group m); reflexivity.
    + replace (Nat.min shift_window (S m - j)) with (Nat.min shift_window (m - j)) by lia.
      simpl. now destruct (List.find _ _).
  - replace (S m - j) with 0 by lia. replace (m - j) with 0 by lia.
    rewrite Nat.min_0_r. reflexivity.
Qed.

Lemma first_confirm_upto_end group m j :
  length group <= m -> first_confirm_upto group m j = first_confirm group j.
Proof.
  intros Hm. unfold first_confirm_upto, first_confirm.
  assert (Hsplit : forall k, k <= shift_window ->
            seq j shift_window = seq j k ++ seq (j + k) (shift_window - k)).
  { intros k Hk. rewrite <- seq_app. f_equal. lia. }
  rewrite (Hsplit (Nat.min shift_window (m - j))) by lia.
  rewrite find_app. set (k := Nat.min shift_window (m - j)).
  destruct (List.find (confirms group) (seq j k)); [reflexivity|].
  symmetry. apply find_none. intros i Hi. apply elem_of_seq in Hi.
  unfold confirms. destruct (decide (shift_window <= m - j)).
  - lia.
  - replace (i <? length group) with false; [now rewrite andb_false_r|].
    symmetry. apply Nat.ltb_ge. lia.
Qed.

Lemma confirms_candidate group n :
  status group (recent_window_size + n) = Candidate ->
  confirms group (recent_window_size + n) = (shift_window <=? S (run_length group n)).
Proof.
  intros Hs. unfold confirms.
  replace (recent_window_size + n - recent_window_size) with n by lia.
  simpl run_length. rewrite Hs.
  replace (recent_window_size <=? recent_window_size + n) with true
    by (symmetry; apply Nat.leb_le; lia).
  replace (recent_window_size + n <? length group) with true; [reflexivity|].
  symmetry. apply Nat.ltb_lt.
  unfold status in Hs.
  destruct (group !! (recent_window_size + n)) eqn:E; [|discriminate].
  eapply lookup_lt_Some, E.
Qed.

Lemma confirms_not_candidate group i :
  status group i <> Candidate -> confirms group i = false.
Proof.
  intros Hs. unfold confirms. destruct (status group i); [contradiction| |];
    now rewrite andb_false_r.
Qed.

Lemma scan_rows_lookup group df0 n :
  NoDup group.*1 ->
  (forall j o r, group !! j = Some (o, r) -> df0 !! o = Some (mkFlagRow r false None)) ->
  (forall o, o ∉ group.*1 ->
     (foldl (scan_row group) (0, df0) (seq recent_window_size n)).2 !! o = df0 !! o) /\
  (forall j o r, group !! j = Some (o, r) ->
     (foldl (scan_row group) (0, df0) (seq recent_window_size n)).2 !! o
     = Some (flag_upto group (recent_window_size + n) j r)).
Proof.
  intros Hnd Hinit. induction n as [|n [IHout IHin]].
  - split; [reflexivity|]. intros j o r Hj. simpl.
    rewrite (Hinit _ _ _ Hj). unfold flag_upto, first_confirm_upto.
    replace (recent_window_size + 0 - j) with (recent_window_size - j) by lia.
    assert (Hnone : forall k, List.find (confirms group) (seq j (Nat.min shift_window k)) = None
                              \/ recent_window_size - j < k).
    { intros k. destruct (decide (recent_window_size - j < k)); [now right|left].
      apply find_none. intros i Hi. apply elem_of_seq in Hi.
      unfold confirms. replace (recent_window_size <=? i) with false; [reflexivity|].
      symmetry. apply Nat.leb_gt. lia. }
    destruct (Hnone (recent_window_size - j)) as [->|]; [reflexivity|lia].
  - pose proof (scan_counter group df0 n) as Hc.
    rewrite seq_S, foldl_app. simpl foldl.
    destruct (foldl (scan_row group) (0, df0) (seq recent_window_size n)) as [c df].
    simpl in Hc, IHout, IHin. subst c.
    rewrite scan_row_status.
    assert (Hstay : confirms group (recent_window_size + n) = false ->
      forall j r, flag_upto group (recent_window_size + S n) j r
                  = flag_upto group (recent_window_size + n) j r).
    { intros Hcf j r. unfold flag_upto.
      replace (recent_window_size + S n) with (S (recent_window_size + n)) by lia.
      rewrite first_confirm_upto_S, Hcf, andb_false_r.
      now destruct (first_confirm_upto group (recent_window_size + n) j). }
    destruct (status group (recent_window_size + n)) eqn:Hst.
    + pose proof (confirms_candidate _ _ Hst) as Hcf.
      destruct (shift_window <=? S (run_length group n)) eqn:Hsh.
      * apply Nat.leb_le in Hsh. pose proof (run_length_bound group n) as Hb.
        set (i := recent_window_size + n) in *.
        destruct (flag_rows_lookup group (baseline group i)
                    (seq (i + 1 - shift_window) shift_window) Hnd
                    (NoDup_seq _ _) df) as [Fout Fin].
        simpl. split.
        -- intros o Ho. rewrite Fout; [now apply IHout|].
           intros j r _ Hj. apply Ho.
           apply list_elem_of_fmap. exists (o, r). split; [reflexivity|].
           eapply list_elem_of_lookup_2, Hj.
        -- intros j o r Hj.
           replace (recent_window_size + S n) with (S i) by lia.
           unfold flag_upto. rewrite first_confirm_upto_S, Hcf.
           destruct (decide (i + 1 - shift_window <= j <= i)) as [Hin|Hout].
           ++ rewrite (Fin j o r); [|apply elem_of_seq; lia|exact Hj].
              rewrite (IHin _ _ _ Hj). unfold flag_upto.
              replace (j <=? i) with true by (symmetry; apply Nat.leb_le; lia).
              replace (i <? j + shift_window) with true by (symmetry; apply Nat.ltb_lt; lia).
              simpl. destruct (first_confirm_upto group i j); reflexivity.
           ++ rewrite Fout.
              ** rewrite (IHin _ _ _ Hj). unfold flag_upto.
                 replace ((j <=? i) && (i <? j + shift_window)) with false.
                 { now destruct (first_confirm_upto group i j). }
                 symmetry. apply andb_false_iff.
                 destruct (decide (j <= i)); [right; apply Nat.ltb_ge|left; apply Nat.leb_gt]; lia.
              ** intros j' r' Hj' Hlk. apply elem_of_seq in Hj'.
                 assert (j' = j); [|subst; lia].
                 eapply NoDup_lookup; [exact Hnd| |];
                   rewrite list_lookup_fmap; [rewrite Hlk|rewrite Hj]; reflexivity.
      * simpl. split; [exact IHout|]. intros j o r Hj.
        rewrite Hstay by exact Hcf. now apply IHin.
    + simpl. split; [exact IHout|]. intros j o r Hj.
      rewrite Hstay; [now apply IHin|]. apply confirms_not_candidate. congruence.
    + simpl. split; [exact IHout|]. intros j o r Hj.
      rewrite Hstay; [now apply IHin|]. apply confirms_not_candidate. congruence.
Qed.

(** Scanning a group whose rows are still unflagged leaves each of them with
    [final_flag] and changes no other row. *)
Lemma scan_group_lookup df0 g :
  NoDup g.*1 ->
  (forall o r, (o, r) ∈ g -> df0 !! o = Some (mkFlagRow r false None)) ->
  (forall o, o ∉ g.*1 -> scan_group df0 g !! o = df0 !! o) /\
  (forall j o r, sort_by_date g !! j = Some (o, r) ->
     scan_group df0 g !! o = Some (final_flag (sort_by_date g) j r)).
Proof.
  intros Hnd Hinit. unfold scan_group.
  assert (Hperm : Permutation g (sort_by_date g)) by apply stable_sort_perm.
  destruct (scan_rows_lookup (sort_by_date g) df0
              (length (sort_by_date g) - recent_window_size)) as [Hout Hin].
  - now rewrite <- Hperm.
  - intros j o r Hj. apply Hinit. rewrite Hperm. eapply list_elem_of_lookup_2, Hj.
  - split.
    + intros o Ho. apply Hout. now rewrite <- Hperm.
    + intros j o r Hj. rewrite (Hin _ _ _ Hj). f_equal.
      unfold flag_upto, final_flag. rewrite first_confirm_upto_end; [reflexivity|lia].
Qed.


(** *** The groups of a table *)

Lemma sort_by_date_perm g : Permutation g (sort_by_date g).
Proof. apply stable_sort_perm. Qed.

Definition disjoint_labels (g1 g2 : Group) : Prop :=
  forall o, o ∈ g1.*1 -> o ∉ g2.*1.

Lemma indexed_rows_elem (df_flags : list FlagRow) o r :
  (o, r) ∈ imap (fun i fr => (i, data fr)) df_flags <->
  exists fr, df_flags !! o = Some fr /\ data fr = r.
Proof.
  rewrite elem_of_lookup_imap. split.
  - intros (i & fr & Heq & Hlk). injection Heq as -> ->. eauto.
  - intros (fr & Hlk & <-). eauto.
Qed.

Lemma indexed_rows_NoDup (df_flags : list FlagRow) :
  NoDup (imap (fun i fr => (i, data fr)) df_flags).*1.
Proof.
  apply NoDup_alt. intros i j x Hi Hj.
  rewrite list_lookup_fmap, list_lookup_imap in Hi, Hj.
  destruct (df_flags !! i); [|discriminate]. destruct (df_flags !! j); [|discriminate].
  simpl in Hi, Hj. congruence.
Qed.

Lemma groupby_elem df_flags g :
  g ∈ groupby df_flags ->
  NoDup g.*1 /\
  exists k, forall o r, (o, r) ∈ g <->
    group_key r = k /\ exists fr, df_flags !! o = Some fr /\ data fr = r.
Proof.
  unfold groupby. intros Hg. apply list_elem_of_fmap in Hg as (k & -> & _). split.
  - eapply sublist_NoDup; [apply indexed_rows_NoDup|].
    apply fmap_sublist, sublist_filter.
  - exists k. intros o r. rewrite list_elem_of_filter, indexed_rows_elem. reflexivity.
Qed.

Lemma groupby_disjoint df_flags : ForallOrdPairs disjoint_labels (groupby df_flags).
Proof.
  unfold groupby.
  set (rows := imap (fun i fr => (i, data fr)) df_flags).
  assert (Hkeys : NoDup (stable_sort key_leb (remove_dups (map (fun p => group_key p.2) rows)))).
  { rewrite <- stable_sort_perm. apply NoDup_remove_dups. }
  induction Hkeys as [|k ks Hk Hks IH]; simpl; constructor; [|exact IH].
  apply List.Forall_forall. intros g Hg. apply in_map_iff in Hg as (k' & <- & Hk').
  intros o Ho1 Ho2.
  apply list_elem_of_fmap in Ho1 as ([o1 r1] & -> & H1).
  apply list_elem_of_fmap in Ho2 as ([o2 r2] & Heq & H2). simpl in Heq. subst o2.
  apply list_elem_of_filter in H1 as [K1 H1]. apply list_elem_of_filter in H2 as [K2 H2].
  apply indexed_rows_elem in H1 as (fr1 & L1 & <-).
  apply indexed_rows_elem in H2 as (fr2 & L2 & <-).
  simpl in *. rewrite L1 in L2. injection L2 as <-.
  apply Hk. apply list_elem_of_In in Hk'. congruence.
Qed.

(** Every row of the table lies in the group of its key. *)
Lemma groupby_cover df_flags o fr :
  df_flags !! o = Some fr ->
  exists g, g ∈ groupby df_flags /\ (o, data fr) ∈ g.
Proof.
  intros Hlk. unfold groupby.
  set (rows := imap (fun i fr => (i, data fr)) df_flags).
  assert (Hin : (o, data fr) ∈ rows) by (apply indexed_rows_elem; eauto).
  exists (filter (fun p => group_key p.2 = group_key (data fr)) rows). split.
  - apply list_elem_of_fmap. exists (group_key (data fr)). split; [reflexivity|].
    rewrite <- stable_sort_perm, elem_of_remove_dups.
    apply list_elem_of_fmap. now exists (o, data fr).
  - apply list_elem_of_filter. split; [reflexivity|exact Hin].
Qed.

(** *** The scan of all groups *)

Lemma scan_groups_lookup gs :
  ForallOrdPairs disjoint_labels gs ->
  (forall g, g ∈ gs -> NoDup g.*1) ->
  forall df0,
    (forall g o r, g ∈ gs -> (o, r) ∈ g -> df0 !! o = Some (mkFlagRow r false None)) ->
    (forall o, (forall g, g ∈ gs -> o ∉ g.*1) -> foldl scan_group df0 gs !! o = df0 !! o) /\
    (forall g j o r, g ∈ gs -> sort_by_date g !! j = Some (o, r) ->
       foldl scan_group df0 gs !! o = Some (final_flag (sort_by_date g) j r)).
Proof.
  induction 1 as [|g0 gs Hdis Hpairs IH]; intros Hnd df0 Hinit; simpl.
  - split; [reflexivity|]. intros g j o r Hg. now apply elem_of_nil in Hg.
  - assert (Hnd0 : NoDup g0.*1) by (apply Hnd; left).
    destruct (scan_group_lookup df0 g0 Hnd0) as [Sout Sin].
    { intros o r. apply Hinit. left. }
    rewrite List.Forall_forall in Hdis.
    destruct (IH (fun g Hg => Hnd g (list_elem_of_further _ _ _ Hg)) (scan_group df0 g0))
      as [IHout IHin].
    { intros g o r Hg Hin. rewrite Sout; [apply (Hinit g); [now right|exact Hin]|].
      intros Ho. apply list_elem_of_In in Hg.
      apply (Hdis g Hg o Ho). apply list_elem_of_fmap. now exists (o, r). }
    split.
    + intros o Ho. rewrite IHout.
      * apply Sout. apply Ho. left.
      * intros g Hg. apply Ho. now right.
    + intros g j o r Hg Hj. apply elem_of_cons in Hg as [->|Hg].
      * rewrite IHout; [now apply Sin|].
        intros g Hg. apply list_elem_of_In in Hg. apply (Hdis g Hg).
        apply list_elem_of_fmap. exists (o, r). split; [reflexivity|].
        rewrite (sort_by_date_perm g0). eapply list_elem_of_lookup_2, Hj.
      * now apply IHin.
Qed.

(** Each row ends with the annotation its own group gives it. *)
Lemma flag_anomalies_lookup df g j o r :
  g ∈ groupby (init_flags df) ->
  sort_by_date g !! j = Some (o, r) ->
  flag_anomalies df !! o = Some (final_flag (sort_by_date g) j r).
Proof.
  intros Hg Hj. unfold flag_anomalies.
  destruct (scan_groups_lookup (groupby (init_flags df)) (groupby_disjoint _)
              (fun g Hg => proj1 (groupby_elem _ g Hg)) (init_flags df)) as [_ Hin].
  - intros g' o' r' Hg' Hin'. apply groupby_elem in Hg' as [_ (k & Hk)].
    apply Hk in Hin' as (_ & fr & Hlk & <-).
    rewrite Hlk. f_equal. unfold init_flags in Hlk.
    rewrite list_lookup_fmap in Hlk. destruct (df !! o'); [|discriminate].
    now injection Hlk as <-.
  - now apply Hin.
Qed.


(** *** The two annotation columns move together *)

Definition consistent (fr : FlagRow) : Prop :=
  (anomaly fr = true <->
     anomaly_direction fr = Some increase \/ anomaly_direction fr = Some decrease) /\
  (anomaly fr = false <-> anomaly_direction fr = None).

Definition annotates (df : list Row) (df_flags : list FlagRow) : Prop :=
  data <$> df_flags = df /\ Forall consistent df_flags.

Lemma flag_once_consistent b r fr : consistent fr -> consistent (flag_once b r fr).
Proof.
  intros H. unfold flag_once. destruct (anomaly fr) eqn:E; [exact H|].
  unfold consistent. simpl.
  destruct (direction_against b r); split; split; intros H'; auto; try discriminate;
    destruct H'; discriminate.
Qed.

Lemma flag_row_annotates df group b df_flags j :
  annotates df df_flags -> annotates df (flag_row group b df_flags j).
Proof.
  intros [Hdata Hcons].
  destruct (group !! j) as [[o r]|] eqn:Hj;
    [|rewrite flag_row_out_of_range by exact Hj; now split].
  rewrite (flag_row_alter _ _ _ _ _ _ Hj). split.
  - rewrite <- Hdata. apply list_eq. intros i. rewrite !list_lookup_fmap.
    destruct (decide (o = i)) as [->|Hne].
    + rewrite list_lookup_alter_eq. destruct (df_flags !! i) as [fr|]; [|reflexivity].
      simpl. unfold flag_once. now destruct (anomaly fr).
    + now rewrite list_lookup_alter_ne.
  - apply Forall_alter; [exact Hcons|]. intros fr _. apply flag_once_consistent.
Qed.

Lemma flag_rows_annotates df group b js :
  forall df_flags, annotates df df_flags ->
    annotates df (foldl (flag_row group b) df_flags js).
Proof.
  induction js as [|j js IH]; intros df_flags H; simpl; [exact H|].
  apply IH. now apply flag_row_annotates.
Qed.

Lemma scan_row_annotates df group st i :
  annotates df st.2 -> annotates df (scan_row group st i).2.
Proof.
  destruct st as [c df_flags]. intros H. simpl in H. rewrite scan_row_status.
  destruct (status group i); simpl; try exact H.
  destruct (shift_window <=? S c); simpl; [|exact H].
  now apply flag_rows_annotates.
Qed.

Lemma scan_group_annotates df df_flags g :
  annotates df df_flags -> annotates df (scan_group df_flags g).
Proof.
  intros H. unfold scan_group.
  generalize (seq recent_window_size (length (sort_by_date g) - recent_window_size)).
  assert (Hst : annotates df (0, df_flags).2) by exact H.
  revert Hst. generalize (0, df_flags).
  intros st Hst l. revert st Hst. induction l as [|i l IH]; intros st Hst; simpl; [exact Hst|].
  apply IH. now apply scan_row_annotates.
Qed.

Lemma scan_groups_annotates df gs :
  forall df_flags, annotates df df_flags ->
    annotates df (foldl scan_group df_flags gs).
Proof.
  induction gs as [|g gs IH]; intros df_flags H; simpl; [exact H|].
  apply IH. now apply scan_group_annotates.
Qed.

(** C10. After the detector has run the table has its input rows, in
    their order, and on every row [anomaly] is True exactly when
    [anomaly_direction] is 'increase' or 'decrease', and False exactly when
    [anomaly_direction] is None. *)
Theorem anomaly_iff_direction :
  forall df : list Row,
    data <$> flag_anomalies df = df /\
    Forall (fun fr =>
              (anomaly fr = true <->
                 anomaly_direction fr = Some increase \/ anomaly_direction fr = Some decrease) /\
              (anomaly fr = false <-> anomaly_direction fr = None))
           (flag_anomalies df).
Proof.
  intros df. change (annotates df (flag_anomalies df)). unfold flag_anomalies.
  assert (Hinit : annotates df (init_flags df)).
  { split.
    - unfold init_flags. rewrite <- list_fmap_compose. apply list_fmap_id.
    - unfold init_flags. apply Forall_fmap, Forall_true. intros r.
      split; split; simpl; intros; auto; try discriminate. destruct H; discriminate. }
  now apply scan_groups_annotates.
Qed.

(** *** Runs of candidates *)

Lemma run_length_run group a d :
  recent_window_size <= a ->
  (forall i, a <= i < a + d -> status group i = Candidate) ->
  d <= run_length group (a - recent_window_size + d).
Proof.
  intros Ha. induction d as [|d IH]; intros Hrun; [lia|].
  replace (a - recent_window_size + S d) with (S (a - recent_window_size + d)) by lia.
  simpl. replace (recent_window_size + (a - recent_window_size + d)) with (a + d) by lia.
  rewrite Hrun by lia. apply le_n_S, IH. intros i Hi. apply Hrun. lia.
Qed.

(** C1, as the code has it.  The counter is not reset by a confirmation:
    after the first [n] scanned rows of a group it is [run_length], the
    number of candidates since the last non-candidate row.  A row of the
    group is flagged exactly when one of the rows from it to [shift_window - 1]
    rows later confirms, that is, is a candidate whose run has reached
    [shift_window]; the flagged rows are the union of the windows of
    [shift_window] rows ending at the confirming rows, and these windows
    overlap: every row of a run of [len >= shift_window] consecutive
    candidates is flagged. *)
Theorem flagged_iff_in_confirmed_window df k g j o r :
  groupby (init_flags df) !! k = Some g ->
  sort_by_date g !! j = Some (o, r) ->
  (forall df0 n,
     (foldl (scan_row (sort_by_date g)) (0, df0) (seq recent_window_size n)).1
     = run_length (sort_by_date g) n) /\
  (forall n, status (sort_by_date g) (recent_window_size + n) = Candidate ->
     run_length (sort_by_date g) (S n) = S (run_length (sort_by_date g) n)) /\
  exists fr,
    flag_anomalies df !! o = Some fr /\ data fr = r /\
    (anomaly fr = true <->
       exists i, j <= i < j + shift_window /\ confirms (sort_by_date g) i = true) /\
    (forall a len,
       0 < shift_window <= len -> recent_window_size <= a -> a <= j < a + len ->
       (forall i, a <= i < a + len -> status (sort_by_date g) i = Candidate) ->
       anomaly fr = true).
Proof.
  intros Hg Hj. apply list_elem_of_lookup_2 in Hg.
  split; [intros df0 n; apply scan_counter|].
  split; [intros n Hn; simpl; now rewrite Hn|].
  pose proof (flag_anomalies_lookup df g j o r Hg Hj) as Hlk.
  exists (final_flag (sort_by_date g) j r). split; [exact Hlk|].
  assert (Hiff : anomaly (final_flag (sort_by_date g) j r) = true <->
            exists i, j <= i < j + shift_window /\ confirms (sort_by_date g) i = true).
  { unfold final_flag, first_confirm.
    destruct (List.find _ _) as [i|] eqn:Hfind; simpl.
    - apply find_seq_some in Hfind as (Hr & Hc & _). split; [eauto|reflexivity].
    - split; [discriminate|]. intros (i & Hr & Hc).
      rewrite (find_seq_none _ _ _ i Hfind Hr) in Hc. discriminate. }
  split; [unfold final_flag; now destruct (first_confirm _ _)|].
  split; [exact Hiff|].
  intros a len Hlen Ha Hja Hrun. apply Hiff.
  exists (Nat.max j (a + shift_window - 1)). split; [lia|].
  set (i := Nat.max j (a + shift_window - 1)).
  assert (Hi : a <= i < a + len) by lia.
  pose proof (Hrun i Hi) as Hst.
  replace i with (recent_window_size + (i - recent_window_size)) in Hst |- * by lia.
  rewrite confirms_candidate by exact Hst. apply Nat.leb_le.
  pose proof (run_length_run (sort_by_date g) a (i - a + 1) Ha) as Hlen'.
  replace (a - recent_window_size + (i - a + 1)) with (S (i - recent_window_size)) in Hlen' by lia.
  simpl in Hlen'. rewrite Hst in Hlen'.
  etransitivity; [|apply Hlen']; [lia|]. intros i' Hi'. apply Hrun. lia.
Qed.

(** C2, as the code has it.  A flagged row at position [j] of its group
    was flagged by the first confirming row [i] among [j .. j + shift_window - 1],
    and its direction compares its value with the baseline of that row [i]
    (the median of the [recent_window_size] rows before [i]), not with the
    baseline of row [j] itself: 'increase' if the value exceeds it, else
    'decrease'. *)
Theorem direction_against_confirming_baseline df k g j o r fr :
  groupby (init_flags df) !! k = Some g ->
  sort_by_date g !! j = Some (o, r) ->
  flag_anomalies df !! o = Some fr ->
  anomaly fr = true ->
  exists i,
    j <= i < j + shift_window /\
    confirms (sort_by_date g) i = true /\
    (forall i', j <= i' < i -> confirms (sort_by_date g) i' = false) /\
    anomaly_direction fr =
      Some (if Qlt_bool (median (historical_window (sort_by_date g) i)) (Acr r)
            then increase else decrease).
Proof.
  intros Hg Hj Hlk Hflag. apply list_elem_of_lookup_2 in Hg.
  rewrite (flag_anomalies_lookup df g j o r Hg Hj) in Hlk. injection Hlk as <-.
  unfold final_flag, first_confirm in *.
  destruct (List.find _ _) as [i|] eqn:Hfind; simpl in *; [|discriminate].
  apply find_seq_some in Hfind as (Hr & Hc & Hfirst).
  exists i. repeat split; try lia; assumption.
Qed.

End Detector.

Definition usage_rows (company service : string) (start : Z) (values : list Q) : list Row :=
  imap (fun i v => mkRow "1" company (start + Z.of_nat i) service v) values.

(** Seven days at 100 followed by four days at 1000. *)
Definition sustained_shift : list Row :=
  usage_rows "X" "svcA" 0 [100; 100; 100; 100; 100; 100; 100; 1000; 1000; 1000; 1000]%Q.

(** The medians before rows 7, 8 and 9 are 100, 500 and 1000. *)
Definition drifting_baseline : list Row :=
  usage_rows "X" "svcA" 0 [100; 100; 100; 100; 1000; 1000; 1000; 500; 1000; 2000]%Q.

(** The rows of a one-group table with their labels. *)
Definition labelled (df : list Row) : Group := imap (fun i r => (i, r)) df.

(** C1, counterexample.  Defaults (window 7, shift 3, thresholds 20 % and
    60), seven days at 100 then four days at 1000: rows 7 to 10 are all
    candidates.  The code flags all four; a machine that resets its counter
    on confirmation flags rows 7 to 9 only. *)
Lemma long_run_flags_every_row :
  anomaly <$> flag_anomalies 20 60 7 3 sustained_shift
    = [false; false; false; false; false; false; false; true; true; true; true] /\
  anomaly <$> spec_flag_anomalies 20 60 7 3 sustained_shift
    = [false; false; false; false; false; false; false; true; true; true; false].
Proof. split; vm_compute; reflexivity. Qed.

(** The last of the four days at 1000 is flagged: the run 7..10 is longer
    than [shift_window] and row 10 confirms its own window. *)
Lemma flagged_iff_in_confirmed_window_witness :
  exists fr,
    flag_anomalies 20 60 7 3 sustained_shift !! 10 = Some fr /\
    anomaly fr = true /\
    exists i, 10 <= i < 10 + 3 /\ confirms 20 60 7 3 (sort_by_date (labelled sustained_shift)) i = true.
Proof.
  destruct (flagged_iff_in_confirmed_window 20 60 7 3 sustained_shift 0
              (labelled sustained_shift) 10 10 (mkRow "1" "X" 10 "svcA" 1000))
    as (_ & _ & fr & Hlk & _ & Hiff & Hrun).
  - vm_compute; reflexivity.
  - vm_compute; reflexivity.
  - exists fr. split; [exact Hlk|].
    assert (Hflag : anomaly fr = true).
    { apply (Hrun 7 4); [lia|lia|lia|].
      intros i Hi.
      assert (Hcases : i = 7 \/ i = 8 \/ i = 9 \/ i = 10) by lia.
      destruct Hcases as [->|[->|[->| ->]]]; vm_compute; reflexivity. }
    split; [exact Hflag|]. apply Hiff, Hflag.
Defined.

(** C2, counterexample.  Defaults, usage 100, 100, 100, 100, 1000, 1000,
    1000, 500, 1000, 2000.  Rows 7, 8 and 9 are candidates against their own
    baselines 100, 500 and 1000, and row 9 confirms.  Row 7 (500) lies above
    its own baseline (100) but is flagged 'decrease', its value being
    compared with the baseline of row 9. *)
Lemma direction_of_earlier_row_uses_later_baseline :
  flag_anomalies 20 60 7 3 drifting_baseline !! 7
    = Some (mkFlagRow (mkRow "1" "X" 7 "svcA" 500) true (Some decrease)) /\
  median (historical_window 7 (sort_by_date (labelled drifting_baseline)) 7) == 100 /\
  median (historical_window 7 (sort_by_date (labelled drifting_baseline)) 9) == 1000 /\
  direction_against
    (median (historical_window 7 (sort_by_date (labelled drifting_baseline)) 7))
    (mkRow "1" "X" 7 "svcA" 500) = increase.
Proof. repeat split; vm_compute; reflexivity. Qed.

(** Row 7 of [drifting_baseline] is flagged by row 9 and compared with the
    baseline of row 9. *)
Lemma direction_against_confirming_baseline_witness :
  exists i,
    7 <= i < 7 + 3 /\
    confirms 20 60 7 3 (sort_by_date (labelled drifting_baseline)) i = true /\
    (forall i', 7 <= i' < i ->
       confirms 20 60 7 3 (sort_by_date (labelled drifting_baseline)) i' = false) /\
    Some decrease =
      Some (if Qlt_bool (median (historical_window 7 (sort_by_date (labelled drifting_baseline)) i))
                        500
            then increase else decrease).
Proof.
  apply (direction_against_confirming_baseline 20 60 7 3 drifting_baseline 0
           (labelled drifting_baseline) 7 7 (mkRow "1" "X" 7 "svcA" 500)
           (mkFlagRow (mkRow "1" "X" 7 "svcA" 500) true (Some decrease)));
    vm_compute; reflexivity.
Defined.


(** ** More on the detector *)

(** [get_anomalous_instances(df)]: the rows of every (company, service)
    pair that has an anomalous row. *)
Definition get_anomalous_instances (df : list FlagRow) : list FlagRow :=
  let anomalous_pairs : gset (string * string) :=
    list_to_set (map (fun fr => group_key (data fr))
                     (filter (fun fr => anomaly fr = true) df)) in
  filter (fun fr => group_key (data fr) ∈ anomalous_pairs) df.

Lemma elem_of_get_anomalous_instances df fr :
  fr ∈ get_anomalous_instances df <->
  fr ∈ df /\
  exists fr', fr' ∈ df /\ anomaly fr' = true /\
              group_key (data fr') = group_key (data fr).
Proof.
  unfold get_anomalous_instances.
  rewrite list_elem_of_filter, elem_of_list_to_set, list_elem_of_fmap.
  split.
  - intros [(fr' & Hkey & Hin) Hfr]. apply list_elem_of_filter in Hin as [Ha Hin].
    split; [exact Hfr|]. exists fr'. auto.
  - intros [Hfr (fr' & Hin & Ha & Hkey)]. split; [|exact Hfr].
    exists fr'. split; [now symmetry|]. apply list_elem_of_filter. auto.
Qed.

Lemma filter_all {A} (P : A -> Prop) `{!forall x, Decision (P x)} (l : list A) :
  (forall x, x ∈ l -> P x) -> filter P l = l.
Proof.
  induction l as [|x l IH]; intros Hall; [reflexivity|].
  rewrite filter_cons_True by (apply Hall; left). f_equal. apply IH.
  intros y Hy. apply Hall. now right.
Qed.

(** X9. [get_anomalous_instances] keeps, in their order, exactly the rows
    whose (company, service) pair has at least one anomalous row, the rows
    of such a pair that are not anomalous included; applied to its own
    output it changes nothing. *)
Theorem anomalous_instances_are_whole_groups :
  forall df : list FlagRow,
    get_anomalous_instances df `sublist_of` df /\
    (forall fr, fr ∈ get_anomalous_instances df <->
       fr ∈ df /\
       exists fr', fr' ∈ df /\ anomaly fr' = true /\
                   TopParent (data fr') = TopParent (data fr) /\
                   ServiceLevel2 (data fr') = ServiceLevel2 (data fr)) /\
    get_anomalous_instances (get_anomalous_instances df) = get_anomalous_instances df.
Proof.
  intros df. split; [apply sublist_filter|]. split.
  - intros fr. rewrite elem_of_get_anomalous_instances. unfold group_key.
    split; intros [Hfr (fr' & Hin & Ha & Hk)]; (split; [exact Hfr|]); exists fr'.
    + injection Hk as H1 H2. auto.
    + destruct Hk as [H1 H2]. rewrite H1, H2. auto.
  - unfold get_anomalous_instances at 1. apply filter_all. intros fr Hfr.
    apply elem_of_list_to_set, list_elem_of_fmap.
    apply elem_of_get_anomalous_instances in Hfr as [Hfr (fr' & Hin & Ha & Hk)].
    exists fr'. split; [now symmetry|]. apply list_elem_of_filter. split; [exact Ha|].
    apply elem_of_get_anomalous_instances. split; [exact Hin|]. exists fr'. auto.
Qed.

Section DetectorBounds.
Variables (anomaly_threshold_percent anomaly_threshold_abs : Q).
Variables (recent_window_size shift_window : nat).


(** A confirming row has at least [shift_window] scanned rows up to it. *)
Lemma confirms_bound group i :
  confirms anomaly_threshold_percent anomaly_threshold_abs recent_window_size shift_window group i = true ->
  recent_window_size + shift_window <= i + 1 /\ i < length group.
Proof.
  unfold confirms. intros H.
  apply andb_true_iff in H as [H Hrun]. apply andb_true_iff in H as [H _].
  apply andb_true_iff in H as [Hw Hlen].
  apply Nat.leb_le in Hw, Hrun. apply Nat.ltb_lt in Hlen.
  pose proof (run_length_bound anomaly_threshold_percent anomaly_threshold_abs
                recent_window_size group (S (i - recent_window_size))).
  lia.
Qed.

(** X10. The first [recent_window_size] rows of every group are never
    flagged; no row of a group with fewer than
    [recent_window_size + shift_window] rows is flagged; and with
    [shift_window = 0] no row is flagged at all. *)
Theorem early_rows_are_never_flagged df k g j o r :
  groupby (init_flags df) !! k = Some g ->
  sort_by_date g !! j = Some (o, r) ->
  j < recent_window_size \/ length g < recent_window_size + shift_window
  \/ shift_window = 0 ->
  flag_anomalies anomaly_threshold_percent anomaly_threshold_abs recent_window_size shift_window df !! o = Some (mkFlagRow r false None).
Proof.
  intros Hg Hj Hcase. apply list_elem_of_lookup_2 in Hg.
  rewrite (flag_anomalies_lookup _ _ _ _ df g j o r Hg Hj). f_equal.
  unfold final_flag, first_confirm. rewrite find_none; [reflexivity|].
  intros i Hi. apply elem_of_seq in Hi.
  destruct (confirms anomaly_threshold_percent anomaly_threshold_abs recent_window_size shift_window (sort_by_date g) i) eqn:Hc; [|reflexivity].
  apply confirms_bound in Hc as [Hb Hlen].
  unfold sort_by_date in Hlen. rewrite stable_sort_length in Hlen. lia.
Qed.

Lemma nth_Forall (P : Q -> Prop) (l : list Q) (d : Q) k :
  Forall P l -> P d -> P (nth k l d).
Proof.
  intros Hl Hd. revert k. induction Hl as [|x l Hx Hl IH]; intros [|k]; simpl; auto.
Qed.

Lemma median_of_zeros values : Forall (fun v => v == 0) values -> median values == 0.
Proof.
  intros H. unfold median.
  set (s := stable_sort Qle_bool values).
  assert (Hs : Forall (fun v => v == 0) s).
  { subst s. eapply Permutation_Forall; [apply stable_sort_perm|exact H]. }
  assert (Hnth : forall k, nth k s 0%Q == 0).
  { intros k. apply nth_Forall; [exact Hs|reflexivity]. }
  destruct (Nat.even (length s)); [|apply Hnth].
  rewrite !Hnth. reflexivity.
Qed.

(** X11. A row whose [recent_window_size] preceding values are all zero
    is passed over whatever its own value: the scan leaves the counter and
    the flags as they are, so the row neither counts as a candidate nor
    breaks a run. *)
Theorem zero_history_row_is_passed_over group c df_flags i :
  Forall (fun v => v == 0) (historical_window recent_window_size group i) ->
  scan_row anomaly_threshold_percent anomaly_threshold_abs recent_window_size shift_window
           group (c, df_flags) i
  = (c, df_flags).
Proof.
  intros H. rewrite scan_row_status. unfold status, baseline.
  destruct (group !! i) as [[o cur]|]; [|reflexivity].
  destruct (empty (historical_window recent_window_size group i)); [reflexivity|].
  rewrite (Qeq_eq_bool _ _ (median_of_zeros _ H)). reflexivity.
Qed.

Lemma flag_anomalies_annotates df : annotates df (flag_anomalies anomaly_threshold_percent anomaly_threshold_abs recent_window_size shift_window df).
Proof.
  unfold flag_anomalies. apply scan_groups_annotates. split.
  - unfold init_flags. rewrite <- list_fmap_compose. apply list_fmap_id.
  - unfold init_flags. apply Forall_fmap, Forall_true. intros r.
    split; split; simpl; intros H; auto; try discriminate. destruct H; discriminate.
Qed.

(** X12. Detection followed by [get_anomalous_instances], for
    [shift_window > 0]: a row is reported exactly when its group has a
    confirming row, so a group is reported whole or not at all. *)
Theorem group_reported_iff_confirmed df k g j o r fr :
  0 < shift_window ->
  groupby (init_flags df) !! k = Some g ->
  sort_by_date g !! j = Some (o, r) ->
  flag_anomalies anomaly_threshold_percent anomaly_threshold_abs recent_window_size shift_window df !! o = Some fr ->
  fr ∈ get_anomalous_instances (flag_anomalies anomaly_threshold_percent anomaly_threshold_abs recent_window_size shift_window df) <->
  exists i, confirms anomaly_threshold_percent anomaly_threshold_abs recent_window_size shift_window (sort_by_date g) i = true.
Proof.
  intros Hs Hg Hj Hfr. apply list_elem_of_lookup_2 in Hg.
  pose proof (flag_anomalies_lookup anomaly_threshold_percent anomaly_threshold_abs
                recent_window_size shift_window df g) as Hlookup.
  destruct (groupby_elem _ _ Hg) as [_ (key & Hkey)].
  assert (Hdata : forall o' fr', flag_anomalies anomaly_threshold_percent anomaly_threshold_abs recent_window_size shift_window df !! o' = Some fr' ->
            init_flags df !! o' = Some (mkFlagRow (data fr') false None)).
  { intros o' fr' Hlk. destruct (flag_anomalies_annotates df) as [Hd _].
    unfold init_flags. rewrite list_lookup_fmap. rewrite <- Hd at 1.
    now rewrite list_lookup_fmap, Hlk. }
  assert (Hr : data fr = r).
  { rewrite (Hlookup j o r Hg Hj) in Hfr. injection Hfr as <-.
    unfold final_flag. now destruct (first_confirm _ _ _ _ _ _). }
  assert (Hkr : group_key r = key).
  { apply (Hkey o r). rewrite (sort_by_date_perm g). eapply list_elem_of_lookup_2, Hj. }
  rewrite elem_of_get_anomalous_instances. split.
  - intros [_ (fr' & Hin & Ha & Hk)].
    apply list_elem_of_lookup_1 in Hin as [o' Ho'].
    assert (Hing : (o', data fr') ∈ g).
    { apply Hkey. split; [congruence|]. eexists. split; [apply (Hdata _ _ Ho')|reflexivity]. }
    rewrite (sort_by_date_perm g) in Hing.
    apply list_elem_of_lookup_1 in Hing as [j' Hj'].
    rewrite (Hlookup j' o' _ Hg Hj') in Ho'. injection Ho' as Heq.
    rewrite <- Heq in Ha. unfold final_flag, first_confirm in Ha.
    destruct (List.find _ _) as [i|] eqn:Hfind; [|discriminate].
    apply find_seq_some in Hfind as (_ & Hc & _). eauto.
  - intros [i Hc]. split; [eapply list_elem_of_lookup_2, Hfr|].
    pose proof (confirms_bound _ _ Hc) as [_ Hlen].
    destruct (lookup_lt_is_Some_2 _ _ Hlen) as [[oi ri] Hi].
    exists (final_flag anomaly_threshold_percent anomaly_threshold_abs
              recent_window_size shift_window (sort_by_date g) i ri).
    assert (Hfirst : first_confirm anomaly_threshold_percent anomaly_threshold_abs
              recent_window_size shift_window (sort_by_date g) i = Some i).
    { unfold first_confirm. destruct shift_window as [|s]; [lia|]. simpl. now rewrite Hc. }
    split; [eapply list_elem_of_lookup_2, (Hlookup i oi ri Hg Hi)|].
    unfold final_flag. rewrite Hfirst. simpl. split; [reflexivity|].
    rewrite Hr, Hkr. apply (Hkey oi ri).
    rewrite (sort_by_date_perm g). eapply list_elem_of_lookup_2, Hi.
Qed.

End DetectorBounds.

(** Seven days without usage, then a day at 1000. *)
Definition from_zero : list Row :=
  usage_rows "X" "svcA" 0 [0; 0; 0; 0; 0; 0; 0; 1000]%Q.

Lemma early_rows_are_never_flagged_witness :
  flag_anomalies 20 60 7 3 sustained_shift !! 3
  = Some (mkFlagRow (mkRow "1" "X" 3 "svcA" 100) false None).
Proof.
  apply (early_rows_are_never_flagged 20 60 7 3 sustained_shift 0
           (labelled sustained_shift) 3 3 (mkRow "1" "X" 3 "svcA" 100)).
  - vm_compute; reflexivity.
  - vm_compute; reflexivity.
  - left. lia.
Defined.

Lemma zero_history_row_is_passed_over_witness :
  scan_row 20 60 7 3 (labelled from_zero) (2, init_flags from_zero) 7
  = (2, init_flags from_zero).
Proof.
  apply zero_history_row_is_passed_over.
  repeat constructor.
Defined.

Lemma group_reported_iff_confirmed_witness :
  mkFlagRow (mkRow "1" "X" 3 "svcA" 100) false None
    ∈ get_anomalous_instances (flag_anomalies 20 60 7 3 sustained_shift).
Proof.
  apply (group_reported_iff_confirmed 20 60 7 3 sustained_shift 0
           (labelled sustained_shift) 3 3 (mkRow "1" "X" 3 "svcA" 100)).
  - lia.
  - vm_compute; reflexivity.
  - vm_compute; reflexivity.
  - vm_compute; reflexivity.
  - exists 9. vm_compute; reflexivity.
Defined.

(** ** The usage pie chart *)

Section PieChart.

(** [Series.sum()], the sum pandas computes in floating point: whatever it
    gives for a series with entries, it gives zero for an empty one. *)
Variable series_sum : list Q -> Q.
Hypothesis sum_of_nothing : (series_sum [] == 0)%Q.

(** [Series.sort_values(ascending=False)] of a series indexed by service.
    pandas' default sort kind does not fix the order of entries with the same
    value; the model keeps their order in the series, and the statement
    below does not depend on it. *)
Definition sort_values_descending (s : list (string * Q)) : list (string * Q) :=
  stable_sort (fun a b => Qle_bool b.2 a.2) s.

(** [generate_usage_pie_chart(total_usage_per_service)] up to the drawing:
    the labels and the sizes given to [ax.pie], or [None] for an empty
    series. *)
Definition generate_usage_pie_chart (total_usage_per_service : list (string * Q))
    : option (list string * list Q) :=
  if empty total_usage_per_service then None
  else
    let sorted_usage := sort_values_descending total_usage_per_service in
    let top_9 := take 9 sorted_usage in
    let other := series_sum (snd <$> drop 9 sorted_usage) in
    let labels := fst <$> top_9 in
    let sizes := snd <$> top_9 in
    if Qlt_bool 0 other
    then Some (labels ++ ["Other"], sizes ++ [other])
    else Some (labels, sizes).

Lemma descending_total a b : Qle_bool b a = true \/ Qle_bool a b = true.
Proof.
  rewrite !Qle_bool_iff. destruct (Qlt_le_dec a b) as [H|H]; auto using Qlt_le_weak.
Qed.

(** X24. [generate_usage_pie_chart] draws nothing for an empty series.
    Otherwise it draws at most ten slices, one label per slice.  The first
    (at most nine) slices are services with their own usage, in the order of
    decreasing usage, and no service left out of them has a greater usage
    than one of them.  The services left out make one more slice, labelled
    "Other" and sized by what [sum()] gives for their usages, exactly when
    that is more than zero; with nine services or fewer there is no such
    slice. *)
Theorem pie_chart_shows_top_nine_and_other total_usage_per_service :
    match generate_usage_pie_chart total_usage_per_service with
    | None => total_usage_per_service = []
    | Some (labels, sizes) =>
        total_usage_per_service <> [] /\
        length labels = length sizes /\
        length sizes <= 10 /\
        (forall i j a b, i < j -> j < 9 -> sizes !! i = Some a -> sizes !! j = Some b ->
           (b <= a)%Q) /\
        (exists rest,
           Permutation (zip (take 9 labels) (take 9 sizes) ++ rest) total_usage_per_service /\
           (forall a r, a ∈ take 9 sizes -> r ∈ rest -> (r.2 <= a)%Q) /\
           (drop 9 labels, drop 9 sizes)
           = if Qlt_bool 0 (series_sum (snd <$> rest))
             then (["Other"], [series_sum (snd <$> rest)])
             else ([], [])) /\
        (length total_usage_per_service <= 9 ->
           Permutation (zip labels sizes) total_usage_per_service)
    end.
Proof.
  unfold generate_usage_pie_chart.
  destruct total_usage_per_service as [|p usage']; [reflexivity|].
  set (usage := p :: usage'). cbn [empty].
  set (sorted := sort_values_descending usage).
  assert (Hperm : Permutation usage sorted) by apply stable_sort_perm.
  assert (Hsorted : StronglySorted (fun a b => Qle_bool b.2 a.2 = true) sorted).
  { apply stable_sort_sorted.
    - intros x y. apply descending_total.
    - intros x y z. rewrite !Qle_bool_iff. intros H1 H2. eapply Qle_trans; eauto. }
  assert (Hlen9 : length (take 9 sorted) <= 9) by (rewrite length_take; lia).
  assert (Htop : forall i j a b, i < j -> j < 9 ->
            (snd <$> take 9 sorted) !! i = Some a -> (snd <$> take 9 sorted) !! j = Some b ->
            (b <= a)%Q).
  { intros i j a b Hij Hj Ha Hb. rewrite list_lookup_fmap in Ha, Hb.
    destruct (take 9 sorted !! i) as [x|] eqn:Hx; [|discriminate].
    destruct (take 9 sorted !! j) as [y|] eqn:Hy; [|discriminate].
    injection Ha as <-. injection Hb as <-.
    rewrite lookup_take_lt in Hx, Hy by lia.
    apply Qle_bool_iff.
    revert Hsorted Hij Hx Hy. clear. intros Hs. revert i j.
    induction Hs as [|z l Hs IH Hall]; intros i j Hij Hi Hj; [discriminate|].
    destruct j as [|j]; [lia|]. simpl in Hj. destruct i as [|i].
    - injection Hi as <-. rewrite Forall_forall in Hall. apply Hall.
      eapply list_elem_of_lookup_2, Hj.
    - simpl in Hi. apply (IH i j); [lia|exact Hi|exact Hj]. }
  assert (Hrest : Permutation (zip (fst <$> take 9 sorted) (snd <$> take 9 sorted)
                               ++ drop 9 sorted) usage /\
                  forall a r, a ∈ snd <$> take 9 sorted -> r ∈ drop 9 sorted -> (r.2 <= a)%Q).
  { split.
    - rewrite zip_fst_snd, take_drop. now symmetry.
    - intros a r Ha Hr. apply list_elem_of_fmap in Ha as (x & -> & Hx).
      apply Qle_bool_iff. rewrite <- (take_drop 9 sorted) in Hsorted.
      apply (StronglySorted_app_1_elem_of _ _ _ _ _ Hsorted Hx Hr). }
  destruct Hrest as [Hrest1 Hrest2].
  assert (Hnone : Qlt_bool 0 (series_sum []) = false).
  { unfold Qlt_bool. apply negb_false_iff, Qle_bool_iff. rewrite sum_of_nothing.
    apply Qle_refl. }
  destruct (Qlt_bool 0 (series_sum (snd <$> drop 9 sorted))) eqn:Hother.
  - assert (Hfull : 9 < length sorted).
    { destruct (decide (9 < length sorted)) as [|Hshort]; [assumption|].
      exfalso. rewrite drop_ge in Hother by lia. simpl in Hother. congruence. }
    assert (Hl : length (fst <$> take 9 sorted) = 9)
      by (rewrite length_fmap, length_take; lia).
    assert (Hs : length (snd <$> take 9 sorted) = 9)
      by (rewrite length_fmap, length_take; lia).
    split; [discriminate|]. rewrite !length_app, Hl, Hs. simpl.
    split; [reflexivity|]. split; [lia|]. split; [|split].
    + intros i j a b Hij Hj Ha Hb.
      rewrite lookup_app_l in Ha by lia.
      rewrite lookup_app_l in Hb by lia.
      exact (Htop i j a b Hij Hj Ha Hb).
    + exists (drop 9 sorted).
      rewrite !take_app_length', !drop_app_length', Hother by (symmetry; assumption).
      split; [exact Hrest1|]. split; [exact Hrest2|reflexivity].
    + intros Hshort. change (length usage <= 9) in Hshort.
      rewrite (Permutation_length Hperm) in Hshort. lia.
  - split; [discriminate|]. rewrite !length_fmap.
    split; [reflexivity|]. split; [lia|]. split; [exact Htop|]. split.
    + exists (drop 9 sorted).
      rewrite (take_ge (fst <$> take 9 sorted)), (take_ge (snd <$> take 9 sorted)),
        (drop_ge (fst <$> take 9 sorted)), (drop_ge (snd <$> take 9 sorted)), Hother
        by (rewrite length_fmap; lia).
      split; [exact Hrest1|]. split; [exact Hrest2|reflexivity].
    + intros Hshort. change (length usage <= 9) in Hshort.
      rewrite (Permutation_length Hperm) in Hshort.
      rewrite take_ge by lia. rewrite zip_fst_snd. now symmetry.
Qed.

End PieChart.

(** The exact sum, and eleven services of which the last two fall outside
    the nine greatest. *)
Definition total (values : list Q) : Q := foldr Qplus 0%Q values.

Definition usage_per_service : list (string * Q) :=
  [("compute", 40%Q); ("storage", 35%Q); ("network", 30%Q); ("database", 25%Q);
   ("backup", 20%Q); ("search", 15%Q); ("cache", 12%Q); ("queue", 10%Q);
   ("logs", 8%Q); ("mail", 3%Q); ("dns", 2%Q)].

Lemma usage_per_service_chart :
  generate_usage_pie_chart total usage_per_service
  = Some (["compute"; "storage"; "network"; "database"; "backup"; "search";
           "cache"; "queue"; "logs"; "Other"],
          [40%Q; 35%Q; 30%Q; 25%Q; 20%Q; 15%Q; 12%Q; 10%Q; 8%Q; 5%Q]).
Proof. vm_compute. reflexivity. Qed.

Lemma pie_chart_shows_top_nine_and_other_witness :
  (total [] == 0)%Q /\
  match generate_usage_pie_chart total usage_per_service with
  | None => usage_per_service = []
  | Some (labels, sizes) =>
      usage_per_service <> [] /\
      length labels = length sizes /\
      length sizes <= 10 /\
      (forall i j a b, i < j -> j < 9 -> sizes !! i = Some a -> sizes !! j = Some b ->
         (b <= a)%Q) /\
      (exists rest,
         Permutation (zip (take 9 labels) (take 9 sizes) ++ rest) usage_per_service /\
         (forall a r, a ∈ take 9 sizes -> r ∈ rest -> (r.2 <= a)%Q) /\
         (drop 9 labels, drop 9 sizes)
         = if Qlt_bool 0 (total (snd <$> rest))
           then (["Other"], [total (snd <$> rest)])
           else ([], [])) /\
      (length usage_per_service <= 9 ->
         Permutation (zip labels sizes) usage_per_service)
  end.
Proof.
  split; [reflexivity|].
  exact (pie_chart_shows_top_nine_and_other total (Qeq_refl _) usage_per_service).
Defined.

End ServiceThree.

(** * Service eight: merge of several files *)

Module ServiceEight.

(** [get_ordinal(n)] *)
Definition get_ordinal (n : nat) : string :=
  if (10 <=? n)%nat && (n <=? 20)%nat then "th"
  else match n mod 10 with
       | 1 => "st"
       | 2 => "nd"
       | 3 => "rd"
       | _ => "th"
       end.

(** [get_ordinal_word(n)] *)
Definition get_ordinal_word (n : nat) : string :=
  match n with
  | 1 => "first"
  | 2 => "second"
  | 3 => "third"
  | 4 => "fourth"
  | 5 => "fifth"
  | _ => pretty n +:+ get_ordinal n
  end.

(** One entry of the configuration after [pd.read_excel]: the frame read
    ([None] when the read raises) and the merging column chosen for it. *)
Record File := mkFile {
  loaded : option DataFrame;
  merging_column : string
}.

(** What the run writes to the logger. *)
Inductive Log :=
| LogWarning (msg : string)
| LogError (file_number : nat).

(** [f"Warning: Column '{merging_column}' not found in file {i+1}. Skipping."] *)
Definition missing_column_warning (merging_column : string) (i : nat) : string :=
  "Warning: Column '" +:+ merging_column +:+ "' not found in file "
  +:+ pretty (i + 1) +:+ ". Skipping.".

(** [Series.astype(str)]: every cell becomes its text; NaN becomes the
    text "nan" (pandas before 3.0). *)
Definition astype_str (c : Cell) : Cell := CStr (cell_str c).

(** [Series.fillna(value)] *)
Definition fillna (value : Cell) (c : Cell) : Cell :=
  match c with CNaN => value | _ => c end.

(** [df[col] = f(df[col])] for a column of the frame. *)
Definition map_column (f : Cell -> Cell) (col : string) (df : DataFrame) : DataFrame :=
  match column_index df col with
  | Some k => mkDataFrame (columns df) (map (alter f k) (rows df))
  | None => df
  end.

(** [df.rename(columns={old: new})] *)
Definition rename (old new : string) (df : DataFrame) : DataFrame :=
  mkDataFrame (map (fun c => if bool_decide (c = old) then new else c) (columns df))
              (rows df).

(** [df[merging_column] = df[merging_column].astype(str).fillna('')] *)
Definition normalize_merge_key (merging_column : string) (df : DataFrame) : DataFrame :=
  map_column (fun c => fillna (CStr "") (astype_str c)) merging_column df.

Section Merge.

(** [pd.merge(merged_df, current_df, on='merge_key', how='outer',
    suffixes=('', suffix))], a function of pandas; [None] when it raises. *)
Variable pd_merge : DataFrame -> DataFrame -> string -> option DataFrame.

(** [for i, file_path in enumerate(file_paths)], with its [continue] and
    its [return None]. *)
Fixpoint merge_loop (files : list (nat * File)) (merged_df : option DataFrame)
    (log : list Log) : option DataFrame * list Log :=
  match files with
  | [] => (merged_df, log)
  | (i, file) :: files' =>
      match loaded file with
      | None => (None, log ++ [LogError (i + 1)])
      | Some df =>
          if bool_decide (merging_column file ∉ columns df) then
            merge_loop files' merged_df
              (log ++ [LogWarning (missing_column_warning (merging_column file) i)])
          else
            let df := normalize_merge_key (merging_column file) df in
            match merged_df with
            | None =>
                merge_loop files' (Some (rename (merging_column file) "merge_key" df)) log
            | Some merged =>
                let current_df := rename (merging_column file) "merge_key" df in
                let suffix := "_" +:+ get_ordinal_word (i + 1) in
                match pd_merge merged current_df suffix with
                | Some merged' => merge_loop files' (Some merged') log
                | None => (None, log ++ [LogError (i + 1)])
                end
            end
      end
  end.

(** [service_merge()]: the merged frame, or [None], and the log. *)
Definition service_merge (files : list File) : option DataFrame * list Log :=
  merge_loop (imap (fun i file => (i, file)) files) None [].


(** A table takes part in the merge unless it was read and lacks its
    merging column. *)
Definition has_merging_column (entry : nat * File) : bool :=
  match loaded entry.2 with
  | Some df => bool_decide (merging_column entry.2 ∈ columns df)
  | None => true
  end.

Lemma merge_loop_skips files :
  forall merged_df log log',
    (merge_loop files merged_df log).1
    = (merge_loop (List.filter has_merging_column files) merged_df log').1.
Proof.
  induction files as [|[i file] files IH]; intros merged_df log log'; simpl; [reflexivity|].
  unfold has_merging_column at 1. simpl.
  destruct (loaded file) as [df|] eqn:Hload; simpl; [|now rewrite Hload].
  destruct (decide (merging_column file ∈ columns df)) as [Hin|Hout].
  - rewrite (bool_decide_eq_true_2 _ Hin). simpl. rewrite Hload.
    rewrite bool_decide_eq_false_2 by (intros H; now apply H).
    destruct merged_df as [merged|]; [|apply IH].
    destruct (pd_merge _ _ _); [apply IH|reflexivity].
  - rewrite (bool_decide_eq_false_2 _ Hout).
    rewrite bool_decide_eq_true_2 by exact Hout. apply IH.
Qed.

(** The loop ends without a frame in two ways only: through its [except]
    branch, which logs the error, or with every table skipped. *)
Lemma merge_loop_outcome files :
  forall merged_df log,
    (forall n, LogError n ∉ log) ->
    (merge_loop files merged_df log).1 = None <->
    (exists n, LogError n ∈ (merge_loop files merged_df log).2) \/
    (merged_df = None /\
     Forall (fun entry => exists df, loaded entry.2 = Some df /\
                                     merging_column entry.2 ∉ columns df) files).
Proof.
  induction files as [|[i file] files IH]; intros merged_df log Hlog; simpl.
  - split; [auto|]. intros [[n Hn]|[H _]]; [now apply Hlog in Hn|exact H].
  - destruct (loaded file) as [df|] eqn:Hload; simpl.
    2:{ split; [|reflexivity]. intros _. left. exists (i + 1).
        apply elem_of_app. right. left. }
    case_bool_decide as Hcol.
    + rewrite IH.
      * rewrite Forall_cons. simpl. rewrite Hload.
        split; (intros [H|[Hm Hall]]; [now left|right]); [|tauto].
        split; [exact Hm|]. split; [eauto|exact Hall].
      * intros n Hn. apply elem_of_app in Hn as [Hn|Hn]; [now apply Hlog in Hn|].
        apply list_elem_of_singleton in Hn. discriminate.
    + assert (Hhere : ~ Forall (fun entry => exists df, loaded entry.2 = Some df /\
                                   merging_column entry.2 ∉ columns df) ((i, file) :: files)).
      { rewrite Forall_cons. simpl. rewrite Hload. intros [(df' & [= <-] & H) _].
        contradiction. }
      destruct merged_df as [merged|].
      * destruct (pd_merge _ _ _) as [merged'|]; simpl.
        -- rewrite IH by exact Hlog.
           split; (intros [H|[H _]]; [now left|discriminate]).
        -- split; [|reflexivity]. intros _. left. exists (i + 1).
           apply elem_of_app. right. left.
      * rewrite IH by exact Hlog.
        split; (intros [H|[H Hall]]; [now left|]); [discriminate|contradiction].
Qed.

(** C3, as the code has it.  A table that lacks its merging column is
    skipped: the loop logs a warning naming the column and the 1-based file
    number, keeps what was merged so far and goes on with the next table.
    The merged output is the one the remaining tables give, each with its
    original position.  The merge ends without a frame exactly when an
    exception is raised (a file cannot be read, or pandas' merge raises; the
    error is logged) or no table has its merging column. *)
Theorem table_without_key_is_skipped :
  (forall files i df col merged_df log,
     col ∉ columns df ->
     merge_loop ((i, mkFile (Some df) col) :: files) merged_df log
     = merge_loop files merged_df
         (log ++ [LogWarning (missing_column_warning col i)])) /\
  (forall files,
     (service_merge files).1
     = (merge_loop (List.filter has_merging_column (imap (fun i file => (i, file)) files))
                   None []).1) /\
  (forall files,
     (service_merge files).1 = None <->
     (exists n, LogError n ∈ (service_merge files).2) \/
     Forall (fun file => exists df, loaded file = Some df /\
                                    merging_column file ∉ columns df) files).
Proof.
  split; [|split].
  - intros files i df col merged_df log Hcol. simpl.
    now rewrite (bool_decide_eq_true_2 _ Hcol).
  - intros files. unfold service_merge. apply merge_loop_skips.
  - intros files. unfold service_merge.
    rewrite merge_loop_outcome by (intros n Hn; now apply elem_of_nil in Hn).
    assert (Hall : Forall (fun entry => exists df, loaded entry.2 = Some df /\
                             merging_column entry.2 ∉ columns df)
                          (imap (fun i file => (i, file)) files)
                   <-> Forall (fun file => exists df, loaded file = Some df /\
                                 merging_column file ∉ columns df) files).
    { rewrite !Forall_forall. split.
      - intros H file Hin. apply list_elem_of_lookup in Hin as [j Hj].
        apply (H (j, file)). apply elem_of_lookup_imap. eauto.
      - intros H [j file] Hin.
        apply elem_of_lookup_imap in Hin as (j' & file' & [= -> ->] & Hlk).
        simpl. apply H. eapply list_elem_of_lookup_2, Hlk. }
    rewrite Hall. tauto.
Qed.

(** C7, as the code has it.  The first table that has its merging column
    seeds the result: the column is renamed [merge_key] and each of its
    values that is not missing is replaced by its text as [str] gives it,
    blanks included; a text is kept as it is, without trimming. *)
Theorem seed_key_is_cast_to_text files i df col log k :
  column_index df col = Some k ->
  let seed := rename col "merge_key" (normalize_merge_key col df) in
  merge_loop ((i, mkFile (Some df) col) :: files) None log
  = merge_loop files (Some seed) log /\
  columns seed !! k = Some "merge_key" /\
  length (rows seed) = length (rows df) /\
  forall idx row c,
    rows df !! idx = Some row -> row !! k = Some c -> c <> CNaN ->
    exists row',
      rows seed !! idx = Some row' /\
      row' !! k = Some (CStr (cell_str c)) /\
      forall s, c = CStr s -> row' !! k = Some (CStr s).
Proof.
  intros Hk seed. pose proof (column_index_Some _ _ _ Hk) as Hcol.
  assert (Hseed : seed = mkDataFrame
            (map (fun c => if bool_decide (c = col) then "merge_key" else c) (columns df))
            (map (alter (fun c => fillna (CStr "") (astype_str c)) k) (rows df))).
  { subst seed. unfold normalize_merge_key, map_column. now rewrite Hk. }
  split; [|split; [|split]].
  - simpl. rewrite bool_decide_eq_false_2; [reflexivity|].
    intros H. apply H. eapply list_elem_of_lookup_2, Hcol.
  - rewrite Hseed. simpl. rewrite list_lookup_fmap, Hcol. simpl.
    now rewrite bool_decide_eq_true_2.
  - rewrite Hseed. simpl. apply length_map.
  - intros idx row c Hrow Hc Hna. rewrite Hseed. simpl.
    exists (alter (fun c => fillna (CStr "") (astype_str c)) k row).
    rewrite list_lookup_fmap, Hrow, list_lookup_alter_eq, Hc. simpl.
    split; [reflexivity|]. split; [reflexivity|]. now intros s ->.
Qed.


(** ** More on the merge loop *)

(** X13. A file that cannot be read ends the merge: [service_merge]
    returns [None] whatever was merged from the files before it and whatever
    files follow it. *)
Theorem unreadable_file_aborts_merge :
  forall before i col after merged_df log,
    (merge_loop (before ++ (i, mkFile None col) :: after) merged_df log).1 = None.
Proof.
  intros before i col after. induction before as [|[j file] before IH];
    intros merged_df log; simpl; [reflexivity|].
  destruct (loaded file) as [df|]; [|reflexivity].
  case_bool_decide; [apply IH|].
  destruct merged_df as [merged|]; [|apply IH].
  destruct (pd_merge _ _ _); [apply IH|reflexivity].
Qed.

Lemma merge_loop_all_skipped files :
  forall merged_df log,
    Forall (fun entry => exists df, loaded entry.2 = Some df /\
                                    merging_column entry.2 ∉ columns df) files ->
    merge_loop files merged_df log
    = (merged_df,
       log ++ map (fun entry =>
                     LogWarning (missing_column_warning (merging_column entry.2) entry.1))
                  files).
Proof.
  induction files as [|[i file] files IH]; intros merged_df log Hall; simpl.
  - now rewrite app_nil_r.
  - apply Forall_cons in Hall as [(df & Hload & Hcol) Hall]. simpl in Hload, Hcol.
    rewrite Hload, (bool_decide_eq_true_2 _ Hcol), IH by exact Hall.
    now rewrite <- app_assoc.
Qed.

Lemma merge_loop_some files :
  forall merged_df log,
    is_Some (merge_loop files merged_df log).1 ->
    is_Some merged_df \/
    exists entry df, entry ∈ files /\ loaded entry.2 = Some df /\
                     merging_column entry.2 ∈ columns df.
Proof.
  induction files as [|[i file] files IH]; intros merged_df log; simpl; [auto|].
  destruct (loaded file) as [df|] eqn:Hload; [|intros [? [=]]].
  case_bool_decide as Hcol.
  - intros H. apply IH in H as [H|(entry & df' & Hin & H)]; [auto|].
    right. exists entry, df'. split; [now right|exact H].
  - intros _. right. exists (i, file), df. split; [left|]. split; [exact Hload|].
    destruct (decide (merging_column file ∈ columns df)); [assumption|contradiction].
Qed.

(** X14. When every table is read but none has its merging column,
    [service_merge] returns [None] and the log holds one warning per table,
    in order, each naming the column and the 1-based file number.
    Conversely a merge that returns a frame had some table with its merging
    column. *)
Theorem merge_without_any_key :
  (forall files,
     Forall (fun file => exists df, loaded file = Some df /\
                                    merging_column file ∉ columns df) files ->
     service_merge files
     = (None, imap (fun i file =>
                      LogWarning (missing_column_warning (merging_column file) i)) files)) /\
  (forall files,
     is_Some (service_merge files).1 ->
     exists file df, file ∈ files /\ loaded file = Some df /\
                     merging_column file ∈ columns df).
Proof.
  split.
  - intros files Hall. unfold service_merge. rewrite merge_loop_all_skipped.
    + simpl. f_equal. apply list_eq. intros k.
      rewrite list_lookup_fmap, !list_lookup_imap. now destruct (files !! k).
    + apply Forall_forall. intros [i file] Hin.
      apply elem_of_lookup_imap in Hin as (j & file' & [= -> ->] & Hlk). simpl.
      eapply Forall_lookup_1 in Hall; [exact Hall|exact Hlk].
  - intros files H. unfold service_merge in H.
    apply merge_loop_some in H as [[? [=]]|([i file] & df & Hin & Hload & Hcol)].
    exists file, df. split; [|auto].
    apply elem_of_lookup_imap in Hin as (j & file' & [= -> ->] & Hlk).
    eapply list_elem_of_lookup_2, Hlk.
Qed.

End Merge.

(** A model of the outer join for the examples below: the columns of the
    left frame, then those of the right frame but its key, a right column
    whose name the left frame has taking the suffix; one row per pair of
    rows with the same key, rows without a partner filled with NaN; rows in
    key order. *)
Definition outer_join (left right : DataFrame) (suffix : string) : option DataFrame :=
  kl ← column_index left "merge_key";
  kr ← column_index right "merge_key";
  let key_of (k : nat) (row : list Cell) := default CNaN (row !! k) in
  let right_columns :=
    map (fun c => if bool_decide (c ∈ columns left) then c +:+ suffix else c)
        (delete kr (columns right)) in
  let matched :=
    mjoin (map (fun l =>
      match filter (fun r => key_of kr r = key_of kl l) (rows right) with
      | [] => [l ++ replicate (length right_columns) CNaN]
      | rs => map (fun r => l ++ delete kr r) rs
      end) (rows left)) in
  let right_only :=
    map (fun r => <[kl := key_of kr r]> (replicate (length (columns left)) CNaN) ++ delete kr r)
        (filter (fun r => key_of kr r ∉ map (key_of kl) (rows left)) (rows right)) in
  Some (mkDataFrame (columns left ++ right_columns)
          (stable_sort (fun r1 r2 => cmp_leb cell_compare (key_of kl r1) (key_of kl r2))
                       (matched ++ right_only))).

Definition customers : DataFrame :=
  mkDataFrame ["id"; "name"] [[CStr " a "; CStr "Ann"]; [CNaN; CStr "Bob"]; [CNum 7; CStr "Cid"]].

Definition invoices : DataFrame :=
  mkDataFrame ["ref"; "amount"] [[CStr "x"; CNum 10]].

Definition contacts : DataFrame :=
  mkDataFrame ["id"; "name"] [[CStr "7"; CStr "Cyd"]; [CStr "b"; CStr "Bea"]].


Definition suppliers : DataFrame :=
  mkDataFrame ["id"; "name"] [[CStr "c"; CStr "Cal"]; [CStr "7"; CStr "Sam"]].

(** C3, counterexample.  The second of two tables lacks its merging
    column [id]: the run still returns the first table as merged output, with
    a warning in the log. *)
Lemma merge_survives_table_without_key :
  service_merge outer_join [mkFile (Some contacts) "id"; mkFile (Some invoices) "id"]
  = (Some (mkDataFrame ["merge_key"; "name"] [[CStr "7"; CStr "Cyd"]; [CStr "b"; CStr "Bea"]]),
     [LogWarning "Warning: Column 'id' not found in file 2. Skipping."]).
Proof. vm_compute; reflexivity. Qed.

(** A third table is joined to the first after the second was skipped, and
    its colliding column takes the suffix of its own position. *)
Lemma third_table_joins_after_skipped_second :
  service_merge outer_join
    [mkFile (Some contacts) "id"; mkFile (Some invoices) "id"; mkFile (Some suppliers) "id"]
  = (Some (mkDataFrame ["merge_key"; "name"; "name_third"]
             [[CStr "7"; CStr "Cyd"; CStr "Sam"];
              [CStr "b"; CStr "Bea"; CNaN];
              [CStr "c"; CNaN; CStr "Cal"]]),
     [LogWarning "Warning: Column 'id' not found in file 2. Skipping."]).
Proof. vm_compute; reflexivity. Qed.

Definition padded_keys : DataFrame :=
  mkDataFrame ["id"; "name"] [[CStr " a "; CStr "Ann"]].

(** C7, counterexample.  The key " a " of the first table reaches the
    merged frame with its blanks. *)
Lemma seed_key_is_not_trimmed :
  service_merge outer_join [mkFile (Some padded_keys) "id"]
  = (Some (mkDataFrame ["merge_key"; "name"] [[CStr " a "; CStr "Ann"]]), []).
Proof. vm_compute; reflexivity. Qed.

(** The numeric key 7 of [customers] seeds the result as the text "7". *)
Lemma seed_key_is_cast_to_text_witness :
  exists row',
    rows (rename "id" "merge_key" (normalize_merge_key "id" customers)) !! 2 = Some row' /\
    row' !! 0 = Some (CStr "7").
Proof.
  destruct (seed_key_is_cast_to_text outer_join [] 0 customers "id" [] 0 eq_refl)
    as (_ & _ & _ & H).
  destruct (H 2 [CNum 7; CStr "Cid"] (CNum 7) eq_refl eq_refl) as (row' & Hrow & Hcell & _);
    [discriminate|].
  exists row'. split; [exact Hrow|exact Hcell].
Defined.

(** With [astype(str)] before [fillna('')] a missing key is the text "nan"
    by the time [fillna] looks at it. *)
Lemma missing_key_becomes_text :
  fillna (CStr "") (astype_str CNaN) = CStr "nan".
Proof. reflexivity. Qed.


(** ** Ordinal suffixes *)

Definition is_digit (a : ascii) : bool :=
  (48 <=? nat_of_ascii a) && (nat_of_ascii a <=? 57).

Definition starts_with_digit (s : string) : bool :=
  match s with
  | String a _ => is_digit a
  | EmptyString => true
  end.

Lemma pretty_N_go_starts_with_digit x s :
  starts_with_digit s = true -> starts_with_digit (pretty_N_go x s) = true.
Proof.
  revert s. induction (N.lt_wf_0 x) as [x _ IH]; intros s Hs.
  assert (x = 0 \/ 0 < x)%N as [->|Hx] by lia; [now rewrite pretty_N_go_0|].
  rewrite pretty_N_go_step by exact Hx. apply IH; [now apply N.div_lt|].
  simpl. unfold pretty_N_char. repeat case_match; reflexivity.
Qed.

Lemma pretty_nat_starts_with_digit (n : nat) : starts_with_digit (pretty n) = true.
Proof.
  unfold pretty, pretty_nat, pretty, pretty_N. case_decide; [reflexivity|].
  now apply pretty_N_go_starts_with_digit.
Qed.

Lemma get_ordinal_length n : String.length (get_ordinal n) = 2.
Proof.
  unfold get_ordinal. destruct ((10 <=? n) && (n <=? 20)); [reflexivity|].
  destruct (n mod 10) as [|[|[|[|k]]]]; reflexivity.
Qed.

Lemma string_app_length (s t : string) :
  String.length (s +:+ t) = String.length s + String.length t.
Proof. induction s as [|a s IH]; simpl; [reflexivity|]. now rewrite IH. Qed.

Lemma string_app_inj_tail (s1 s2 t1 t2 : string) :
  s1 +:+ t1 = s2 +:+ t2 -> String.length t1 = String.length t2 -> s1 = s2.
Proof.
  revert s2. induction s1 as [|a s1 IH]; intros [|b s2] H Hlen; simpl in H.
  - reflexivity.
  - apply (f_equal String.length) in H. rewrite !string_app_length in H. simpl in H. lia.
  - apply (f_equal String.length) in H. rewrite !string_app_length in H. simpl in H. lia.
  - injection H as -> H. f_equal. now apply IH.
Qed.

(** The positions spelled with a word, and the others. *)
Definition has_ordinal_word (n : nat) : bool := (1 <=? n) && (n <=? 5).

Lemma get_ordinal_word_numeric n :
  has_ordinal_word n = false -> get_ordinal_word n = pretty n +:+ get_ordinal n.
Proof. destruct n as [|[|[|[|[|[|n]]]]]]; intros H; try discriminate; reflexivity. Qed.

Lemma get_ordinal_word_starts_with_letter n :
  has_ordinal_word n = true -> starts_with_digit (get_ordinal_word n) = false.
Proof. destruct n as [|[|[|[|[|[|n]]]]]]; intros H; try discriminate; reflexivity. Qed.

Lemma numeric_ordinal_starts_with_digit n :
  starts_with_digit (pretty n +:+ get_ordinal n) = true.
Proof.
  pose proof (pretty_nat_starts_with_digit n) as H.
  destruct (pretty n) as [|a s] eqn:E; [|exact H].
  exfalso.
  assert (Hne : pretty n <> "").
  { intros HE. unfold pretty, pretty_nat, pretty, pretty_N in HE.
    case_decide; [discriminate|].
    assert (Hlen : forall x s, String.length s <= String.length (pretty_N_go x s)).
    { intros x. induction (N.lt_wf_0 x) as [x _ IH]; intros s.
      assert (x = 0 \/ 0 < x)%N as [->|Hx] by lia; [now rewrite pretty_N_go_0|].
      rewrite pretty_N_go_step by exact Hx.
      etransitivity; [|apply IH; now apply N.div_lt]. simpl. lia. }
    assert (Hpos : (0 < N.of_nat n)%N) by lia.
    rewrite pretty_N_go_step in HE by exact Hpos.
    specialize (Hlen (N.of_nat n `div` 10)%N
                  (String (pretty_N_char (N.of_nat n `mod` 10)) "")).
    rewrite HE in Hlen. simpl in Hlen. lia. }
  apply Hne. rewrite E. reflexivity.
Qed.

(** X15. [get_ordinal_word] never gives the same text for two different
    numbers, so the suffixes "_second", "_third", ... that the merge gives to
    colliding columns differ from table to table. *)
Theorem get_ordinal_word_injective :
  forall n m, get_ordinal_word n = get_ordinal_word m -> n = m.
Proof.
  intros n m H.
  destruct (has_ordinal_word n) eqn:Hn, (has_ordinal_word m) eqn:Hm.
  - destruct n as [|[|[|[|[|[|n]]]]]]; try discriminate;
      destruct m as [|[|[|[|[|[|m]]]]]]; try discriminate; reflexivity.
  - pose proof (get_ordinal_word_starts_with_letter n Hn) as Hl.
    rewrite H, (get_ordinal_word_numeric m Hm), numeric_ordinal_starts_with_digit in Hl.
    discriminate.
  - pose proof (get_ordinal_word_starts_with_letter m Hm) as Hl.
    rewrite <- H, (get_ordinal_word_numeric n Hn), numeric_ordinal_starts_with_digit in Hl.
    discriminate.
  - rewrite (get_ordinal_word_numeric n Hn), (get_ordinal_word_numeric m Hm) in H.
    apply string_app_inj_tail in H; [|now rewrite !get_ordinal_length].
    now apply (inj pretty).
Qed.

Lemma get_ordinal_word_injective_witness :
  get_ordinal_word 21 = get_ordinal_word 21 /\ 21 = 21.
Proof.
  split; [reflexivity|]. exact (get_ordinal_word_injective 21 21 eq_refl).
Defined.

(** ** Saving the merged frame *)

(** [DataFrame.empty]: no column or no row. *)
Definition df_empty (df : DataFrame) : bool :=
  match columns df, rows df with
  | [], _ | _, [] => true
  | _, _ => false
  end.

(** [save_to_excel(merged_df)] up to the write: the frame that goes to the
    sheet [Data], or [None] when the function returns without writing. *)
Definition save_to_excel (merged_df : option DataFrame) (selected_columns : list string)
    : option DataFrame :=
  match merged_df with
  | None => None
  | Some merged_df =>
      if df_empty merged_df then None
      else
        let valid_columns := filter (fun col => col ∈ columns merged_df) selected_columns in
        match valid_columns with
        | [] => None
        | _ => Some (ServiceTwo.select valid_columns merged_df)
        end
  end.

(** X16. [save_to_excel] writes nothing when there is no merged frame,
    when the frame is empty, or when none of the selected columns is a column
    of the frame.  Otherwise the sheet has the selected columns that exist,
    in the order of the selection, every row of the merged frame, and in a
    well-formed frame every cell as in the merged frame. *)
Theorem save_to_excel_trims_to_selection :
  forall merged_df selected_columns,
    (save_to_excel merged_df selected_columns = None <->
       merged_df = None \/
       exists df, merged_df = Some df /\
         (df_empty df = true \/ forall col, col ∈ selected_columns -> col ∉ columns df)) /\
    forall df sheet,
      merged_df = Some df ->
      save_to_excel merged_df selected_columns = Some sheet ->
      columns sheet = filter (fun col => col ∈ columns df) selected_columns /\
      length (rows sheet) = length (rows df) /\
      (ServiceTwo.well_formed df ->
       forall idx col, col ∈ columns sheet -> iloc sheet idx col = iloc df idx col).
Proof.
  intros merged_df selected_columns. split.
  - destruct merged_df as [df|]; simpl; [|split; auto].
    destruct (df_empty df) eqn:He.
    + split; [|reflexivity]. intros _. right. exists df. auto.
    + destruct (filter _ selected_columns) as [|c l] eqn:Hf.
      * split; [|reflexivity]. intros _. right. exists df. split; [reflexivity|]. right.
        intros col Hcol Hin.
        assert (Hc : col ∈ filter (fun col => col ∈ columns df) selected_columns)
          by (apply list_elem_of_filter; auto).
        rewrite Hf in Hc. now apply elem_of_nil in Hc.
      * split; [discriminate|]. intros [[=]|(df' & [= <-] & [H|H])]; [congruence|].
        exfalso. assert (Hc : c ∈ filter (fun col => col ∈ columns df) selected_columns)
          by (rewrite Hf; left).
        apply list_elem_of_filter in Hc as [Hc1 Hc2]. now apply (H c).
  - intros df sheet -> H. simpl in H.
    destruct (df_empty df); [discriminate|].
    destruct (filter _ selected_columns) as [|c l] eqn:Hf; [discriminate|].
    injection H as <-. simpl. split; [reflexivity|]. split; [apply length_map|].
    intros Hwf idx col Hcol. apply ServiceTwo.iloc_select_well_formed; [exact Hwf|exact Hcol|].
    rewrite <- Hf in Hcol. now apply list_elem_of_filter in Hcol as [Hcol _].
Qed.

End ServiceEight.

(** * Utilities  (_utils/functions.py) *)

Module Utils.

(** ** Sheet names

    A Python [str] is a sequence of characters; the characters here are the
    code points below 256. *)

(** [string.replace(char, '_')] for texts of one character. *)
Fixpoint replace (old new : ascii) (s : string) : string :=
  match s with
  | String a s' => String (if Ascii.eqb a old then new else a) (replace old new s')
  | EmptyString => EmptyString
  end.

Definition invalid_chars : list ascii :=
  ["/"; "\"; "?"; "*"; "["; "]"; ":"]%char.

(** [for char in invalid_chars: string = string.replace(char, '_')] and
    then [string[:31]]. *)
Definition clean_sheet_name (s : string) : string :=
  substring 0 31 (fold_left (fun string char => replace char "_" string) invalid_chars s).

Definition sanitize (a : ascii) : ascii :=
  if decide (a ∈ invalid_chars) then "_"%char else a.

Fixpoint map_string (f : ascii -> ascii) (s : string) : string :=
  match s with
  | String a s' => String (f a) (map_string f s')
  | EmptyString => EmptyString
  end.

Lemma fold_replace_cons (l : list ascii) a s :
  fold_left (fun string char => replace char "_" string) l (String a s)
  = String (fold_left (fun c char => if Ascii.eqb c char then "_"%char else c) l a)
           (fold_left (fun string char => replace char "_" string) l s).
Proof.
  revert a s. induction l as [|c l IH]; intros a s; simpl; [reflexivity|]. apply IH.
Qed.

Lemma fold_replace_nil (l : list ascii) :
  fold_left (fun string char => replace char "_" string) l "" = "".
Proof. induction l as [|c l IH]; simpl; auto. Qed.

Lemma sanitize_fold a :
  fold_left (fun c char => if Ascii.eqb c char then "_"%char else c) invalid_chars a
  = sanitize a.
Proof.
  destruct a as [[] [] [] [] [] [] [] []]; vm_compute; reflexivity.
Qed.

Lemma replaced_is_map s :
  fold_left (fun string char => replace char "_" string) invalid_chars s
  = map_string sanitize s.
Proof.
  induction s as [|a s IH]; [apply fold_replace_nil|].
  rewrite fold_replace_cons, sanitize_fold, IH. reflexivity.
Qed.

Lemma clean_sheet_name_eq s :
  clean_sheet_name s = substring 0 31 (map_string sanitize s).
Proof. unfold clean_sheet_name. now rewrite replaced_is_map. Qed.

Lemma sanitize_valid a : sanitize a ∉ invalid_chars.
Proof.
  unfold sanitize. destruct (decide (a ∈ invalid_chars)) as [H|H]; [|exact H].
  vm_compute. intros Hin. repeat (apply elem_of_cons in Hin as [Hin|Hin]; [discriminate|]).
  now apply elem_of_nil in Hin.
Qed.

Lemma sanitize_id a : a ∉ invalid_chars -> sanitize a = a.
Proof. intros H. unfold sanitize. now destruct (decide (a ∈ invalid_chars)). Qed.

Lemma length_prefix n s :
  String.length (substring 0 n s) = Nat.min n (String.length s).
Proof.
  revert s. induction n as [|n IH]; intros [|a s]; simpl; auto.
Qed.

Lemma length_map_string f s : String.length (map_string f s) = String.length s.
Proof. induction s as [|a s IH]; simpl; auto. Qed.

Lemma get_prefix n i s :
  String.get i (substring 0 n s) = if decide (i < n) then String.get i s else None.
Proof.
  revert i s. induction n as [|n IH]; intros i [|a s]; simpl.
  - now destruct (decide (i < 0)), i.
  - destruct (decide (i < 0)); [lia|]. reflexivity.
  - now destruct (decide (i < S n)), i.
  - destruct i as [|i]; simpl.
    + destruct (decide (0 < S n)); [reflexivity|lia].
    + rewrite IH. destruct (decide (i < n)), (decide (S i < S n)); auto; lia.
Qed.

Lemma get_map_string f i s :
  String.get i (map_string f s) = f <$> String.get i s.
Proof.
  revert i. induction s as [|a s IH]; intros [|i]; simpl; auto.
Qed.

Lemma prefix_map_string f n s :
  substring 0 n (map_string f s) = map_string f (substring 0 n s).
Proof.
  revert s. induction n as [|n IH]; intros [|a s]; simpl; auto. now rewrite IH.
Qed.

Lemma prefix_prefix n s : substring 0 n (substring 0 n s) = substring 0 n s.
Proof.
  revert s. induction n as [|n IH]; intros [|a s]; simpl; auto. now rewrite IH.
Qed.

Lemma prefix_short n s : String.length s <= n -> substring 0 n s = s.
Proof.
  revert s. induction n as [|n IH]; intros [|a s] H; simpl in *; auto.
  - lia.
  - rewrite IH by lia. reflexivity.
Qed.

Lemma prefix_app n s t :
  n <= String.length s -> substring 0 n (s +:+ t) = substring 0 n s.
Proof.
  revert s. induction n as [|n IH]; intros [|a s] H; simpl in *; auto; try lia.
  - now destruct t.
  - rewrite IH; [reflexivity|]. apply le_S_n, H.
Qed.

Lemma map_string_app f s t : map_string f (s +:+ t) = map_string f s +:+ map_string f t.
Proof. induction s as [|a s IH]; simpl; [reflexivity|]. now rewrite IH. Qed.

Lemma map_string_idemp f s :
  (forall a, f (f a) = f a) -> map_string f (map_string f s) = map_string f s.
Proof. intros Hf. induction s as [|a s IH]; simpl; [reflexivity|]. now rewrite Hf, IH. Qed.

Lemma map_string_id f s :
  (forall i a, String.get i s = Some a -> f a = a) -> map_string f s = s.
Proof.
  induction s as [|a s IH]; intros H; simpl; [reflexivity|].
  rewrite (H 0 a eq_refl), IH; [reflexivity|].
  intros i b Hb. apply (H (S i)). exact Hb.
Qed.

(** X20. [clean_sheet_name] gives a name of at most 31 characters, none
    of them one of [/ \ ? * [ ] :].  Each of the first 31 characters of the
    input is kept in its place, an invalid one as an underscore.  A name
    that is already clean comes back unchanged, so cleaning twice is cleaning
    once; whatever follows the 31st character does not reach the result, so
    two long names with the same first 31 characters get the same sheet
    name. *)
Theorem clean_sheet_name_is_valid :
  forall s,
    String.length (clean_sheet_name s) = Nat.min 31 (String.length s) /\
    (forall i a, String.get i (clean_sheet_name s) = Some a -> a ∉ invalid_chars) /\
    (forall i a, i < 31 -> String.get i s = Some a ->
       String.get i (clean_sheet_name s)
       = Some (if decide (a ∈ invalid_chars) then "_"%char else a)) /\
    (String.length s <= 31 ->
     (forall i a, String.get i s = Some a -> a ∉ invalid_chars) ->
     clean_sheet_name s = s) /\
    clean_sheet_name (clean_sheet_name s) = clean_sheet_name s /\
    (forall t, 31 <= String.length s -> clean_sheet_name (s +:+ t) = clean_sheet_name s).
Proof.
  intros s. rewrite !clean_sheet_name_eq.
  split; [now rewrite length_prefix, length_map_string|].
  split; [|split; [|split; [|split]]].
  - intros i a. rewrite get_prefix, get_map_string.
    destruct (decide (i < 31)); [|discriminate].
    destruct (String.get i s) as [b|]; [|discriminate].
    intros [= <-]. apply sanitize_valid.
  - intros i a Hi Ha. rewrite get_prefix, get_map_string, Ha.
    destruct (decide (i < 31)); [reflexivity|lia].
  - intros Hlen Hvalid. rewrite prefix_short by now rewrite length_map_string.
    apply map_string_id. intros i a Ha. apply sanitize_id. eapply Hvalid, Ha.
  - rewrite !prefix_map_string, prefix_prefix.
    apply map_string_idemp. intros a. apply sanitize_id, sanitize_valid.
  - intros t Hlen. rewrite clean_sheet_name_eq, map_string_app.
    apply prefix_app. now rewrite length_map_string.
Qed.

(** ** Header row *)

Section HeaderFinder.

(** [str(val).strip()] for a value of the sheet. *)
Variable stripped_text : Cell -> string.

(** [auto_header_finder(file_data, column_name)].  [sheet] is what
    [pd.read_excel(..., header=None)] finds in the file: the rows of the
    sheet, or [None] when the read raises; [nrows=20] keeps the first twenty
    rows. *)
Definition auto_header_finder (sheet : option (list (list Cell))) (column_name : string)
    : nat :=
  match sheet with
  | Some sheet_rows =>
      let excel1 := take 20 sheet_rows in
      match list_find (fun row => column_name ∈ (stripped_text <$> row)) excel1 with
      | Some (i, _) => i
      | None => 0
      end
  | None => 0
  end.

(** X21. [auto_header_finder] answers with a row among the first twenty.
    When one of the first twenty rows holds the column name in one of its
    cells, the answer is the first such row; otherwise, also when the name
    only occurs further down or the sheet cannot be read, the answer is row
    0, as if the header were found there. *)
Theorem auto_header_finder_first_match :
  forall sheet_rows column_name,
    auto_header_finder None column_name = 0 /\
    auto_header_finder (Some sheet_rows) column_name < 20 /\
    ((exists row,
        sheet_rows !! auto_header_finder (Some sheet_rows) column_name = Some row /\
        column_name ∈ (stripped_text <$> row) /\
        forall j row', j < auto_header_finder (Some sheet_rows) column_name ->
          sheet_rows !! j = Some row' -> column_name ∉ (stripped_text <$> row'))
     \/
     (auto_header_finder (Some sheet_rows) column_name = 0 /\
      forall j row', j < 20 -> sheet_rows !! j = Some row' ->
        column_name ∉ (stripped_text <$> row'))).
Proof.
  intros sheet_rows column_name. split; [reflexivity|]. unfold auto_header_finder.
  destruct (list_find _ (take 20 sheet_rows)) as [[i row]|] eqn:E.
  - apply list_find_Some in E as (Hi & Hrow & Hfirst).
    pose proof (lookup_lt_Some _ _ _ Hi) as Hlt. rewrite length_take in Hlt.
    split; [lia|]. left. exists row.
    rewrite lookup_take_lt in Hi by lia. split; [exact Hi|]. split; [exact Hrow|].
    intros j row' Hj Hrow'. apply (Hfirst j row'); [|exact Hj].
    rewrite lookup_take_lt by lia. exact Hrow'.
  - split; [lia|]. right. split; [reflexivity|].
    intros j row' Hj Hrow'. rewrite list_find_None, Forall_forall in E.
    apply E. apply list_elem_of_lookup. exists j. rewrite lookup_take_lt by lia. exact Hrow'.
Qed.

End HeaderFinder.

End Utils.

(** * Configuration  (_config/settings.py) *)

Module Settings.

(** What [json.load] reads and [json.dump] writes: a dict is a finite map
    from its keys to values. *)
#[local] Unset Elimination Schemes.
Inductive Json :=
| JNull
| JBool (b : bool)
| JNum (n : Q)
| JStr (s : string)
| JArr (items : list Json)
| JObj (members : gmap string Json).
#[local] Set Elimination Schemes.

(** The file [config/config.json]: missing, not a JSON text, or the JSON
    text of a value. *)
Inductive ConfigFile := Missing | Corrupted | Stored (config : Json).

(** [load_config()]: an empty dict when the file is missing or corrupted. *)
Definition load_config (file : ConfigFile) : Json :=
  match file with
  | Stored config => config
  | Missing | Corrupted => JObj ∅
  end.

(** [save_config(config)]: when the file cannot be opened for writing the
    [IOError] is logged and the file stays as it is. *)
Definition save_config (writable : bool) (config : Json) (file : ConfigFile) : ConfigFile :=
  if writable then Stored config else file.

(** [if service not in config: config[service] = {}].  With a config that
    is not a dict the test, the assignment or the item assignment that
    follows raises [TypeError]. *)
Definition ensure_service (service : string) (config : Json) : option Json :=
  match config with
  | JObj members =>
      match members !! service with
      | Some _ => Some config
      | None => Some (JObj (<[service := JObj ∅]> members))
      end
  | _ => None
  end.

(** [config[service][key] = value]; [None] is the [TypeError] of an entry
    that is not a dict. *)
Definition set_item (service key : string) (value : Json) (config : Json) : option Json :=
  match config with
  | JObj members =>
      match members !! service with
      | Some (JObj entry) =>
          Some (JObj (<[service := JObj (<[key := value]> entry)]> members))
      | _ => None
      end
  | _ => None
  end.

Definition service_one_file1 : Json :=
  JObj (list_to_map [("file_path", JStr ""); ("sheet_name", JStr "");
                     ("unique_id_column", JStr ""); ("forecast_column", JStr "");
                     ("extra_columns", JArr [])]).

Definition service_one_file2 : Json :=
  JObj (list_to_map [("file_path", JStr ""); ("sheet_name", JStr "");
                     ("unique_id_column", JStr ""); ("forecast_column", JStr "")]).

Definition service_two_file : Json :=
  JObj (list_to_map [("file_path", JStr ""); ("sheet_name", JStr "")]).

Section Clearing.
Variable writable : bool.

Definition clear_service_one_config (file : ConfigFile) : option ConfigFile :=
  config ← ensure_service "service_one" (load_config file);
  config ← set_item "service_one" "file1" service_one_file1 config;
  config ← set_item "service_one" "file2" service_one_file2 config;
  Some (save_config writable config file).

Definition clear_service_two_config (file : ConfigFile) : option ConfigFile :=
  config ← ensure_service "service_two" (load_config file);
  config ← set_item "service_two" "file1" service_two_file config;
  config ← set_item "service_two" "file2" service_two_file config;
  config ← set_item "service_two" "unique_id_column" (JStr "") config;
  config ← set_item "service_two" "compare_columns" (JArr []) config;
  Some (save_config writable config file).

Definition clear_service_eight_config (file : ConfigFile) : option ConfigFile :=
  config ← ensure_service "service_eight" (load_config file);
  config ← set_item "service_eight" "file_paths" (JArr []) config;
  config ← set_item "service_eight" "sheet_names" (JArr []) config;
  config ← set_item "service_eight" "merging_columns" (JArr []) config;
  config ← set_item "service_eight" "selected_columns" (JArr []) config;
  Some (save_config writable config file).

(** [terminate_program()]: an exception of one clearing function ends it. *)
Definition terminate_program (file : ConfigFile) : option ConfigFile :=
  file ← clear_service_one_config file;
  file ← clear_service_two_config file;
  clear_service_eight_config file.

End Clearing.

(** ** What the clearing functions do to a config *)

(** The entry of a service as the clearing functions find it: the dict
    stored under its name, an empty dict when there is none; nothing when
    something else than a dict is stored there or the config is no dict. *)
Definition entry (service : string) (config : Json) : option (gmap string Json) :=
  match config with
  | JObj members =>
      match members !! service with
      | Some (JObj e) => Some e
      | Some _ => None
      | None => Some ∅
      end
  | _ => None
  end.

(** [config.get(key)] of a dict. *)
Definition get (key : string) (config : Json) : option Json :=
  match config with
  | JObj members => members !! key
  | _ => None
  end.

Definition services : list string := ["service_one"; "service_two"; "service_eight"].

Definition service_one_items : list (string * Json) :=
  [("file1", service_one_file1); ("file2", service_one_file2)].

Definition service_two_items : list (string * Json) :=
  [("file1", service_two_file); ("file2", service_two_file);
   ("unique_id_column", JStr ""); ("compare_columns", JArr [])].

Definition service_eight_items : list (string * Json) :=
  [("file_paths", JArr []); ("sheet_names", JArr []);
   ("merging_columns", JArr []); ("selected_columns", JArr [])].

(** An entry with the given items set, one after the other. *)
Definition reset (items : list (string * Json)) (e : gmap string Json) : gmap string Json :=
  foldl (fun e item => <[item.1 := item.2]> e) e items.

(** The config with the items of one service set. *)
Definition cleared (service : string) (items : list (string * Json)) (config : Json)
    : option Json :=
  match config with
  | JObj members =>
      e ← entry service config;
      Some (JObj (<[service := JObj (reset items e)]> members))
  | _ => None
  end.

Lemma set_items service items members e :
  members !! service = Some (JObj e) ->
  foldlM (fun config item => set_item service item.1 item.2 config) (JObj members) items
  = Some (JObj (<[service := JObj (reset items e)]> members)).
Proof.
  revert members e. induction items as [|x items IH]; intros members e Hm.
  - simpl. now rewrite insert_id.
  - simpl. rewrite Hm. simpl. rewrite (IH _ (<[x.1 := x.2]> e)) by apply lookup_insert_eq.
    now rewrite insert_insert_eq.
Qed.

Lemma clear_is_cleared service item items config :
  ensure_service service config ≫=
    (fun config => foldlM (fun config item => set_item service item.1 item.2 config)
                     config (item :: items))
  = cleared service (item :: items) config.
Proof.
  destruct config as [| | | | |members]; try reflexivity.
  unfold cleared, entry, ensure_service.
  destruct (members !! service) as [v|] eqn:Hv.
  - destruct v as [| | | | |e]; try (simpl; now rewrite Hv).
    cbn [mbind option_bind]. now apply set_items.
  - cbn [mbind option_bind].
    rewrite (set_items service (item :: items) _ ∅) by apply lookup_insert_eq.
    now rewrite insert_insert_eq.
Qed.

Lemma clear_service_one_config_eq writable file :
  clear_service_one_config writable file
  = (fun config => save_config writable config file)
      <$> cleared "service_one" service_one_items (load_config file).
Proof.
  unfold service_one_items. rewrite <- clear_is_cleared. unfold clear_service_one_config.
  destruct (ensure_service _ _) as [c0|]; [|reflexivity]. simpl.
  destruct (set_item _ _ _ c0) as [c1|]; [|reflexivity]. simpl.
  destruct (set_item _ _ _ c1) as [c2|]; reflexivity.
Qed.

Lemma clear_service_two_config_eq writable file :
  clear_service_two_config writable file
  = (fun config => save_config writable config file)
      <$> cleared "service_two" service_two_items (load_config file).
Proof.
  unfold service_two_items. rewrite <- clear_is_cleared. unfold clear_service_two_config.
  destruct (ensure_service _ _) as [c0|]; [|reflexivity]. simpl.
  destruct (set_item _ _ _ c0) as [c1|]; [|reflexivity]. simpl.
  destruct (set_item _ _ _ c1) as [c2|]; [|reflexivity]. simpl.
  destruct (set_item _ _ _ c2) as [c3|]; [|reflexivity]. simpl.
  destruct (set_item _ _ _ c3) as [c4|]; reflexivity.
Qed.

Lemma clear_service_eight_config_eq writable file :
  clear_service_eight_config writable file
  = (fun config => save_config writable config file)
      <$> cleared "service_eight" service_eight_items (load_config file).
Proof.
  unfold service_eight_items. rewrite <- clear_is_cleared. unfold clear_service_eight_config.
  destruct (ensure_service _ _) as [c0|]; [|reflexivity]. simpl.
  destruct (set_item _ _ _ c0) as [c1|]; [|reflexivity]. simpl.
  destruct (set_item _ _ _ c1) as [c2|]; [|reflexivity]. simpl.
  destruct (set_item _ _ _ c2) as [c3|]; [|reflexivity]. simpl.
  destruct (set_item _ _ _ c3) as [c4|]; reflexivity.
Qed.

Lemma cleared_None service items config :
  cleared service items config = None <-> entry service config = None.
Proof.
  destruct config as [| | | | |members]; simpl; try tauto.
  destruct (members !! service) as [[| | | | |e]|]; simpl; split; congruence.
Qed.

Lemma cleared_entry_ne service items config config' service' :
  service' <> service ->
  cleared service items config = Some config' ->
  entry service' config' = entry service' config.
Proof.
  intros Hne. destruct config as [| | | | |members]; try discriminate. unfold cleared.
  destruct (entry service (JObj members)) as [e|]; [|discriminate].
  intros [= <-]. simpl. now rewrite lookup_insert_ne.
Qed.

Lemma cleared_get service items config config' key :
  key <> service ->
  cleared service items config = Some config' ->
  get key config' = get key config.
Proof.
  intros Hne. destruct config as [| | | | |members]; try discriminate. unfold cleared.
  destruct (entry service (JObj members)) as [e|]; [|discriminate].
  intros [= <-]. simpl. now rewrite lookup_insert_ne.
Qed.

(** The items win over what the entry held, the last of two items with the
    same key over the first. *)
Lemma lookup_reset items e key :
  reset items e !! key
  = match list_find (fun item => item.1 = key) (reverse items) with
    | Some (_, item) => Some item.2
    | None => e !! key
    end.
Proof.
  unfold reset. revert e. induction items as [|x items IH] using rev_ind; intros e.
  - reflexivity.
  - rewrite foldl_snoc, reverse_snoc. simpl.
    destruct (decide (x.1 = key)) as [<-|Hne].
    + now rewrite lookup_insert_eq.
    + rewrite lookup_insert_ne by exact Hne. rewrite IH.
      destruct (list_find _ (reverse items)) as [[i item]|]; reflexivity.
Qed.

Lemma reset_reset items e : reset items (reset items e) = reset items e.
Proof.
  apply map_eq. intros key. rewrite !lookup_reset.
  destruct (list_find _ (reverse items)) as [[i item]|]; reflexivity.
Qed.

Lemma cleared_get_service service items config config' :
  cleared service items config = Some config' ->
  exists e, entry service config = Some e /\
            get service config' = Some (JObj (reset items e)).
Proof.
  destruct config as [| | | | |members]; try discriminate. unfold cleared.
  destruct (entry service (JObj members)) as [e|]; [|discriminate].
  intros [= <-]. exists e. split; [reflexivity|]. simpl. now rewrite lookup_insert_eq.
Qed.

Lemma get_entry service config e :
  get service config = Some (JObj e) -> entry service config = Some e.
Proof.
  destruct config as [| | | | |members]; try discriminate. simpl. now intros ->.
Qed.

Lemma cleared_again service items config e :
  get service config = Some (JObj (reset items e)) ->
  cleared service items config = Some config.
Proof.
  intros Hg. pose proof (get_entry _ _ _ Hg) as He.
  destruct config as [| | | | |members]; try discriminate.
  unfold cleared. rewrite He. simpl. rewrite reset_reset.
  f_equal. f_equal. apply insert_id. exact Hg.
Qed.

Lemma terminate_program_eq writable file :
  terminate_program writable file =
    c1 ← cleared "service_one" service_one_items (load_config file);
    let file1 := save_config writable c1 file in
    c2 ← cleared "service_two" service_two_items (load_config file1);
    let file2 := save_config writable c2 file1 in
    c3 ← cleared "service_eight" service_eight_items (load_config file2);
    Some (save_config writable c3 file2).
Proof.
  unfold terminate_program. rewrite clear_service_one_config_eq.
  destruct (cleared "service_one" _ _) as [c1|]; [|reflexivity]. simpl.
  rewrite clear_service_two_config_eq.
  destruct (cleared "service_two" _ _) as [c2|]; [|reflexivity]. simpl.
  rewrite clear_service_eight_config_eq.
  destruct (cleared "service_eight" _ _) as [c3|]; reflexivity.
Qed.

(** X22. When [terminate_program] ends normally and the file can be
    written, the file holds a config in which the entry of each of the
    services one, two and eight is the entry found at the start (an empty
    dict when there was none) with the keys of its clearing function set to
    their empty values; the other keys of these entries and every other key
    of the config, the settings of service three among them, are as they
    were.  A missing or corrupted file counts as an empty config.  Running
    [terminate_program] once more changes nothing. *)
Theorem terminate_program_resets_services :
  forall file file',
    terminate_program true file = Some file' ->
    exists config',
      file' = Stored config' /\
      (exists e, entry "service_one" (load_config file) = Some e /\
                 entry "service_one" config' = Some (reset service_one_items e)) /\
      (exists e, entry "service_two" (load_config file) = Some e /\
                 entry "service_two" config' = Some (reset service_two_items e)) /\
      (exists e, entry "service_eight" (load_config file) = Some e /\
                 entry "service_eight" config' = Some (reset service_eight_items e)) /\
      (forall key, key ∉ services -> get key config' = get key (load_config file)) /\
      terminate_program true file' = Some file'.
Proof.
  intros file file'. rewrite terminate_program_eq. simpl.
  destruct (cleared "service_one" _ _) as [c1|] eqn:H1; [|discriminate]. simpl.
  destruct (cleared "service_two" _ _) as [c2|] eqn:H2; [|discriminate]. simpl.
  destruct (cleared "service_eight" _ _) as [c3|] eqn:H3; [|discriminate]. simpl.
  intros [= <-]. exists c3. split; [reflexivity|].
  destruct (cleared_get_service _ _ _ _ H1) as (e1 & He1 & Hg1).
  destruct (cleared_get_service _ _ _ _ H2) as (e2 & He2 & Hg2).
  destruct (cleared_get_service _ _ _ _ H3) as (e3 & He3 & Hg3).
  assert (Hg1' : get "service_one" c3 = Some (JObj (reset service_one_items e1))).
  { rewrite (cleared_get "service_eight" _ _ _ "service_one" ltac:(done) H3).
    now rewrite (cleared_get "service_two" _ _ _ "service_one" ltac:(done) H2). }
  assert (Hg2' : get "service_two" c3 = Some (JObj (reset service_two_items e2))).
  { now rewrite (cleared_get "service_eight" _ _ _ "service_two" ltac:(done) H3). }
  split; [|split; [|split; [|split]]].
  - exists e1. split; [exact He1|]. now apply get_entry.
  - exists e2. split; [|now apply get_entry].
    rewrite <- He2. symmetry.
    apply (cleared_entry_ne "service_one" _ _ _ "service_two" ltac:(done) H1).
  - exists e3. split; [|now apply get_entry].
    rewrite <- He3. symmetry.
    rewrite (cleared_entry_ne "service_two" _ _ _ "service_eight" ltac:(done) H2).
    apply (cleared_entry_ne "service_one" _ _ _ "service_eight" ltac:(done) H1).
  - intros key Hkey. unfold services in Hkey.
    rewrite !not_elem_of_cons in Hkey. destruct Hkey as (K1 & K2 & K3 & _).
    rewrite (cleared_get _ _ _ _ key K3 H3), (cleared_get _ _ _ _ key K2 H2).
    apply (cleared_get _ _ _ _ key K1 H1).
  - rewrite terminate_program_eq. simpl.
    rewrite (cleared_again _ _ _ _ Hg1'). simpl.
    rewrite (cleared_again _ _ _ _ Hg2'). simpl.
    rewrite (cleared_again _ _ _ _ Hg3). reflexivity.
Qed.

(** The config that [terminate_program] leaves where there was none. *)
Definition fresh_config : Json :=
  JObj (list_to_map
    [("service_one", JObj (list_to_map [("file1", service_one_file1);
                                        ("file2", service_one_file2)]));
     ("service_two", JObj (list_to_map [("file1", service_two_file);
                                        ("file2", service_two_file);
                                        ("unique_id_column", JStr "");
                                        ("compare_columns", JArr [])]));
     ("service_eight", JObj (list_to_map [("file_paths", JArr []);
                                          ("sheet_names", JArr []);
                                          ("merging_columns", JArr []);
                                          ("selected_columns", JArr [])]))]).

Lemma terminate_program_without_file :
  terminate_program true Missing = Some (Stored fresh_config) /\
  terminate_program true Corrupted = Some (Stored fresh_config).
Proof. split; vm_compute; reflexivity. Qed.

Lemma terminate_program_resets_services_witness :
  terminate_program true Corrupted = Some (Stored fresh_config) /\
  terminate_program true (Stored fresh_config) = Some (Stored fresh_config).
Proof.
  assert (H : terminate_program true Corrupted = Some (Stored fresh_config))
    by (vm_compute; reflexivity).
  split; [exact H|].
  destruct (terminate_program_resets_services Corrupted _ H) as (c & _ & _ & _ & _ & _ & Hid).
  exact Hid.
Defined.

(** X23. [terminate_program] raises exactly when the config read at the
    start is not a dict or stores something else than a dict under the name
    of service one, two or eight.  When the file cannot be written and
    nothing is raised, the file is left as it was. *)
Theorem terminate_program_raises_on_bad_entry :
  forall writable file,
    (terminate_program writable file = None <->
       exists service, service ∈ services /\ entry service (load_config file) = None) /\
    (terminate_program false file = None \/ terminate_program false file = Some file).
Proof.
  intros writable file. split.
  - rewrite terminate_program_eq.
    assert (Hex : (exists service, service ∈ services /\ entry service (load_config file) = None)
                  <-> entry "service_one" (load_config file) = None \/
                      entry "service_two" (load_config file) = None \/
                      entry "service_eight" (load_config file) = None).
    { split.
      - intros (service & Hin & He). unfold services in Hin.
        rewrite !elem_of_cons in Hin.
        destruct Hin as [->|[->|[->|Hin]]]; auto. now apply elem_of_nil in Hin.
      - unfold services. intros [H|[H|H]]; eexists; (split; [|exact H]); set_solver. }
    rewrite Hex. clear Hex.
    destruct (cleared "service_one" _ _) as [c1|] eqn:H1; simpl.
    2:{ apply cleared_None in H1. tauto. }
    assert (He1 : entry "service_one" (load_config file) <> None).
    { intros H. apply (cleared_None _ service_one_items) in H. congruence. }
    assert (He2 : entry "service_two" (load_config (save_config writable c1 file))
                  = entry "service_two" (load_config file)).
    { destruct writable; [|reflexivity]. simpl.
      apply (cleared_entry_ne "service_one" _ _ _ "service_two" ltac:(done) H1). }
    assert (He3 : entry "service_eight" (load_config (save_config writable c1 file))
                  = entry "service_eight" (load_config file)).
    { destruct writable; [|reflexivity]. simpl.
      apply (cleared_entry_ne "service_one" _ _ _ "service_eight" ltac:(done) H1). }
    destruct (cleared "service_two" _ _) as [c2|] eqn:H2; simpl.
    2:{ apply cleared_None in H2. rewrite He2 in H2. tauto. }
    assert (He2' : entry "service_two" (load_config file) <> None).
    { rewrite <- He2. intros H. apply (cleared_None _ service_two_items) in H. congruence. }
    assert (He3' : entry "service_eight"
                     (load_config (save_config writable c2 (save_config writable c1 file)))
                   = entry "service_eight" (load_config file)).
    { rewrite <- He3. destruct writable; [|reflexivity]. simpl.
      apply (cleared_entry_ne "service_two" _ _ _ "service_eight" ltac:(done) H2). }
    destruct (cleared "service_eight" _ _) as [c3|] eqn:H3; simpl.
    2:{ apply cleared_None in H3. rewrite He3' in H3. tauto. }
    split; [discriminate|]. intros [H|[H|H]]; [tauto|tauto|].
    rewrite <- He3' in H. apply (cleared_None _ service_eight_items) in H. congruence.
  - rewrite terminate_program_eq. simpl.
    destruct (cleared "service_one" _ _); [|now left]. simpl.
    destruct (cleared "service_two" _ _); [|now left]. simpl.
    destruct (cleared "service_eight" _ _); [|now left]. now right.
Qed.

End Settings.
